(** * Expansion-team overlay: a shallow embedding of the TypeScript sources

    The development follows the repository file by file:
    - [expansion_teams.ts]  : the catalog and the mapping registry;
    - [team_utils.ts]       : enrichment, division validation, search index,
                              division-display sort;
    - [enhanced_madden_db.ts] : the enhanced team list (closure state);
    - [enhanced_team_utils.ts] : the two-pass team resolver;
    - [enhanced_game_channels.ts] : the scoreboard and its sim-message formatter;
    - [enhanced_exporter.ts] : export validation, events, lookup by name,
                              comparison of exports;
    - [logo_handler.ts]     : logo URLs, paths and the serving middleware's match;
    - the corrected [notifier.ts] snippet quoted in the logo integration guide.

    JavaScript values are modelled as the code uses them: strings as [string]
    (restricted to ASCII, where [toLowerCase]/[toUpperCase] act on the letters
    A-Z/a-z only), numbers that are team ids as [N], other numbers as [Z],
    [Map] as an insertion-ordered association list, a plain object indexed by
    team id as a property list in ECMAScript's own-property order, optional
    properties as [option].  [String.prototype.localeCompare] depends on the
    host's collation and is a parameter of the definitions that call it. *)

From Stdlib Require Import List String Ascii Bool Arith ZArith NArith Lia.
From Stdlib Require Import Sorting.Sorted Sorting.Permutation.
From Stdlib Require Import DecimalString.
Import ListNotations.

Local Open Scope string_scope.
Local Open Scope list_scope.

(** ** JavaScript strings *)

Module JsString.

Definition isUpper (c : ascii) : bool :=
  let n := nat_of_ascii c in (65 <=? n)%nat && (n <=? 90)%nat.

Definition isLower (c : ascii) : bool :=
  let n := nat_of_ascii c in (97 <=? n)%nat && (n <=? 122)%nat.

Definition lowerChar (c : ascii) : ascii :=
  if isUpper c then ascii_of_nat (nat_of_ascii c + 32) else c.

Definition upperChar (c : ascii) : ascii :=
  if isLower c then ascii_of_nat (nat_of_ascii c - 32) else c.

Fixpoint mapChars (f : ascii -> ascii) (s : string) : string :=
  match s with
  | EmptyString => EmptyString
  | String c s' => String (f c) (mapChars f s')
  end.

(** [s.toLowerCase()] and [s.toUpperCase()], as they act on a string of ASCII
    characters: the letters A-Z and a-z change, nothing else does.  Beyond
    ASCII the host's functions also map other letters and may change the
    length of the string (the sharp s becomes SS), so a statement whose truth
    depends on that carries [isAscii] of the string as a hypothesis. *)
Definition toLowerCase (s : string) : string := mapChars lowerChar s.
Definition toUpperCase (s : string) : string := mapChars upperChar s.

(** Every code unit of [s] is an ASCII character *)
Fixpoint isAscii (s : string) : bool :=
  match s with
  | EmptyString => true
  | String c s' => (nat_of_ascii c <? 128)%nat && isAscii s'
  end.

(** [s.includes(sub)] *)
Fixpoint includes (s sub : string) : bool :=
  String.prefix sub s ||
  match s with
  | EmptyString => false
  | String _ s' => includes s' sub
  end.

(** [s.split(' ')]: the pieces between single spaces; never empty. *)
Fixpoint splitSpace (s : string) : list string :=
  match s with
  | EmptyString => [EmptyString]
  | String c s' =>
      if Ascii.eqb c " "%char then EmptyString :: splitSpace s'
      else match splitSpace s' with
           | [] => [String c EmptyString]
           | w :: ws => String c w :: ws
           end
  end.

(** [s.charAt(0)]: the first character as a string, or the empty string *)
Definition charAt0 (s : string) : string :=
  match s with
  | EmptyString => EmptyString
  | String c _ => String c EmptyString
  end.

(** [s.substring(0, n)] *)
Definition substring0 (n : nat) (s : string) : string := String.substring 0 n s.

(** [a.join(sep)] *)
Definition join (sep : string) (l : list string) : string := String.concat sep l.

(** A number in a template literal, for the non-negative integers used here *)
Definition ofNat (n : nat) : string := NilEmpty.string_of_uint (Nat.to_uint n).

(** The double-quote character as a one-character string *)
Definition dquote : string := String (ascii_of_nat 34) EmptyString.

(** JavaScript truthiness of a string: non-empty *)
Definition truthy (s : string) : bool :=
  match s with EmptyString => false | _ => true end.

End JsString.

(** ** [Map]: insertion-ordered association list

    [set] on a present key replaces the value in place and keeps the position;
    on an absent key it appends.  Iteration follows the list. *)

Module JsMap.
Section WithKey.
Context {K V : Type}.
Variable keyEqb : K -> K -> bool.

Definition t := list (K * V).

Definition empty : t := [].

Fixpoint get (k : K) (m : t) : option V :=
  match m with
  | [] => None
  | (k', v) :: m' => if keyEqb k k' then Some v else get k m'
  end.

Definition has (k : K) (m : t) : bool :=
  match get k m with Some _ => true | None => false end.

Fixpoint set (k : K) (v : V) (m : t) : t :=
  match m with
  | [] => [(k, v)]
  | (k', v') :: m' =>
      if keyEqb k k' then (k, v) :: m' else (k', v') :: set k v m'
  end.

Fixpoint delete (k : K) (m : t) : t :=
  match m with
  | [] => []
  | (k', v') :: m' =>
      if keyEqb k k' then m' else (k', v') :: delete k m'
  end.

Definition keys (m : t) : list K := map fst m.
Definition values (m : t) : list V := map snd m.
End WithKey.
End JsMap.

(** ** Sim results *)

(** Modelled from the spec: the enum [SimResult] is declared outside the
    files at hand; its members are the four the specification lists. *)
Inductive SimResult := FORCE_WIN_HOME | FORCE_WIN_AWAY | FAIR_SIM | NONE.

Definition UserId := string.

(** Modelled from the spec: the enclosing function of [notifier.ts] and its
    fall-through are missing from the sources; only the three guarded returns
    are quoted (the corrected snippet of the logo integration guide).  The
    three guards below are those of the snippet, in its order; the result when
    none of them fires is the specification's [NONE]. *)
Definition classify (homeUsers awayUsers : list UserId) : SimResult :=
  if (0 <? List.length homeUsers)%nat && (List.length awayUsers =? 0)%nat then FORCE_WIN_HOME
  else if (0 <? List.length awayUsers)%nat && (List.length homeUsers =? 0)%nat then FORCE_WIN_AWAY
  else if (0 <? List.length homeUsers)%nat && (0 <? List.length awayUsers)%nat then FAIR_SIM
  else NONE.

(** The snippet the same guide marks "Before (Incorrect)": its two guarded
    returns, "both non-empty" first, then the home test without the exclusive
    guard.  The guide quotes nothing after them: [None] when neither fires. *)
Definition classify_before (homeUsers awayUsers : list UserId) : option SimResult :=
  if (0 <? List.length homeUsers)%nat && (0 <? List.length awayUsers)%nat then Some FAIR_SIM
  else if (0 <? List.length homeUsers)%nat then Some FORCE_WIN_HOME
  else None.

(** ** [enhanced_game_channels.ts]: the scoreboard's sim message *)

(** What [sim.result] (typed [any]) may hold *)
Inductive JsValue :=
| JsUndefined
| JsStr (s : string)
| JsNum (z : Z).

(** A call either returns or throws [new Error(msg)] *)
Inductive Completion (A : Type) :=
| Return (a : A)
| Throw (msg : string).
Arguments Return {A} a.
Arguments Throw {A} msg.

(** [x === "literal"] *)
Definition strictEqStr (v : JsValue) (lit : string) : bool :=
  match v with
  | JsStr s => String.eqb s lit
  | _ => false
  end.

Definition createSimMessage (result : JsValue) : Completion string :=
  if strictEqStr result "FAIR_SIM" then Return "Fair Sim"
  else if strictEqStr result "FORCE_WIN_AWAY" then Return "Force Win Away"
  else if strictEqStr result "FORCE_WIN_HOME" then Return "Force Win Home"
  else Throw "Should not have gotten here! from createSimMessage".

(** Modelled from the spec: the string a [SimResult] member stands for (the
    enum's declaration is missing); the three that [createSimMessage] tests
    are spelled as it tests them, the fourth as the specification names it. *)
Definition simResultName (r : SimResult) : string :=
  match r with
  | FORCE_WIN_HOME => "FORCE_WIN_HOME"
  | FORCE_WIN_AWAY => "FORCE_WIN_AWAY"
  | FAIR_SIM => "FAIR_SIM"
  | NONE => "NONE"
  end.

(** ** [madden_league_types.ts] and [expansion_teams.ts]: the data model

    [Team] is declared outside the files at hand.  The record holds the
    properties the functions below read or write; [otherProps] stands for
    the remaining own properties, which the object spread copies as they are.
    [teamName], [originalName], [divisionId] and [conferenceId] are probed by
    [autoDetectExpansionTeams] on values typed [any] and may be missing;
    [originalDisplayName], [originalNickName] and [isExpansionTeam] exist only
    on the objects [enhanceTeamData] produces. *)

Record Team := mkTeam {
  teamId : N;
  displayName : string;
  nickName : string;
  cityName : string;
  abbrName : string;
  divName : string;
  logoId : Z;
  teamName : option string;
  originalName : option string;
  divisionId : option Z;
  conferenceId : option Z;
  originalDisplayName : option string;
  originalNickName : option string;
  isExpansionTeam_ : option bool;
  otherProps : list (string * string)
}.

Record Colors := mkColors {
  primary : string;
  secondary : string;
  tertiary : option string
}.

Record ExpansionTeam := mkExpansionTeam {
  name : string;
  colors : Colors;
  expansionLogoId : Z
}.

Record ExpansionTeamMapping := mkMapping {
  expansionName : string;
  originalTeamId : N;
  originalTeamName : string;
  mappingDivisionId : Z;
  mappingConferenceId : Z
}.

(** All possible expansion teams from Madden 25; each is stored under its own
    [name] as the property key. *)
Definition EXPANSION_TEAMS : list ExpansionTeam := [
    mkExpansionTeam "Antlers" (mkColors "Green" "White" (Some "Brown")) 1001;
    mkExpansionTeam "Armadillos" (mkColors "Red" "Gold" (Some "Black")) 1002;
    mkExpansionTeam "Aviators" (mkColors "Black" "Blue" (Some "White")) 1003;
    mkExpansionTeam "Bisons" (mkColors "Yellow" "Orange" (Some "Blue")) 1004;
    mkExpansionTeam "Black Knights" (mkColors "Black" "White" (Some "Red")) 1005;
    mkExpansionTeam "Blues" (mkColors "Blue" "White" (Some "Black")) 1006;
    mkExpansionTeam "Bulls" (mkColors "White" "Blue" (Some "Yellow")) 1007;
    mkExpansionTeam "Caps" (mkColors "White" "Blue" (Some "Red")) 1008;
    mkExpansionTeam "Condors" (mkColors "White" "Purple" (Some "Black")) 1009;
    mkExpansionTeam "Desperados" (mkColors "Black" "Grey" (Some "Red")) 1010;
    mkExpansionTeam "Dragons" (mkColors "Red" "Black" (Some "White")) 1011;
    mkExpansionTeam "Dreadnoughts" (mkColors "Blue" "Yellow" (Some "White")) 1012;
    mkExpansionTeam "Elks" (mkColors "Blue" "Yellow" (Some "White")) 1013;
    mkExpansionTeam "Golden Eagles" (mkColors "Red" "Green" (Some "White")) 1014;
    mkExpansionTeam "Huskies" (mkColors "Blue" "Black" (Some "White")) 1015;
    mkExpansionTeam "Lumberjacks" (mkColors "Black" "Red" (Some "White")) 1016;
    mkExpansionTeam "Monarchs" (mkColors "Blue" "White" (Some "Red")) 1017;
    mkExpansionTeam "Mounties" (mkColors "Navy" "Mustard" (Some "Red")) 1018;
    mkExpansionTeam "Night Hawks" (mkColors "Blue" "Grey" (Some "Black")) 1019;
    mkExpansionTeam "Orbits" (mkColors "Blue" "Grey" (Some "White")) 1020;
    mkExpansionTeam "Pioneers" (mkColors "Brown" "Orange" (Some "White")) 1021;
    mkExpansionTeam "Redwoods" (mkColors "Green" "White" (Some "Brown")) 1022;
    mkExpansionTeam "River Hogs" (mkColors "Navy" "Blue" (Some "White")) 1023;
    mkExpansionTeam "Sentinels" (mkColors "Blue" "Grey" (Some "Black")) 1024;
    mkExpansionTeam "Shamrocks" (mkColors "Green" "White" None) 1025;
    mkExpansionTeam "Snowhawks" (mkColors "White" "Grey" (Some "Light Blue")) 1026;
    mkExpansionTeam "Steamers" (mkColors "Black" "Brown" (Some "White")) 1027;
    mkExpansionTeam "Thunderbirds" (mkColors "Red" "White" (Some "Orange")) 1028;
    mkExpansionTeam "Tigers" (mkColors "Black" "Orange" (Some "White")) 1029;
    mkExpansionTeam "Voyagers" (mkColors "Blue" "White" (Some "Yellow")) 1030;
    mkExpansionTeam "Wizards" (mkColors "Blue" "Yellow" (Some "White")) 1031
  ].

(** The members every plain object inherits from [Object.prototype]: the [in]
    operator of [isValidExpansionTeamName] sees them too. *)
Definition objectPrototypeMembers : list string :=
  [ "constructor"; "__defineGetter__"; "__defineSetter__"; "hasOwnProperty";
    "__lookupGetter__"; "__lookupSetter__"; "isPrototypeOf";
    "propertyIsEnumerable"; "toString"; "valueOf"; "__proto__";
    "toLocaleString" ].

(** In-memory storage for expansion team mappings: [Map<number, ExpansionTeamMapping>].
    The module-level variable becomes an explicit argument and result. *)
Definition MappingStore := @JsMap.t N ExpansionTeamMapping.

Definition emptyStore : MappingStore := JsMap.empty.

Definition registerExpansionTeam (teamId : N) (expansionName originalTeamName : string)
    (divisionId conferenceId : Z) (store : MappingStore) : MappingStore :=
  JsMap.set N.eqb teamId
    (mkMapping expansionName teamId originalTeamName divisionId conferenceId) store.

Definition isExpansionTeam (store : MappingStore) (teamId : N) : bool :=
  JsMap.has N.eqb teamId store.

Definition getExpansionTeamMapping (store : MappingStore) (teamId : N)
    : option ExpansionTeamMapping :=
  JsMap.get N.eqb teamId store.

(** [EXPANSION_TEAMS[name]] for an own property.  An inherited member
    ([objectPrototypeMembers]) is an object without [logoId] or [colors]; the
    callers below treat it as they treat [undefined]. *)
Definition getExpansionTeamByName (nm : string) : option ExpansionTeam :=
  find (fun e => String.eqb (name e) nm) EXPANSION_TEAMS.

(** [name in EXPANSION_TEAMS] *)
Definition isValidExpansionTeamName (nm : string) : bool :=
  existsb (fun e => String.eqb (name e) nm) EXPANSION_TEAMS
  || existsb (String.eqb nm) objectPrototypeMembers.

Definition getAllExpansionTeamMappings (store : MappingStore)
    : list ExpansionTeamMapping :=
  JsMap.values store.

Definition removeExpansionTeamMapping (teamId : N) (store : MappingStore)
    : MappingStore :=
  JsMap.delete N.eqb teamId store.

(** [a || b] on numbers: [0] is falsy *)
Definition numOr (a b : Z) : Z := if Z.eqb a 0 then b else a.

(** [a || b] where [a] may be [undefined] *)
Definition optNumOr (a : option Z) (b : Z) : Z :=
  match a with Some z => numOr z b | None => b end.

(** [a || b] on strings where [a] may be [undefined]: the empty string is falsy *)
Definition optStrOr (a : option string) (b : string) : string :=
  match a with
  | Some s => if JsString.truthy s then s else b
  | None => b
  end.

Definition getTeamLogoId (store : MappingStore) (teamId : N) (originalLogoId : Z) : Z :=
  match getExpansionTeamMapping store teamId with
  | Some mapping =>
      match getExpansionTeamByName (expansionName mapping) with
      | Some expansionTeam => numOr (expansionLogoId expansionTeam) originalLogoId
      | None => originalLogoId
      end
  | None => originalLogoId
  end.

Definition getTeamDisplayName (store : MappingStore) (teamId : N) (originalName : string)
    : string :=
  match getExpansionTeamMapping store teamId with
  | Some mapping => expansionName mapping
  | None => originalName
  end.

(** [team.displayName || team.nickName || team.teamName]: [None] is
    [undefined], and an empty result is falsy as well. *)
Definition candidateName (team : Team) : option string :=
  if JsString.truthy (displayName team) then Some (displayName team)
  else if JsString.truthy (nickName team) then Some (nickName team)
  else teamName team.

(** The body of the [forEach] callback of [autoDetectExpansionTeams] *)
Definition autoDetectOne (store : MappingStore) (team : Team) : MappingStore :=
  match candidateName team with
  | Some nm =>
      if JsString.truthy nm && isValidExpansionTeamName nm then
        if negb (isExpansionTeam store (teamId team)) then
          registerExpansionTeam (teamId team) nm
            (optStrOr (originalName team) nm)
            (optNumOr (divisionId team) 0)
            (optNumOr (conferenceId team) 0)
            store
        else store
      else store
  | None => store
  end.

(** The guard of [autoDetectExpansionTeams]: the team has a candidate name
    and that name is a key of the catalog object. *)
Definition detectable (team : Team) : bool :=
  match candidateName team with
  | Some nm => JsString.truthy nm && isValidExpansionTeamName nm
  | None => false
  end.

Definition autoDetectExpansionTeams (teams : list Team) (store : MappingStore)
    : MappingStore :=
  fold_left autoDetectOne teams store.

(** ** Plain objects indexed by team id

    [searchIndex[team.teamId] = ...] on a [Record<string, any>].  Own
    properties enumerate with the array-index keys (integers below 2^32 - 1)
    first, in ascending numeric order, then the other keys in insertion order;
    assigning to a present key replaces its value where it stands. *)

Module JsObject.
Definition isArrayIndex (k : N) : bool := (k <? 4294967295)%N.

Definition t (V : Type) := list (N * V).

Fixpoint set {V : Type} (k : N) (v : V) (o : t V) : t V :=
  match o with
  | [] => [(k, v)]
  | (k', v') :: o' =>
      if N.eqb k k' then (k, v) :: o'
      else if isArrayIndex k && (negb (isArrayIndex k') || (k <? k')%N)
           then (k, v) :: (k', v') :: o'
           else (k', v') :: set k v o'
  end.

(** [Object.values(o)] *)
Definition values {V : Type} (o : t V) : list V := map snd o.
End JsObject.

(** ** [team_utils.ts] *)

(** The object literal of the mapped branch of [enhanceTeamData]'s callback:
    the spread of [team], then the overriding properties. *)
Definition enhanceMapped (store : MappingStore) (mapping : ExpansionTeamMapping)
    (team : Team) : Team :=
  {| teamId := teamId team;
     displayName := getTeamDisplayName store (teamId team) (displayName team);
     nickName := expansionName mapping;
     cityName := cityName team;
     abbrName := abbrName team;
     divName := divName team;
     logoId := getTeamLogoId store (teamId team) (logoId team);
     teamName := teamName team;
     originalName := originalName team;
     divisionId := divisionId team;
     conferenceId := conferenceId team;
     originalDisplayName := Some (displayName team);
     originalNickName := Some (nickName team);
     isExpansionTeam_ := Some true;
     otherProps := otherProps team |}.

(** The object literal of the other branch: the spread, then [isExpansionTeam: false] *)
Definition enhanceUnmapped (team : Team) : Team :=
  {| teamId := teamId team;
     displayName := displayName team;
     nickName := nickName team;
     cityName := cityName team;
     abbrName := abbrName team;
     divName := divName team;
     logoId := logoId team;
     teamName := teamName team;
     originalName := originalName team;
     divisionId := divisionId team;
     conferenceId := conferenceId team;
     originalDisplayName := originalDisplayName team;
     originalNickName := originalNickName team;
     isExpansionTeam_ := Some false;
     otherProps := otherProps team |}.

Definition enhanceOne (store : MappingStore) (team : Team) : Team :=
  match getExpansionTeamMapping store (teamId team) with
  | Some mapping => enhanceMapped store mapping team
  | None => enhanceUnmapped team
  end.

(** [enhanceTeamData]: the record values it computes and the registry it
    leaves behind.  The object identities are the subject of [Heap] below. *)
Definition enhanceTeamData (teams : list Team) (store : MappingStore)
    : list Team * MappingStore :=
  let store' := autoDetectExpansionTeams teams store in
  (map (enhanceOne store') teams, store').

Definition getTeamAbbreviation (store : MappingStore) (team : Team) : string :=
  match getExpansionTeamMapping store (teamId team) with
  | Some mapping =>
      let words := JsString.splitSpace (expansionName mapping) in
      match words with
      | [w] => JsString.toUpperCase (JsString.substring0 3 w)
      | _ =>
          JsString.substring0 3
            (JsString.toUpperCase (JsString.join "" (map JsString.charAt0 words)))
      end
  | None => abbrName team
  end.

(** [(divisionCounts.get(divName) || 0) + 1] *)
Definition bumpCount (c : option nat) : nat :=
  match c with Some n => n + 1 | None => 0 + 1 end.

(** The callback of the [forEach] that fills [divisionCounts] *)
Definition countStep (counts : @JsMap.t string nat) (team : Team) : @JsMap.t string nat :=
  JsMap.set String.eqb (divName team)
    (bumpCount (JsMap.get String.eqb (divName team) counts)) counts.

(** [divisionCounts : Map<string, number>] after the [forEach] *)
Definition countDivisions (teams : list Team) : @JsMap.t string nat :=
  fold_left countStep teams JsMap.empty.

(** A count read back from the map, [0] when the division is absent *)
Definition countOf (c : option nat) : nat :=
  match c with Some n => n | None => 0 end.

(** The number of teams whose [divName] is [division] *)
Definition divisionSize (division : string) (teams : list Team) : nat :=
  List.length (filter (fun team => String.eqb (divName team) division) teams).

Definition divisionWarning (division : string) (count : nat) : string :=
  "Division " ++ division ++ " has " ++ JsString.ofNat count ++ " teams instead of 4".

(** The [for ... of divisionCounts] loop: the lines passed to [console.warn]
    and, when the loop returns from the function, the value returned. *)
Fixpoint divisionLoop (entries : list (string * nat)) : list string * option bool :=
  match entries with
  | [] => ([], None)
  | (division, count) :: rest =>
      if negb (Nat.eqb count 4)
      then ([divisionWarning division count], Some false)
      else divisionLoop rest
  end.

(** [validateDivisionIntegrity]: the boolean and the console output *)
Definition validateDivisionIntegrity (teams : list Team) : bool * list string :=
  match divisionLoop (countDivisions teams) with
  | (out, Some b) => (b, out)
  | (out, None) => (Nat.eqb (List.length teams) 32, out)
  end.

Record SearchRecord := mkSearchRecord {
  srCityName : string;
  srAbbrName : string;
  srNickName : string;
  srDisplayName : string;
  srId : N;
  srOriginalNickName : string;
  srOriginalDisplayName : string;
  srIsExpansionTeam : bool
}.

Definition searchRecordOf (store : MappingStore) (team : Team) : SearchRecord :=
  let mapping := getExpansionTeamMapping store (teamId team) in
  {| srCityName := cityName team;
     srAbbrName := getTeamAbbreviation store team;
     srNickName := match mapping with
                   | Some m => expansionName m
                   | None => nickName team
                   end;
     srDisplayName := getTeamDisplayName store (teamId team) (displayName team);
     srId := teamId team;
     srOriginalNickName := nickName team;
     srOriginalDisplayName := displayName team;
     srIsExpansionTeam := match mapping with Some _ => true | None => false end |}.

Definition createEnhancedTeamSearchIndex (store : MappingStore) (teams : list Team)
    : JsObject.t SearchRecord :=
  fold_left
    (fun searchIndex team =>
       JsObject.set (teamId team) (searchRecordOf store team) searchIndex)
    teams [].

(** ** [Array.prototype.sort]

    The sort is stable and, for a consistent comparator, returns the one stable
    sorted arrangement of the array; insertion from the right computes it.
    Only the sign of the comparator's number matters: [comparison]. *)

Section ArraySort.
Context {A : Type}.
Variable compareFn : A -> A -> comparison.

Fixpoint sortInsert (x : A) (l : list A) : list A :=
  match l with
  | [] => [x]
  | y :: l' =>
      match compareFn x y with
      | Gt => y :: sortInsert x l'
      | _ => x :: l
      end
  end.

Fixpoint arraySort (l : list A) : list A :=
  match l with
  | [] => []
  | x :: l' => sortInsert x (arraySort l')
  end.

(** [a] may stand before [b]: the comparator's result is not positive *)
Definition notAfter (a b : A) : Prop := compareFn a b <> Gt.
End ArraySort.

(** ** Definitions that depend on the host's [localeCompare] *)

(** A [TeamList] of [madden_db.ts], as far as the wrapper uses it *)
Record TeamList := mkTeamList {
  getLatestTeams : list Team;
  getTeamForId : N -> Completion Team
}.

(** The closure state of [createEnhancedTeamList]: the [enhancedTeams] array,
    which [getEnhancedLatestTeams] sorts in place, and the [teamMap] built
    from it once. *)
Record EnhancedTeamList := mkEnhancedTeamList {
  originalTeamList : TeamList;
  enhancedTeams : list Team;
  teamMap : @JsMap.t N Team
}.

Record ResolveResult := mkResolveResult {
  valid : bool;
  team : option Team;
  error : option string
}.

Definition bind {A B : Type} (c : Completion A) (k : A -> Completion B) : Completion B :=
  match c with
  | Return a => k a
  | Throw msg => Throw msg
  end.

(** The callback of the [forEach] that fills [teamMap] *)
Definition teamMapStep (teamMap : @JsMap.t N Team) (team : Team) : @JsMap.t N Team :=
  JsMap.set N.eqb (teamId team) team teamMap.

Definition createEnhancedTeamList (original : TeamList) (store : MappingStore)
    : EnhancedTeamList * MappingStore :=
  let originalTeams := getLatestTeams original in
  let '(enhanced, store') := enhanceTeamData originalTeams store in
  let teamMap := fold_left teamMapStep enhanced JsMap.empty in
  (mkEnhancedTeamList original enhanced teamMap, store').

Definition getEnhancedTeamForId (teamList : EnhancedTeamList) (id : N) : Completion Team :=
  match JsMap.get N.eqb id (teamMap teamList) with
  | Some team => Return team
  | None => getTeamForId (originalTeamList teamList) id
  end.

Definition validateDivisionStructure (teamList : EnhancedTeamList) : bool * list string :=
  validateDivisionIntegrity (enhancedTeams teamList).

Section Locale.
(** [a.localeCompare(b)], by the sign of its result *)
Variable localeCompare : string -> string -> comparison.

(** The comparator of [sortTeamsForDivisionDisplay] *)
Definition divisionDisplayCompare (store : MappingStore) (a b : Team) : comparison :=
  if negb (String.eqb (divName a) (divName b))
  then localeCompare (divName a) (divName b)
  else
    let aName := getTeamDisplayName store (teamId a) (displayName a) in
    let bName := getTeamDisplayName store (teamId b) (displayName b) in
    localeCompare aName bName.

Definition sortTeamsForDivisionDisplay (store : MappingStore) (teams : list Team)
    : list Team :=
  arraySort (divisionDisplayCompare store) teams.

(** [getEnhancedLatestTeams()]: the array it returns is [enhancedTeams]
    itself, sorted in place. *)
Definition getEnhancedLatestTeams (store : MappingStore) (teamList : EnhancedTeamList)
    : list Team * EnhancedTeamList :=
  let sorted := sortTeamsForDivisionDisplay store (enhancedTeams teamList) in
  (sorted,
   mkEnhancedTeamList (originalTeamList teamList) sorted (teamMap teamList)).

(** *** [enhanced_team_utils.ts]: the resolver *)

Definition exactMatches (teamReference : string) (r : SearchRecord) : bool :=
  String.eqb (JsString.toLowerCase (srDisplayName r)) (JsString.toLowerCase teamReference)
  || String.eqb (JsString.toLowerCase (srNickName r)) (JsString.toLowerCase teamReference)
  || String.eqb (JsString.toLowerCase (srAbbrName r)) (JsString.toLowerCase teamReference).

Definition partialMatches (teamReference : string) (r : SearchRecord) : bool :=
  JsString.includes (JsString.toLowerCase (srDisplayName r)) (JsString.toLowerCase teamReference)
  || JsString.includes (JsString.toLowerCase (srCityName r)) (JsString.toLowerCase teamReference)
  || JsString.includes (JsString.toLowerCase (srNickName r)) (JsString.toLowerCase teamReference).

Definition multipleTeamsError (teamReference : string) (names : list string) : string :=
  "Multiple teams found for " ++ JsString.dquote ++ teamReference ++ JsString.dquote
  ++ ": " ++ JsString.join ", " names ++ ". Please be more specific.".

Definition noTeamError (teamReference : string) : string :=
  "No team found for " ++ JsString.dquote ++ teamReference ++ JsString.dquote
  ++ ". Please check the team name and try again.".

Definition foundTeam (t : Team) : ResolveResult :=
  {| valid := true; team := Some t; error := None |}.

Definition failed (msg : string) : ResolveResult :=
  {| valid := false; team := None; error := Some msg |}.

(** The values of the search index the resolver walks *)
Definition resolverIndex (store : MappingStore) (teamList : EnhancedTeamList)
    : list SearchRecord :=
  JsObject.values
    (createEnhancedTeamSearchIndex store
       (fst (getEnhancedLatestTeams store teamList))).

Definition validateEnhancedTeamReference (store : MappingStore)
    (teamReference : string) (teamList : EnhancedTeamList)
    : Completion ResolveResult :=
  let records := resolverIndex store teamList in
  match find (exactMatches teamReference) records with
  | Some exactMatch =>
      bind (getEnhancedTeamForId teamList (srId exactMatch))
           (fun t => Return (foundTeam t))
  | None =>
      let matches := filter (partialMatches teamReference) records in
      if Nat.eqb (List.length matches) 1 then
        match matches with
        | m :: _ =>
            bind (getEnhancedTeamForId teamList (srId m))
                 (fun t => Return (foundTeam t))
        | [] => Return (failed (noTeamError teamReference))
        end
      else if (1 <? List.length matches)%nat then
        Return (failed (multipleTeamsError teamReference (map srDisplayName matches)))
      else Return (failed (noTeamError teamReference))
  end.
End Locale.

(** ** Object identity: [enhanceTeamData] over a heap

    The [teams] array and the [Team] objects it holds are shared with the
    caller.  A heap cell is a [Team] object or an array of references; a
    reference is an index into the heap, and allocation appends a cell. *)

Module Heap.
Definition loc := nat.

Inductive cell :=
| TeamObj (t : Team)
| ArrayObj (elems : list loc).

Definition heap := list cell.

Definition read (h : heap) (l : loc) : option cell := nth_error h l.

Definition alloc (h : heap) (c : cell) : loc * heap :=
  (List.length h, h ++ [c]).

Definition readTeam (h : heap) (l : loc) : option Team :=
  match read h l with
  | Some (TeamObj t) => Some t
  | _ => None
  end.

Definition readArray (h : heap) (l : loc) : option (list loc) :=
  match read h l with
  | Some (ArrayObj elems) => Some elems
  | _ => None
  end.

(** The property values of the objects an array of references holds *)
Fixpoint readTeams (h : heap) (elems : list loc) : option (list Team) :=
  match elems with
  | [] => Some []
  | l :: elems' =>
      match readTeam h l, readTeams h elems' with
      | Some t, Some ts => Some (t :: ts)
      | _, _ => None
      end
  end.

(** [teams.map(team => ...)]: each call of the callback reads its [team]
    and evaluates an object literal, which allocates. *)
Fixpoint mapEnhance (store : MappingStore) (elems : list loc) (h : heap)
    : option (list loc * heap) :=
  match elems with
  | [] => Some ([], h)
  | l :: elems' =>
      match readTeam h l with
      | None => None
      | Some t =>
          let '(l', h1) := alloc h (TeamObj (enhanceOne store t)) in
          match mapEnhance store elems' h1 with
          | None => None
          | Some (ls, h2) => Some (l' :: ls, h2)
          end
      end
  end.

(** [enhanceTeamData(teams)]: the reference of the returned array, the
    registry and the heap afterwards; [None] when [teams] is not an array of
    [Team] objects. *)
Definition enhanceTeamData (teams : loc) (store : MappingStore) (h : heap)
    : option (loc * MappingStore * heap) :=
  match readArray h teams with
  | None => None
  | Some elems =>
      match readTeams h elems with
      | None => None
      | Some ts =>
          let store' := autoDetectExpansionTeams ts store in
          match mapEnhance store' elems h with
          | None => None
          | Some (ls, h1) =>
              let '(a, h2) := alloc h1 (ArrayObj ls) in
              Some (a, store', h2)
          end
      end
  end.
End Heap.

(** ** Sample data *)

Definition rawTeam (id : N) (display nick city abbr div : string) (logo : Z) : Team :=
  {| teamId := id; displayName := display; nickName := nick; cityName := city;
     abbrName := abbr; divName := div; logoId := logo;
     teamName := None; originalName := None; divisionId := None;
     conferenceId := None; originalDisplayName := None; originalNickName := None;
     isExpansionTeam_ := None; otherProps := [] |}.

(** A raw team that also carries a numeric [divisionId] *)
Definition rawTeamInDivision (id : N) (display div : string) (divId : Z) : Team :=
  {| teamId := id; displayName := display; nickName := display; cityName := "";
     abbrName := ""; divName := div; logoId := 0%Z;
     teamName := None; originalName := None; divisionId := Some divId;
     conferenceId := None; originalDisplayName := None; originalNickName := None;
     isExpansionTeam_ := None; otherProps := [] |}.

Definition sampleTeamList (teams : list Team) : TeamList :=
  {| getLatestTeams := teams;
     getTeamForId := fun _ => Throw "team not found" |}.

(** Code-unit comparison, an instance of a consistent [localeCompare] *)
Definition codeUnitCompare : string -> string -> comparison := String.compare.

(** Four teams in each of the eight divisions, ids 1 to 32 *)
Definition divisionNames : list string :=
  [ "AFC East"; "AFC North"; "AFC South"; "AFC West";
    "NFC East"; "NFC North"; "NFC South"; "NFC West" ].

Definition teamNumbered (div : string) (n : nat) : Team :=
  rawTeam (N.of_nat n) ("Team " ++ JsString.ofNat n) ("Team " ++ JsString.ofNat n)
    "City" "TM" div 0%Z.

Fixpoint rosterFrom (start : nat) (divs : list string) : list Team :=
  match divs with
  | [] => []
  | d :: divs' =>
      [ teamNumbered d start; teamNumbered d (start + 1);
        teamNumbered d (start + 2); teamNumbered d (start + 3) ]
      ++ rosterFrom (start + 4) divs'
  end.

Definition healthyRoster : list Team := rosterFrom 1 divisionNames.

(** The healthy roster after its first team moved from AFC East to NFC West *)
Definition movedRoster : list Team :=
  match healthyRoster with
  | [] => []
  | t :: rest => teamNumbered "NFC West" 1 :: rest
  end.

(** A league in which team 7 plays as the Dragons and team 9 was registered
    by hand before its name changed back *)
Definition stickyStore : MappingStore :=
  registerExpansionTeam 9 "Tigers" "Bengals" 2 1 emptyStore.

Definition detectTeams : list Team :=
  [ rawTeam 7 "Dragons" "Dragons" "Dublin" "DUB" "AFC East" 7;
    rawTeam 9 "Bengals" "Bengals" "Cincinnati" "CIN" "AFC North" 9;
    rawTeam 7 "Dragons" "Dragons" "Dublin" "DUB" "AFC East" 7 ].


(** ** Orders on teams, for the statements about the display sort *)

Section TeamOrders.
Variable localeCompare : string -> string -> comparison.

(** Division name first, then the display name the registry gives the team *)
Definition divisionNameOrder (store : MappingStore) (a b : Team) : Prop :=
  localeCompare (divName a) (divName b) = Lt
  \/ (divName a = divName b
      /\ localeCompare (getTeamDisplayName store (teamId a) (displayName a))
                       (getTeamDisplayName store (teamId b) (displayName b)) <> Gt).

(** Division name first, then the [displayName] property of the record *)
Definition divisionDisplayOrder (a b : Team) : Prop :=
  localeCompare (divName a) (divName b) = Lt
  \/ (divName a = divName b
      /\ localeCompare (displayName a) (displayName b) <> Gt).

(** Numeric [divisionId] first ([team.divisionId || 0], as the registry
    reads it), then the [displayName] property *)
Definition divisionIdOrder (a b : Team) : Prop :=
  (optNumOr (divisionId a) 0 < optNumOr (divisionId b) 0)%Z
  \/ (optNumOr (divisionId a) 0 = optNumOr (divisionId b) 0
      /\ localeCompare (displayName a) (displayName b) <> Gt).
End TeamOrders.

(** No two different division names of [teams] compare as equal: with this,
    the comparator of [sortTeamsForDivisionDisplay], which compares display
    names only when the two division names are the same string, is consistent
    on [teams]. *)
Definition divisionNamesApart (localeCompare : string -> string -> comparison)
    (teams : list Team) : Prop :=
  forall a b, In a teams -> In b teams ->
    localeCompare (divName a) (divName b) = Eq -> divName a = divName b.

(** A comparator with ties between different strings: control characters do
    not count. *)
Fixpoint withoutControls (s : string) : string :=
  match s with
  | EmptyString => EmptyString
  | String c s' =>
      if (nat_of_ascii c <? 32)%nat then withoutControls s'
      else String c (withoutControls s')
  end.

Definition ignorableCompare (a b : string) : comparison :=
  String.compare (withoutControls a) (withoutControls b).

(** Three teams, the second in a division whose name differs from the others'
    by a control character *)
Definition tiedRoster : list Team :=
  [ rawTeam 1 "Zebras" "Zebras" "" "" "AFC East" 1;
    rawTeam 2 "Mules" "Mules" "" "" (String (ascii_of_nat 1) "AFC East") 2;
    rawTeam 3 "Apes" "Apes" "" "" "AFC East" 3 ].

(** Two teams whose division names and division ids order differently *)
Definition crossRoster : list Team :=
  [ rawTeamInDivision 1 "Bills" "AFC East" 2;
    rawTeamInDivision 2 "Cardinals" "NFC West" 1 ].

(** Team 1, registered as the Dragons while its export still says Bears *)
Definition dragonsStore : MappingStore :=
  registerExpansionTeam 1 "Dragons" "Bears" 0 0 emptyStore.

Definition bearsRoster : list Team :=
  [ rawTeam 1 "Bears" "Bears" "Chicago" "CHI" "NFC North" 1 ].

(** The export in which team 1 still plays as the Dragons: auto-detection on
    it leaves the mapping that later exports inherit *)
Definition dragonsExport : list Team :=
  [ rawTeam 1 "Dragons" "Dragons" "Chicago" "CHI" "NFC North" 1 ].

(** Two overlaid names that share a substring, and a third team *)
Definition hawksRoster : list Team :=
  [ rawTeam 5 "Snowhawks" "Snowhawks" "Anchorage" "ANC" "AFC West" 5;
    rawTeam 4 "Night Hawks" "Night Hawks" "Portland" "POR" "AFC West" 4;
    rawTeam 6 "Bills" "Bills" "Buffalo" "BUF" "AFC East" 6 ].

(** Two teams that answer to the same nickname *)
Definition twoDragonsRoster : list Team :=
  [ rawTeam 7 "Dragons" "Dragons" "Dublin" "DUB" "AFC East" 7;
    rawTeam 3 "Dublin Dragons" "Dragons" "Dublin" "DD" "AFC North" 3 ].

(** A heap holding two [Team] objects and the array of both, at reference 2 *)
Definition sampleHeapTeams : list Team :=
  [ rawTeam 7 "Dragons" "Dragons" "Dublin" "DUB" "AFC East" 7;
    rawTeam 9 "Bengals" "Bengals" "Cincinnati" "CIN" "AFC North" 9 ].

Definition sampleHeap : Heap.heap :=
  map Heap.TeamObj sampleHeapTeams ++ [ Heap.ArrayObj [0; 1] ].

(** ** Further definitions: the catalog's keys *)

(** [Object.keys(EXPANSION_TEAMS)] *)
Definition catalogNames : list string := map name EXPANSION_TEAMS.

(** A list of numbers holds no number twice *)
Fixpoint distinctZ (l : list Z) : bool :=
  match l with
  | [] => true
  | x :: l' => negb (existsb (Z.eqb x) l') && distinctZ l'
  end.

(** A team whose export calls it by the name of an inherited object member *)
Definition constructorTeam : Team :=
  rawTeam 11 "constructor" "constructor" "Canton" "CAN" "AFC North" 11.

(** ** Further string operations *)

(** A character the regular expression class [\s] matches, within ASCII:
    tab, line feed, vertical tab, form feed, carriage return, space *)
Definition isSpace (c : ascii) : bool :=
  let n := nat_of_ascii c in
  (n =? 32)%nat || ((9 <=? n)%nat && (n <=? 13)%nat).

(** [s.replace(/\s+/g, sep)]: every maximal run of white space becomes one
    [sep]; [inRun] says that the character before was white space. *)
Fixpoint replaceSpaceRuns (sep : string) (inRun : bool) (s : string) : string :=
  match s with
  | EmptyString => EmptyString
  | String c s' =>
      if isSpace c
      then if inRun then replaceSpaceRuns sep true s'
           else sep ++ replaceSpaceRuns sep true s'
      else String c (replaceSpaceRuns sep false s')
  end.

Definition replaceWhitespace (sep : string) (s : string) : string :=
  replaceSpaceRuns sep false s.

(** Every character of [s] satisfies [p] *)
Fixpoint allChars (p : ascii -> bool) (s : string) : bool :=
  match s with
  | EmptyString => true
  | String c s' => p c && allChars p s'
  end.

(** Neither white space nor an upper-case letter *)
Definition channelChar (c : ascii) : bool :=
  negb (isSpace c) && negb (JsString.isUpper c).

(** *** [team_utils.ts]: channel names; [enhanced_team_utils.ts] *)

Definition getTeamNameForChannel (store : MappingStore) (team : Team) : string :=
  match getExpansionTeamMapping store (teamId team) with
  | Some mapping =>
      replaceWhitespace "-" (JsString.toLowerCase (expansionName mapping))
  | None => replaceWhitespace "-" (JsString.toLowerCase (displayName team))
  end.

Definition generateEnhancedChannelName (store : MappingStore) (awayTeam homeTeam : Team)
    : string :=
  getTeamNameForChannel store awayTeam ++ "-at-" ++ getTeamNameForChannel store homeTeam.

(** *** [logo_handler.ts] *)

(** ['logo' | 'helmet' | 'icon'] *)
Inductive LogoType := LogoMain | LogoHelmet | LogoIcon.

Definition logoTypeName (type : LogoType) : string :=
  match type with
  | LogoMain => "logo"
  | LogoHelmet => "helmet"
  | LogoIcon => "icon"
  end.

(** [`${sanitizedName}_${type}`], the file name without its extension *)
Definition logoBaseName (teamName : string) (type : LogoType) : string :=
  replaceWhitespace "_" (JsString.toLowerCase teamName) ++ "_" ++ logoTypeName type.

(** [fileName] of [getExpansionTeamLogoPath] and [getExpansionTeamLogoUrl] *)
Definition logoFileName (teamName : string) (type : LogoType) : string :=
  logoBaseName teamName type ++ ".png".

Definition getExpansionTeamLogoUrl (teamName : string) (type : LogoType)
    (baseUrl : option string) : string :=
  let base := optStrOr baseUrl "/assets/expansion_logos" in
  base ++ "/" ++ logoFileName teamName type.

(** [s] without its prefix [p], when it starts with [p] *)
Fixpoint stripPrefix (p s : string) : option string :=
  match p, s with
  | EmptyString, _ => Some s
  | String a p', String b s' => if Ascii.eqb a b then stripPrefix p' s' else None
  | String _ _, EmptyString => None
  end.

(** [s] without its suffix [suf], when it ends with [suf] *)
Fixpoint stripSuffix (suf s : string) : option string :=
  if String.eqb s suf then Some EmptyString
  else match s with
       | EmptyString => None
       | String c s' =>
           match stripSuffix suf s' with
           | Some m => Some (String c m)
           | None => None
           end
       end.

(** A character the regular expression [.] matches, within ASCII: any but
    line feed and carriage return *)
Definition dotChar (c : ascii) : bool :=
  let n := nat_of_ascii c in negb ((n =? 10)%nat || (n =? 13)%nat).

(** [url.match(/^\/assets\/expansion_logos\/(.+)\.png$/)]: the first group when
    the expression matches *)
Definition matchLogoUrl (url : string) : option string :=
  match stripPrefix "/assets/expansion_logos/" url with
  | None => None
  | Some rest =>
      match stripSuffix ".png" rest with
      | None => None
      | Some fileName =>
          if JsString.truthy fileName && allChars dotChar fileName
          then Some fileName else None
      end
  end.

Section LogoPaths.
(** [path.join] of Node and the module's [__dirname] *)
Variable pathJoin : list string -> string.
Variable dirname : string.

Definition getExpansionTeamLogoPath (teamName : string) (type : LogoType) : string :=
  pathJoin [dirname; "expansion_logos"; logoFileName teamName type].

(** The file the logo-serving middleware reads for a request, when the
    request is one for a logo *)
Definition middlewareLogoPath (url : string) : option string :=
  match matchLogoUrl url with
  | Some fileName => Some (pathJoin [dirname; "expansion_logos"; (fileName ++ ".png")%string])
  | None => None
  end.
End LogoPaths.

(** ** [enhanced_exporter.ts] *)

(** A [TeamExport], as far as the exporter reads it; [leagueTeamInfoList] may
    be missing. *)
Record TeamExport := mkTeamExport {
  success : bool;
  leagueTeamInfoList : option (list Team)
}.

Record ExportValidation := mkExportValidation {
  exportValid : bool;
  issues : list string;
  warnings : list string
}.

(** The [for ... of divisionCounts] loop of [validateEnhancedTeamExport]: one
    issue for each division whose count is not 4 *)
Fixpoint divisionIssues (entries : list (string * nat)) : list string :=
  match entries with
  | [] => []
  | (division, count) :: rest =>
      if negb (Nat.eqb count 4)
      then divisionWarning division count :: divisionIssues rest
      else divisionIssues rest
  end.

(** [new Set(teamIds).size] *)
Definition distinctCount (ids : list N) : nat := List.length (nodup N.eq_dec ids).

(** A property read as a condition: present and [true] *)
Definition flagSet (b : option bool) : bool :=
  match b with Some true => true | _ => false end.

Definition expansionWarning (expansionTeams : list Team) : string :=
  "Found " ++ JsString.ofNat (List.length expansionTeams) ++ " expansion teams: "
  ++ JsString.join ", " (map displayName expansionTeams).

Definition teamCountIssue (n : nat) : string :=
  "Expected 32 teams, found " ++ JsString.ofNat n.

(** [validateEnhancedTeamExport]: its result and the registry afterwards (the
    call of [enhanceTeamData] runs auto-detection). *)
Definition validateEnhancedTeamExport (teamExport : TeamExport) (store : MappingStore)
    : ExportValidation * MappingStore :=
  if negb (success teamExport)
  then (mkExportValidation false ["Team export marked as unsuccessful"] [], store)
  else
    match leagueTeamInfoList teamExport with
    | None => (mkExportValidation false ["No team data in export"] [], store)
    | Some [] => (mkExportValidation false ["No team data in export"] [], store)
    | Some teams =>
        let countIssue :=
          if negb (Nat.eqb (List.length teams) 32)
          then [teamCountIssue (List.length teams)]
          else [] in
        let teamIds := map teamId teams in
        let duplicateIssue :=
          if negb (Nat.eqb (List.length teamIds) (distinctCount teamIds))
          then ["Duplicate team IDs found in export"]
          else [] in
        let allIssues :=
          countIssue ++ duplicateIssue ++ divisionIssues (countDivisions teams) in
        let '(enhancedTeams, store') := enhanceTeamData teams store in
        let expansionTeams :=
          filter (fun t => flagSet (isExpansionTeam_ t)) enhancedTeams in
        let allWarnings :=
          if (0 <? List.length expansionTeams)%nat
          then [expansionWarning expansionTeams] else [] in
        (mkExportValidation (Nat.eqb (List.length allIssues) 0) allIssues allWarnings,
         store')
    end.

(** ** [enhanced_team_utils.ts]: autocomplete *)

(** The filter of [createEnhancedTeamSearchResults] *)
Definition autocompleteMatches (searchPhrase : string) (r : SearchRecord) : bool :=
  let searchLower := JsString.toLowerCase searchPhrase in
  JsString.includes (JsString.toLowerCase (srDisplayName r)) searchLower
  || JsString.includes (JsString.toLowerCase (srCityName r)) searchLower
  || JsString.includes (JsString.toLowerCase (srNickName r)) searchLower
  || JsString.includes (JsString.toLowerCase (srAbbrName r)) searchLower
  || JsString.includes (JsString.toLowerCase (srOriginalDisplayName r)) searchLower
  || JsString.includes (JsString.toLowerCase (srOriginalNickName r)) searchLower.

(** [a.slice(0, limit)] for an integer [limit]: a negative one counts from
    the end of the array. *)
Definition sliceTo {A : Type} (limit : Z) (l : list A) : list A :=
  if (0 <=? limit)%Z then firstn (Z.to_nat limit) l
  else firstn (List.length l - Z.to_nat (- limit)) l.

(** An autocomplete choice: [{ name, value }] *)
Record Choice := mkChoice {
  choiceName : string;
  choiceValue : string
}.

Definition createEnhancedTeamSearchResults
    (localeCompare : string -> string -> comparison) (store : MappingStore)
    (searchPhrase : string) (teamList : EnhancedTeamList) (limit : Z) : list Choice :=
  map (fun r => mkChoice (srDisplayName r) (srDisplayName r))
    (sliceTo limit
       (filter (autocompleteMatches searchPhrase)
          (resolverIndex localeCompare store teamList))).

(** What a resolver result says about the team, the wording of an error set
    aside *)
Definition resolvedTeam (c : Completion ResolveResult) : Completion (bool * option Team) :=
  bind c (fun r => Return (valid r, team r)).

(** ** [enhanced_exporter.ts]: lookup by name and comparison of exports *)

Definition exactTeamMatch (searchLower : string) (t : Team) : bool :=
  String.eqb (JsString.toLowerCase (displayName t)) searchLower
  || String.eqb (JsString.toLowerCase (nickName t)) searchLower
  || String.eqb (JsString.toLowerCase (abbrName t)) searchLower.

Definition partialTeamMatch (searchLower : string) (t : Team) : bool :=
  JsString.includes (JsString.toLowerCase (displayName t)) searchLower
  || JsString.includes (JsString.toLowerCase (nickName t)) searchLower
  || JsString.includes (JsString.toLowerCase (cityName t)) searchLower.

(** [findTeamByName]: the team found, if any, and the registry afterwards *)
Definition findTeamByName (teams : list Team) (searchName : string)
    (store : MappingStore) : option Team * MappingStore :=
  let '(enhancedTeams, store') := enhanceTeamData teams store in
  let searchLower := JsString.toLowerCase searchName in
  match find (exactTeamMatch searchLower) enhancedTeams with
  | Some m => (Some m, store')
  | None => (find (partialTeamMatch searchLower) enhancedTeams, store')
  end.

Record TeamComparison := mkTeamComparison {
  relocated : list (Team * Team);
  unchanged : list Team;
  comparisonIssues : list string
}.

(** [new Map(teams.map(t => [t.teamId, t]))] *)
Definition teamMapOf (teams : list Team) : @JsMap.t N Team :=
  fold_left teamMapStep teams JsMap.empty.

(** A team id in a template literal *)
Definition idText (id : N) : string := JsString.ofNat (N.to_nat id).

Definition newTeamIssue (newTeam : Team) : string :=
  "New team found with ID " ++ idText (teamId newTeam) ++ ": " ++ displayName newTeam.

Definition missingTeamIssue (oldTeam : Team) : string :=
  "Team missing in new data: " ++ displayName oldTeam
  ++ " (ID: " ++ idText (teamId oldTeam) ++ ")".

(** The relocation test: one of the three names differs *)
Definition namesDiffer (oldTeam newTeam : Team) : bool :=
  negb (String.eqb (displayName oldTeam) (displayName newTeam))
  || negb (String.eqb (nickName oldTeam) (nickName newTeam))
  || negb (String.eqb (cityName oldTeam) (cityName newTeam)).

(** The callback of [newTeams.forEach] *)
Definition compareNewTeam (oldTeamMap : @JsMap.t N Team) (acc : TeamComparison)
    (newTeam : Team) : TeamComparison :=
  match JsMap.get N.eqb (teamId newTeam) oldTeamMap with
  | None =>
      mkTeamComparison (relocated acc) (unchanged acc)
        (comparisonIssues acc ++ [newTeamIssue newTeam])
  | Some oldTeam =>
      if namesDiffer oldTeam newTeam
      then mkTeamComparison (relocated acc ++ [(oldTeam, newTeam)]) (unchanged acc)
             (comparisonIssues acc)
      else mkTeamComparison (relocated acc) (unchanged acc ++ [newTeam])
             (comparisonIssues acc)
  end.

(** The callback of [oldTeams.forEach] *)
Definition checkOldTeam (newTeamMap : @JsMap.t N Team) (acc : TeamComparison)
    (oldTeam : Team) : TeamComparison :=
  if negb (JsMap.has N.eqb (teamId oldTeam) newTeamMap)
  then mkTeamComparison (relocated acc) (unchanged acc)
         (comparisonIssues acc ++ [missingTeamIssue oldTeam])
  else acc.

Definition compareTeamData (oldTeams newTeams : list Team) : TeamComparison :=
  let oldTeamMap := teamMapOf oldTeams in
  let newTeamMap := teamMapOf newTeams in
  let afterNew :=
    fold_left (compareNewTeam oldTeamMap) newTeams (mkTeamComparison [] [] []) in
  fold_left (checkOldTeam newTeamMap) oldTeams afterNew.

(** What one new team adds to each of the three lists of [compareTeamData] *)
Definition relocatedBy (oldTeamMap : @JsMap.t N Team) (newTeam : Team)
    : list (Team * Team) :=
  match JsMap.get N.eqb (teamId newTeam) oldTeamMap with
  | Some oldTeam => if namesDiffer oldTeam newTeam then [(oldTeam, newTeam)] else []
  | None => []
  end.

Definition unchangedBy (oldTeamMap : @JsMap.t N Team) (newTeam : Team) : list Team :=
  match JsMap.get N.eqb (teamId newTeam) oldTeamMap with
  | Some oldTeam => if namesDiffer oldTeam newTeam then [] else [newTeam]
  | None => []
  end.

Definition newIssueBy (oldTeamMap : @JsMap.t N Team) (newTeam : Team) : list string :=
  match JsMap.get N.eqb (teamId newTeam) oldTeamMap with
  | Some _ => []
  | None => [newTeamIssue newTeam]
  end.

(** What one old team adds to the issues *)
Definition missingIssueBy (newTeamMap : @JsMap.t N Team) (oldTeam : Team) : list string :=
  if negb (JsMap.has N.eqb (teamId oldTeam) newTeamMap)
  then [missingTeamIssue oldTeam] else [].

(** Two exports of a league in which team 1 changed its names *)
Definition oldExport : list Team :=
  [ rawTeam 1 "Bears" "Bears" "Chicago" "CHI" "NFC North" 1;
    rawTeam 2 "Bills" "Bills" "Buffalo" "BUF" "AFC East" 2 ].

Definition newExport : list Team :=
  [ rawTeam 1 "Dragons" "Dragons" "Dublin" "DUB" "NFC North" 1;
    rawTeam 2 "Bills" "Bills" "Buffalo" "BUF" "AFC East" 2 ].

(** ** [team_utils.ts], [enhanced_team_utils.ts]: names and emoji in messages *)

(** [getFormattedTeamName(team)], as every caller in these files calls it:
    without [includeRecord], so that the record is never appended. *)
Definition getFormattedTeamName (store : MappingStore) (team : Team) : string :=
  getTeamDisplayName store (teamId team) (displayName team).

(** A string literal of the source given by its UTF-8 bytes *)
Definition utf8 (bytes : list nat) : string :=
  string_of_list_ascii (map ascii_of_nat bytes).

(** The emoji literals of [getTeamEmoji], byte for byte as the file has them *)
Definition emojiDragon : string := utf8 [230; 184; 184; 235; 130; 188].
Definition emojiEagle : string := utf8 [230; 184; 184; 235; 182; 132].
Definition emojiTiger : string := utf8 [230; 184; 184; 235; 130; 184].
Definition emojiBull : string := utf8 [230; 184; 184; 235; 130; 181].
Definition emojiWolf : string := utf8 [230; 184; 184; 235; 131; 168].
Definition emojiKnight : string := utf8 [228; 184; 152; 235; 141; 162; 236; 158; 186].
Definition emojiWizard : string := utf8 [230; 184; 184; 235; 184; 191].
Definition emojiPioneer : string := utf8 [230; 184; 184].
Definition emojiShamrock : string := utf8 [230; 184; 184].
Definition emojiDefault : string := utf8 [230; 184; 184; 235; 129; 167].

(** The chain of tests of [getTeamEmoji] on the lower-cased name *)
Definition emojiOf (teamName : string) : string :=
  if JsString.includes teamName "dragon" then emojiDragon
  else if JsString.includes teamName "eagle" then emojiEagle
  else if JsString.includes teamName "tiger" then emojiTiger
  else if JsString.includes teamName "bull" then emojiBull
  else if JsString.includes teamName "wolf" || JsString.includes teamName "husky"
       then emojiWolf
  else if JsString.includes teamName "hawk" then emojiEagle
  else if JsString.includes teamName "knight" then emojiKnight
  else if JsString.includes teamName "wizard" then emojiWizard
  else if JsString.includes teamName "pioneer" then emojiPioneer
  else if JsString.includes teamName "shamrock" then emojiShamrock
  else emojiDefault.

Definition getTeamEmoji (store : MappingStore) (team : Team) : string :=
  emojiOf (JsString.toLowerCase (getFormattedTeamName store team)).

(** The catalog names whose team gets an emoji of its own *)
Definition emojiNames : list string :=
  [ "Black Knights"; "Bulls"; "Dragons"; "Golden Eagles"; "Night Hawks";
    "Pioneers"; "Shamrocks"; "Snowhawks"; "Tigers"; "Wizards" ].

(** ** [enhanced_game_channels.ts]: the scoreboard *)

Record Game := mkGame {
  scheduleId : Z;
  awayTeamId : N;
  homeTeamId : N;
  awayScore : Z;
  homeScore : Z
}.

Record Sim := mkSim {
  simLeagueId : option string;
  simScheduleId : Z;
  simResult : JsValue
}.

(** An integer in a template literal *)
Definition numText (z : Z) : string := NilZero.string_of_int (Z.to_int z).

(** [s.leagueId ? s.leagueId === leagueId : true] *)
Definition simOfLeague (leagueId : string) (s : Sim) : bool :=
  match simLeagueId s with
  | Some l => if JsString.truthy l then String.eqb l leagueId else true
  | None => true
  end.

(** [gameToSim] after the [forEach] over the filtered sims *)
Definition gameToSimOf (sims : list Sim) (leagueId : string) : @JsMap.t Z Sim :=
  fold_left (fun m sim => JsMap.set Z.eqb (simScheduleId sim) sim m)
    (filter (simOfLeague leagueId) sims) JsMap.empty.

(** [(g1, g2) => g1.scheduleId - g2.scheduleId], by the sign of the result *)
Definition compareSchedule (g1 g2 : Game) : comparison :=
  Z.compare (scheduleId g1) (scheduleId g2).

(** [a.map(f)] for a callback that may throw: the first throw ends the call *)
Fixpoint mapCompletion {A B : Type} (f : A -> Completion B) (l : list A)
    : Completion (list B) :=
  match l with
  | [] => Return []
  | x :: l' =>
      bind (f x) (fun y => bind (mapCompletion f l') (fun ys => Return (y :: ys)))
  end.

Definition bullet : string := utf8 [226; 128; 162].
Definition enDash : string := utf8 [226; 128; 147].

(** The [simMessage] of one game *)
Definition simMessageOf (gameToSim : @JsMap.t Z Sim) (game : Game) : Completion string :=
  match JsMap.get Z.eqb (scheduleId game) gameToSim with
  | Some sim =>
      bind (createSimMessage (simResult sim)) (fun m => Return (" (" ++ m ++ ")")%string)
  | None => Return ""
  end.

(** The line of one game, given its teams and sim message *)
Definition gameText (store : MappingStore) (game : Game) (awayTeam homeTeam : Team)
    (simMessage : string) : string :=
  let awayTeamName := getFormattedTeamName store awayTeam in
  let homeTeamName := getFormattedTeamName store homeTeam in
  let awayEmoji := getTeamEmoji store awayTeam in
  let homeEmoji := getTeamEmoji store homeTeam in
  if Z.eqb (awayScore game) 0 && Z.eqb (homeScore game) 0 then
    bullet ++ " " ++ awayEmoji ++ " " ++ awayTeamName ++ " vs " ++ homeEmoji ++ " "
    ++ homeTeamName ++ simMessage
  else if (homeScore game <? awayScore game)%Z then
    bullet ++ " **" ++ awayEmoji ++ " " ++ awayTeamName ++ " " ++ numText (awayScore game)
    ++ "** vs " ++ numText (homeScore game) ++ " " ++ homeEmoji ++ " " ++ homeTeamName
    ++ simMessage
  else if (awayScore game <? homeScore game)%Z then
    bullet ++ " " ++ awayEmoji ++ " " ++ awayTeamName ++ " " ++ numText (awayScore game)
    ++ " vs **" ++ numText (homeScore game) ++ " " ++ homeEmoji ++ " " ++ homeTeamName
    ++ "**" ++ simMessage
  else
    bullet ++ " " ++ awayEmoji ++ " " ++ awayTeamName ++ " " ++ numText (awayScore game)
    ++ " vs " ++ numText (homeScore game) ++ " " ++ homeEmoji ++ " " ++ homeTeamName
    ++ simMessage.

(** The callback of [games.map]: the sim message first, then the two teams *)
Definition gameLine (store : MappingStore) (teamList : EnhancedTeamList)
    (gameToSim : @JsMap.t Z Sim) (game : Game) : Completion string :=
  bind (simMessageOf gameToSim game) (fun simMessage =>
  bind (getEnhancedTeamForId teamList (awayTeamId game)) (fun awayTeam =>
  bind (getEnhancedTeamForId teamList (homeTeamId game)) (fun homeTeam =>
  Return (gameText store game awayTeam homeTeam simMessage)))).

Definition scoreboardHeader (week seasonIndex : Z) : string :=
  "## " ++ numText (seasonIndex + 2024) ++ " Season " ++ enDash ++ " Week "
  ++ numText week ++ " Scoreboard".

Definition newline : string := String (ascii_of_nat 10) EmptyString.

Definition formatEnhancedScoreboard (store : MappingStore) (week seasonIndex : Z)
    (games : list Game) (teamList : EnhancedTeamList) (sims : list Sim)
    (leagueId : string) : Completion string :=
  let gameToSim := gameToSimOf sims leagueId in
  bind (mapCompletion (gameLine store teamList gameToSim)
          (arraySort compareSchedule games))
    (fun lines =>
       Return (scoreboardHeader week seasonIndex ++ newline
               ++ JsString.join newline lines)%string).

(** Two teams, a game between them, and sims of that game *)
Definition scoreboardTeams : EnhancedTeamList :=
  fst (createEnhancedTeamList (sampleTeamList oldExport) emptyStore).

Definition gameOne : Game := mkGame 10 1 2 0 0.

Definition fairSim : Sim := mkSim None 10 (JsStr "FAIR_SIM").

Definition noneSim : Sim := mkSim None 10 (JsStr "NONE").

(** ** [enhanced_exporter.ts]: export, events and processing *)

(** An own property among [otherProps] *)
Definition propertyOf (key : string) (props : list (string * string)) : option string :=
  match find (fun p => String.eqb (fst p) key) props with
  | Some p => Some (snd p)
  | None => None
  end.

(** A [SnallabotEvent<Team>]: [key], [event_type], [platform] and the team's
    own properties, which the spread writes last and so over the three. *)
Record TeamEvent := mkTeamEvent {
  eventKey : string;
  event_type : string;
  platform : string;
  eventTeam : Team
}.

(** [{ name: value, ...team }] read at [name]: the spread comes last, so an own
    property [name] of the team replaces the value written before it. *)
Definition spreadOver (name : string) (value : string) (team : Team) : string :=
  match propertyOf name (otherProps team) with
  | Some own => own
  | None => value
  end.

(** [team.platform || "unknown"] *)
Definition platformOr (team : Team) : string :=
  match propertyOf "platform" (otherProps team) with
  | Some p => if JsString.truthy p then p else "unknown"
  | None => "unknown"
  end.

(** The object literal of [enhanceTeamEvents]: [key], [event_type] and
    [platform] are written first, then the spread of [team] writes every own
    property of the team, also one named [key], [event_type] or [platform]. *)
Definition teamEventOf (team : Team) : TeamEvent :=
  {| eventKey := spreadOver "key" (idText (teamId team)) team;
     event_type := spreadOver "event_type" "MADDEN_TEAM" team;
     platform := spreadOver "platform" (platformOr team) team;
     eventTeam := team |}.

Definition enhanceTeamEvents (teams : list Team) (store : MappingStore)
    : list TeamEvent * MappingStore :=
  let '(enhancedTeams, store') := enhanceTeamData teams store in
  (map teamEventOf enhancedTeams, store').

Definition enhanceTeamExport (teamExport : TeamExport) (store : MappingStore)
    : TeamExport * MappingStore :=
  if negb (success teamExport) then (teamExport, store)
  else
    match leagueTeamInfoList teamExport with
    | None => (teamExport, store)
    | Some teams =>
        let '(enhancedTeams, store') := enhanceTeamData teams store in
        (mkTeamExport (success teamExport) (Some enhancedTeams), store')
    end.

Definition validationFailure (validationIssues : list string) : string :=
  "Team export validation failed: " ++ JsString.join ", " validationIssues.

(** [processEnhancedTeamData], up to the events it hands to
    [MaddenDB.appendEvents]: the events or the error thrown, the registry
    afterwards, and what went to the console (each call with its text and the
    list logged with it). *)
Definition processEnhancedTeamData (leagueId : string) (teamExport : TeamExport)
    (store : MappingStore)
    : Completion (list TeamEvent) * MappingStore * list (string * list string) :=
  let '(validation, store1) := validateEnhancedTeamExport teamExport store in
  if negb (exportValid validation)
  then (Throw (validationFailure (issues validation)), store1,
        [(("Team export validation failed for league " ++ leagueId ++ ":")%string,
          issues validation)])
  else
    let console :=
      if (0 <? List.length (warnings validation))%nat
      then [(("Team export warnings for league " ++ leagueId ++ ":")%string,
             warnings validation)]
      else [] in
    let '(enhancedExport, store2) := enhanceTeamExport teamExport store1 in
    match leagueTeamInfoList enhancedExport with
    | Some enhancedList =>
        let '(teamEvents, store3) := enhanceTeamEvents enhancedList store2 in
        (Return teamEvents, store3, console)
    | None =>
        (Throw "Cannot read properties of undefined (reading 'forEach')", store2,
         console)
    end.

(** [team] with other own properties *)
Definition withProps (props : list (string * string)) (team : Team) : Team :=
  {| teamId := teamId team;
     displayName := displayName team;
     nickName := nickName team;
     cityName := cityName team;
     abbrName := abbrName team;
     divName := divName team;
     logoId := logoId team;
     teamName := teamName team;
     originalName := originalName team;
     divisionId := divisionId team;
     conferenceId := conferenceId team;
     originalDisplayName := originalDisplayName team;
     originalNickName := originalNickName team;
     isExpansionTeam_ := isExpansionTeam_ team;
     otherProps := props |}.

(** The healthy roster whose first team carries own properties [key] and
    [platform] *)
Definition keyedRoster : list Team :=
  match healthyRoster with
  | [] => []
  | t :: rest => withProps [("key", "first"); ("platform", "xbox")] t :: rest
  end.

(** The healthy roster with team 1 registered as the Dragons before the export *)
Definition dragonsInHealthyRoster : MappingStore :=
  registerExpansionTeam 1 "Dragons" "Team 1" 0 0 emptyStore.
(** * Properties *)

(** ** The sim classifier and the sim message *)

Lemma length_pos_iff {A : Type} (l : list A) : (0 <? List.length l)%nat = true <-> l <> [].
Proof.
  destruct l as [|x l]; simpl; split; intro H; try discriminate; try congruence.
  reflexivity.
Qed.

Lemma length_zero_iff {A : Type} (l : list A) : (List.length l =? 0)%nat = true <-> l = [].
Proof.
  destruct l as [|x l]; simpl; split; intro H; try discriminate; reflexivity.
Qed.

(** C1.  The classifier is a total function of the emptiness of its two
    arguments: each of the four results is returned exactly under its own
    combination (home only, away only, both, neither). *)
Theorem classify_by_emptiness (homeUsers awayUsers : list UserId) :
  (classify homeUsers awayUsers = FORCE_WIN_HOME <-> homeUsers <> [] /\ awayUsers = []) /\
  (classify homeUsers awayUsers = FORCE_WIN_AWAY <-> awayUsers <> [] /\ homeUsers = []) /\
  (classify homeUsers awayUsers = FAIR_SIM <-> homeUsers <> [] /\ awayUsers <> []) /\
  (classify homeUsers awayUsers = NONE <-> homeUsers = [] /\ awayUsers = []).
Proof.
  destruct homeUsers as [|h hs], awayUsers as [|a bs]; cbn;
    repeat split; intros; try discriminate; try congruence;
    repeat match goal with
           | H : _ /\ _ |- _ => destruct H
           end; congruence.
Qed.

(** The four rows of the specification's table, on the sample sets *)
Example classify_table :
  classify ["u1"] [] = FORCE_WIN_HOME /\ classify [] ["u2"] = FORCE_WIN_AWAY /\
  classify ["u1"] ["u2"] = FAIR_SIM /\ classify [] [] = NONE.
Proof. repeat split. Qed.

(** Swapping the two sets swaps the two forced wins. *)
Lemma classify_swap (homeUsers awayUsers : list UserId) :
  classify awayUsers homeUsers =
  match classify homeUsers awayUsers with
  | FORCE_WIN_HOME => FORCE_WIN_AWAY
  | FORCE_WIN_AWAY => FORCE_WIN_HOME
  | r => r
  end.
Proof. destruct homeUsers, awayUsers; reflexivity. Qed.

(** X3.  The two guards the guide quotes as "Before (Incorrect)" return
    exactly when the home set is not empty, and what they return is what the
    corrected guards return for the same sets: FORCE_WIN_HOME for home
    reactions only, FAIR_SIM for reactions on both sides.  On no pair of sets
    do the two snippets return different results. *)
Lemma classify_before_agrees (homeUsers awayUsers : list UserId) :
  match classify_before homeUsers awayUsers with
  | Some r =>
      homeUsers <> []
      /\ classify homeUsers awayUsers = r
      /\ (r = FORCE_WIN_HOME <-> awayUsers = [])
      /\ (r = FAIR_SIM <-> awayUsers <> [])
  | None => homeUsers = []
  end.
Proof.
  destruct homeUsers, awayUsers; cbn; try reflexivity;
    repeat split; try discriminate; try congruence; intros H; now elim H.
Qed.

Lemma strictEqStr_true (v : JsValue) (lit : string) :
  strictEqStr v lit = true <-> v = JsStr lit.
Proof.
  destruct v as [|s|z]; simpl; split; intro H; try discriminate.
  - apply String.eqb_eq in H. now subst.
  - injection H as ->. apply String.eqb_refl.
Qed.

(** C10.  [createSimMessage] returns a string exactly for FAIR_SIM,
    FORCE_WIN_AWAY and FORCE_WIN_HOME; it throws for every other value, and in
    particular for the classifier's NONE. *)
Theorem createSimMessage_returns_iff (result : JsValue) :
  ((exists s, createSimMessage result = Return s) <->
     result = JsStr "FAIR_SIM" \/ result = JsStr "FORCE_WIN_AWAY"
     \/ result = JsStr "FORCE_WIN_HOME") /\
  ((exists msg, createSimMessage result = Throw msg) <->
     ~ (result = JsStr "FAIR_SIM" \/ result = JsStr "FORCE_WIN_AWAY"
        \/ result = JsStr "FORCE_WIN_HOME")) /\
  createSimMessage (JsStr (simResultName NONE)) =
    Throw "Should not have gotten here! from createSimMessage".
Proof.
  unfold createSimMessage.
  destruct (strictEqStr result "FAIR_SIM") eqn:E1.
  { apply strictEqStr_true in E1.
    repeat split; eauto; try (intros [? ?]; discriminate); intros []; auto. }
  destruct (strictEqStr result "FORCE_WIN_AWAY") eqn:E2.
  { apply strictEqStr_true in E2.
    repeat split; eauto; try (intros [? ?]; discriminate); intros []; auto. }
  destruct (strictEqStr result "FORCE_WIN_HOME") eqn:E3.
  { apply strictEqStr_true in E3.
    repeat split; eauto; try (intros [? ?]; discriminate); intros []; auto. }
  assert (N1 : result <> JsStr "FAIR_SIM")
    by (intro H; apply strictEqStr_true in H; congruence).
  assert (N2 : result <> JsStr "FORCE_WIN_AWAY")
    by (intro H; apply strictEqStr_true in H; congruence).
  assert (N3 : result <> JsStr "FORCE_WIN_HOME")
    by (intro H; apply strictEqStr_true in H; congruence).
  repeat split; eauto.
  - intros [? ?]; discriminate.
  - intros [|[|]]; contradiction.
  - intros _ [|[|]]; contradiction.
Qed.

(** ** [Map] lemmas *)

Section JsMapFacts.
Context {K V : Type}.
Variable keyEqb : K -> K -> bool.
Hypothesis keyEqb_spec : forall a b, keyEqb a b = true <-> a = b.

Lemma keyEqb_refl (k : K) : keyEqb k k = true.
Proof. now apply keyEqb_spec. Qed.

Lemma get_set_same (k : K) (v : V) (m : JsMap.t) :
  JsMap.get keyEqb k (JsMap.set keyEqb k v m) = Some v.
Proof.
  induction m as [|[k' v'] m IH]; simpl.
  - now rewrite keyEqb_refl.
  - destruct (keyEqb k k') eqn:E; simpl.
    + now rewrite keyEqb_refl.
    + now rewrite E.
Qed.

Lemma get_set_other (k k' : K) (v : V) (m : JsMap.t) :
  k <> k' ->
  JsMap.get keyEqb k' (JsMap.set keyEqb k v m) = JsMap.get keyEqb k' m.
Proof.
  intros Hne. induction m as [|[k0 v0] m IH]; simpl.
  - destruct (keyEqb k' k) eqn:E; [ apply keyEqb_spec in E; congruence | reflexivity ].
  - destruct (keyEqb k k0) eqn:E; simpl.
    + apply keyEqb_spec in E. subst k0.
      destruct (keyEqb k' k) eqn:E'; [ apply keyEqb_spec in E'; congruence | reflexivity ].
    + now rewrite IH.
Qed.

Lemma has_set_same (k : K) (v : V) (m : JsMap.t) :
  JsMap.has keyEqb k (JsMap.set keyEqb k v m) = true.
Proof. unfold JsMap.has. now rewrite get_set_same. Qed.

Lemma get_In_keys (k : K) (m : @JsMap.t K V) :
  JsMap.has keyEqb k m = true <-> In k (JsMap.keys m).
Proof.
  unfold JsMap.has.
  induction m as [|[k' v'] m IH]; simpl.
  - split; [ discriminate | tauto ].
  - destruct (keyEqb k k') eqn:E.
    + apply keyEqb_spec in E. subst. split; auto.
    + rewrite IH. split; auto. intros [H|H]; auto.
      subst. rewrite keyEqb_refl in E. discriminate.
Qed.

Lemma keys_set (k : K) (v : V) (m : JsMap.t) :
  JsMap.keys (JsMap.set keyEqb k v m) =
  if JsMap.has keyEqb k m then JsMap.keys m else JsMap.keys m ++ [k].
Proof.
  unfold JsMap.has.
  induction m as [|[k' v'] m IH]; simpl; [ reflexivity | ].
  destruct (keyEqb k k') eqn:E; simpl.
  - apply keyEqb_spec in E. now subst.
  - rewrite IH. now destruct (JsMap.get keyEqb k m).
Qed.

Lemma keys_set_NoDup (k : K) (v : V) (m : JsMap.t) :
  NoDup (JsMap.keys m) -> NoDup (JsMap.keys (JsMap.set keyEqb k v m)).
Proof.
  intros Hnd. rewrite keys_set.
  destruct (JsMap.has keyEqb k m) eqn:E; [ assumption | ].
  apply NoDup_rev in Hnd.
  rewrite <- (rev_involutive (JsMap.keys m ++ [k])).
  apply NoDup_rev. rewrite rev_app_distr. simpl.
  constructor; [ | assumption ].
  rewrite <- in_rev. intro Hin. apply get_In_keys in Hin. congruence.
Qed.
End JsMapFacts.

Lemma N_eqb_spec' (a b : N) : N.eqb a b = true <-> a = b.
Proof. apply N.eqb_eq. Qed.

Lemma String_eqb_spec' (a b : string) : String.eqb a b = true <-> a = b.
Proof. apply String.eqb_eq. Qed.

(** ** The mapping registry: auto-detection *)


Lemma autoDetectOne_skip (store : MappingStore) (team : Team) :
  detectable team = false \/ isExpansionTeam store (teamId team) = true ->
  autoDetectOne store team = store.
Proof.
  unfold autoDetectOne, detectable.
  destruct (candidateName team) as [nm|]; [ | reflexivity ].
  destruct (JsString.truthy nm && isValidExpansionTeamName nm); [ | reflexivity ].
  intros [H|H]; [ discriminate | now rewrite H ].
Qed.

(** Registration never touches a mapping that is already there. *)
Lemma autoDetectOne_keeps (store : MappingStore) (team : Team) (id : N)
    (m : ExpansionTeamMapping) :
  getExpansionTeamMapping store id = Some m ->
  getExpansionTeamMapping (autoDetectOne store team) id = Some m.
Proof.
  intros Hget. unfold autoDetectOne.
  destruct (candidateName team) as [nm|]; [ | assumption ].
  destruct (JsString.truthy nm && isValidExpansionTeamName nm); [ | assumption ].
  destruct (isExpansionTeam store (teamId team)) eqn:E; simpl; [ assumption | ].
  unfold getExpansionTeamMapping, registerExpansionTeam.
  rewrite (get_set_other N.eqb N_eqb_spec'); [ assumption | ].
  intros Heq. rewrite Heq in E. unfold isExpansionTeam, JsMap.has in E.
  unfold getExpansionTeamMapping in Hget. rewrite Hget in E. discriminate.
Qed.

Lemma isExpansionTeam_Some (store : MappingStore) (id : N) :
  isExpansionTeam store id = true <-> exists m, getExpansionTeamMapping store id = Some m.
Proof.
  unfold isExpansionTeam, JsMap.has, getExpansionTeamMapping.
  destruct (JsMap.get N.eqb id store); split; eauto; try discriminate.
  intros [? ?]; discriminate.
Qed.

Lemma autoDetectOne_registered (store : MappingStore) (team : Team) :
  detectable team = true ->
  isExpansionTeam (autoDetectOne store team) (teamId team) = true.
Proof.
  unfold autoDetectOne, detectable.
  destruct (candidateName team) as [nm|]; [ | discriminate ].
  intros ->.
  destruct (isExpansionTeam store (teamId team)) eqn:E; simpl; [ assumption | ].
  apply (has_set_same N.eqb N_eqb_spec').
Qed.

Lemma autoDetect_keeps (teams : list Team) (store : MappingStore) (id : N)
    (m : ExpansionTeamMapping) :
  getExpansionTeamMapping store id = Some m ->
  getExpansionTeamMapping (autoDetectExpansionTeams teams store) id = Some m.
Proof.
  unfold autoDetectExpansionTeams. revert store.
  induction teams as [|t teams IH]; intros store H; simpl; [ assumption | ].
  apply IH. now apply autoDetectOne_keeps.
Qed.

Lemma autoDetect_registered (teams : list Team) (store : MappingStore) (t : Team) :
  In t teams -> detectable t = true ->
  isExpansionTeam (autoDetectExpansionTeams teams store) (teamId t) = true.
Proof.
  unfold autoDetectExpansionTeams. revert store.
  induction teams as [|t0 teams IH]; intros store Hin Hd; simpl; [ contradiction | ].
  destruct Hin as [->|Hin]; [ | now apply IH ].
  pose proof (autoDetectOne_registered store t Hd) as Hreg.
  apply isExpansionTeam_Some in Hreg. destruct Hreg as [m Hm].
  apply isExpansionTeam_Some. exists m.
  now apply (autoDetect_keeps teams).
Qed.

Lemma autoDetect_skip_all (teams : list Team) (store : MappingStore) :
  (forall t, In t teams -> detectable t = true ->
             isExpansionTeam store (teamId t) = true) ->
  autoDetectExpansionTeams teams store = store.
Proof.
  unfold autoDetectExpansionTeams.
  induction teams as [|t teams IH]; intros H; simpl; [ reflexivity | ].
  rewrite autoDetectOne_skip.
  - apply IH. intros t' Hin. apply H. now right.
  - destruct (detectable t) eqn:E; [ right | now left ].
    apply H; [ now left | assumption ].
Qed.

Lemma autoDetectOne_NoDup (store : MappingStore) (team : Team) :
  NoDup (JsMap.keys store) -> NoDup (JsMap.keys (autoDetectOne store team)).
Proof.
  intros H. unfold autoDetectOne.
  destruct (candidateName team) as [nm|]; [ | assumption ].
  destruct (JsString.truthy nm && isValidExpansionTeamName nm); [ | assumption ].
  destruct (isExpansionTeam store (teamId team)); simpl; [ assumption | ].
  now apply (keys_set_NoDup N.eqb N_eqb_spec').
Qed.

Lemma autoDetect_NoDup (teams : list Team) (store : MappingStore) :
  NoDup (JsMap.keys store) ->
  NoDup (JsMap.keys (autoDetectExpansionTeams teams store)).
Proof.
  unfold autoDetectExpansionTeams. revert store.
  induction teams as [|t teams IH]; intros store H; simpl; [ assumption | ].
  apply IH. now apply autoDetectOne_NoDup.
Qed.

(** C7.  Auto-detection is idempotent: a second run over the same teams
    leaves the registry exactly as the first run left it (entries and their
    order); the registry keeps one entry per team id; and an entry that was
    registered before the run is still there, unchanged. *)
Theorem autoDetect_idempotent (teams : list Team) (store : MappingStore) :
  autoDetectExpansionTeams teams (autoDetectExpansionTeams teams store)
    = autoDetectExpansionTeams teams store
  /\ (NoDup (JsMap.keys store) ->
      NoDup (JsMap.keys (autoDetectExpansionTeams teams store)))
  /\ (forall id m, getExpansionTeamMapping store id = Some m ->
        getExpansionTeamMapping (autoDetectExpansionTeams teams store) id = Some m).
Proof.
  split; [ | split ].
  - apply autoDetect_skip_all. intros t Hin Hd. now apply autoDetect_registered.
  - apply autoDetect_NoDup.
  - intros id m. apply autoDetect_keeps.
Qed.


Lemma autoDetect_idempotent_witness :
  NoDup (JsMap.keys stickyStore)
  /\ JsMap.keys (autoDetectExpansionTeams detectTeams stickyStore) = [9%N; 7%N]
  /\ NoDup (JsMap.keys (autoDetectExpansionTeams detectTeams stickyStore))
  /\ autoDetectExpansionTeams detectTeams
       (autoDetectExpansionTeams detectTeams stickyStore)
     = autoDetectExpansionTeams detectTeams stickyStore.
Proof.
  assert (Hnd : NoDup (JsMap.keys stickyStore)).
  { cbn. constructor; [ intros [] | constructor ]. }
  destruct (autoDetect_idempotent detectTeams stickyStore) as [Hidem [Hkeys _]].
  split; [ exact Hnd | ].
  split; [ reflexivity | ].
  split; [ exact (Hkeys Hnd) | exact Hidem ].
Defined.

(** ** Division integrity *)

Section JsMapEntries.
Context {K V : Type}.
Variable keyEqb : K -> K -> bool.
Hypothesis keyEqb_spec : forall a b, keyEqb a b = true <-> a = b.

Lemma get_In (k : K) (v : V) (m : JsMap.t) :
  JsMap.get keyEqb k m = Some v -> In (k, v) m.
Proof.
  induction m as [|[k' v'] m IH]; simpl; [ discriminate | ].
  destruct (keyEqb k k') eqn:E.
  - apply keyEqb_spec in E. subst. intros [= ->]. now left.
  - intros H. right. now apply IH.
Qed.

Lemma In_get (k : K) (v : V) (m : JsMap.t) :
  NoDup (JsMap.keys m) -> In (k, v) m -> JsMap.get keyEqb k m = Some v.
Proof.
  induction m as [|[k' v'] m IH]; simpl; [ contradiction | ].
  intros Hnd Hin. inversion Hnd as [|? ? Hnotin Hnd']; subst.
  destruct Hin as [[= -> ->]|Hin].
  - now rewrite (keyEqb_refl keyEqb keyEqb_spec).
  - destruct (keyEqb k k') eqn:E.
    + apply keyEqb_spec in E. subst k'. exfalso. apply Hnotin.
      change k with (fst (k, v)). now apply in_map.
    + now apply IH.
Qed.
End JsMapEntries.

Lemma divisionSize_cons (d : string) (t : Team) (teams : list Team) :
  divisionSize d (t :: teams) =
  if String.eqb (divName t) d then S (divisionSize d teams) else divisionSize d teams.
Proof. unfold divisionSize. simpl. now destruct (String.eqb (divName t) d). Qed.

Lemma countDivisions_get_from (teams : list Team) (counts : @JsMap.t string nat)
    (d : string) :
  JsMap.get String.eqb d (fold_left countStep teams counts) =
  if Nat.eqb (divisionSize d teams) 0 then JsMap.get String.eqb d counts
  else Some (divisionSize d teams + countOf (JsMap.get String.eqb d counts)).
Proof.
  revert counts.
  induction teams as [|t teams IH]; intros counts; simpl; [ reflexivity | ].
  rewrite IH, divisionSize_cons. unfold countStep.
  destruct (String.eqb (divName t) d) eqn:E.
  - apply String.eqb_eq in E. subst d.
    rewrite (get_set_same String.eqb String_eqb_spec'). simpl.
    destruct (Nat.eqb (divisionSize (divName t) teams) 0) eqn:Z.
    + apply Nat.eqb_eq in Z. rewrite Z.
      unfold bumpCount, countOf.
      destruct (JsMap.get String.eqb (divName t) counts); f_equal; lia.
    + unfold bumpCount, countOf.
      destruct (JsMap.get String.eqb (divName t) counts); f_equal; lia.
  - apply String.eqb_neq in E.
    now rewrite (get_set_other String.eqb String_eqb_spec') by assumption.
Qed.

Lemma countDivisions_get (teams : list Team) (d : string) :
  JsMap.get String.eqb d (countDivisions teams) =
  if Nat.eqb (divisionSize d teams) 0 then None else Some (divisionSize d teams).
Proof.
  unfold countDivisions. rewrite countDivisions_get_from. simpl.
  destruct (Nat.eqb (divisionSize d teams) 0); [ reflexivity | f_equal; lia ].
Qed.

Lemma countDivisions_NoDup (teams : list Team) :
  NoDup (JsMap.keys (countDivisions teams)).
Proof.
  unfold countDivisions.
  assert (H : forall counts : @JsMap.t string nat,
             NoDup (JsMap.keys counts) ->
             NoDup (JsMap.keys (fold_left countStep teams counts))).
  { induction teams as [|t teams IH]; intros counts Hnd; simpl; [ assumption | ].
    apply IH. unfold countStep.
    now apply (keys_set_NoDup String.eqb String_eqb_spec'). }
  apply H. constructor.
Qed.

Lemma divisionSize_pos_iff (d : string) (teams : list Team) :
  divisionSize d teams <> 0 <-> In d (map divName teams).
Proof.
  induction teams as [|t teams IH]; simpl.
  - unfold divisionSize. simpl. split; [ congruence | tauto ].
  - rewrite divisionSize_cons.
    destruct (String.eqb (divName t) d) eqn:E.
    + apply String.eqb_eq in E. split; auto.
    + apply String.eqb_neq in E. rewrite IH. split; auto.
      intros [H|H]; [ contradiction | assumption ].
Qed.

(** The entries of [divisionCounts] are the divisions present, each with the
    number of its teams. *)
Lemma countDivisions_entries (teams : list Team) (d : string) (c : nat) :
  In (d, c) (countDivisions teams) <->
  In d (map divName teams) /\ c = divisionSize d teams.
Proof.
  split.
  - intros Hin.
    apply (In_get String.eqb String_eqb_spec' _ _ _ (countDivisions_NoDup teams)) in Hin.
    rewrite countDivisions_get in Hin.
    destruct (Nat.eqb (divisionSize d teams) 0) eqn:Z; [ discriminate | ].
    apply Nat.eqb_neq in Z. injection Hin as <-.
    split; [ now apply divisionSize_pos_iff | reflexivity ].
  - intros [Hin ->].
    apply (get_In String.eqb String_eqb_spec').
    rewrite countDivisions_get.
    apply divisionSize_pos_iff in Hin. apply Nat.eqb_neq in Hin.
    now rewrite Hin.
Qed.

Lemma divisionLoop_falls_through (entries : list (string * nat)) :
  snd (divisionLoop entries) = None <-> (forall d c, In (d, c) entries -> c = 4).
Proof.
  induction entries as [|[d c] entries IH]; simpl.
  - split; [ intros _ ? ? [] | reflexivity ].
  - destruct (Nat.eqb c 4) eqn:E; simpl.
    + apply Nat.eqb_eq in E. subst c. rewrite IH. split.
      * intros H d' c' [[= <- <-]|Hin]; [ reflexivity | now apply (H d') ].
      * intros H d' c' Hin. apply (H d'). now right.
    + apply Nat.eqb_neq in E. split; [ discriminate | ].
      intros H. exfalso. apply E. apply (H d). now left.
Qed.

Lemma divisionLoop_returns_false (entries : list (string * nat)) (b : bool) :
  snd (divisionLoop entries) = Some b -> b = false.
Proof.
  induction entries as [|[d c] entries IH]; simpl; [ discriminate | ].
  destruct (Nat.eqb c 4); simpl; [ assumption | congruence ].
Qed.

(** The loop warns at most once: it returns at the first division it reports. *)
Lemma divisionLoop_warns_once (entries : list (string * nat)) :
  List.length (fst (divisionLoop entries)) <= 1.
Proof.
  induction entries as [|[d c] entries IH]; simpl; [ lia | ].
  destruct (Nat.eqb c 4); simpl; [ assumption | lia ].
Qed.

Lemma validateDivisionIntegrity_warns_once (teams : list Team) :
  List.length (snd (validateDivisionIntegrity teams)) <= 1.
Proof.
  unfold validateDivisionIntegrity.
  pose proof (divisionLoop_warns_once (countDivisions teams)) as H.
  destruct (divisionLoop (countDivisions teams)) as [out [b|]]; exact H.
Qed.

Lemma validateDivisionIntegrity_iff (teams : list Team) :
  fst (validateDivisionIntegrity teams) = true <->
  (forall d, In d (map divName teams) -> divisionSize d teams = 4)
  /\ List.length teams = 32.
Proof.
  unfold validateDivisionIntegrity.
  pose proof (divisionLoop_falls_through (countDivisions teams)) as Hfall.
  pose proof (divisionLoop_returns_false (countDivisions teams)) as Hfalse.
  destruct (divisionLoop (countDivisions teams)) as [out [b|]]; simpl in *.
  - rewrite (Hfalse b eq_refl). split; [ discriminate | ].
    intros [Hall _]. exfalso.
    assert (Hnone : @Some bool b = None); [ | discriminate ].
    apply Hfall. intros d c Hin.
    apply countDivisions_entries in Hin. destruct Hin as [Hin ->]. now apply Hall.
  - rewrite Nat.eqb_eq. split.
    + intros Hlen. split; [ | assumption ].
      intros d Hin.
      apply ((proj1 Hfall) eq_refl d). apply countDivisions_entries. now split.
    + tauto.
Qed.

(** C6.  The validator returns [true] exactly when every division present
    has four teams and there are 32 teams; a roster of 32 teams spread over
    eight divisions, four to each, validates. *)
Theorem validateDivisionIntegrity_correct (teams : list Team) :
  (fst (validateDivisionIntegrity teams) = true <->
     (forall d, In d (map divName teams) -> divisionSize d teams = 4)
     /\ List.length teams = 32)
  /\ (forall divisions : list string,
        NoDup divisions -> List.length divisions = 8 ->
        (forall t, In t teams -> In (divName t) divisions) ->
        (forall d, In d divisions -> divisionSize d teams = 4) ->
        List.length teams = 32 ->
        fst (validateDivisionIntegrity teams) = true).
Proof.
  split; [ apply validateDivisionIntegrity_iff | ].
  intros divisions _ _ Hdiv Hfour Hlen.
  apply validateDivisionIntegrity_iff. split; [ | assumption ].
  intros d Hin. apply Hfour.
  apply in_map_iff in Hin. destruct Hin as [t [<- Ht]]. now apply Hdiv.
Qed.

Lemma healthyRoster_divisions (t : Team) :
  In t healthyRoster -> In (divName t) divisionNames.
Proof.
  assert (H : forallb (fun t => existsb (String.eqb (divName t)) divisionNames)
                healthyRoster = true) by reflexivity.
  intros Hin.
  apply (proj1 (forallb_forall _ _) H) in Hin.
  apply existsb_exists in Hin. destruct Hin as [d [Hd E]].
  apply String.eqb_eq in E. now rewrite E.
Defined.

Lemma divisionNames_NoDup : NoDup divisionNames.
Proof.
  unfold divisionNames.
  repeat (constructor; [ simpl; intuition discriminate | ]).
  constructor.
Defined.

Lemma validateDivisionIntegrity_correct_witness :
  List.length healthyRoster = 32
  /\ fst (validateDivisionIntegrity healthyRoster) = true.
Proof.
  split; [ reflexivity | ].
  apply (proj2 (validateDivisionIntegrity_correct healthyRoster) divisionNames).
  - exact divisionNames_NoDup.
  - reflexivity.
  - exact healthyRoster_divisions.
  - intros d Hd. unfold divisionNames in Hd. simpl in Hd.
    repeat (destruct Hd as [<-|Hd]; [ reflexivity | ]). contradiction.
  - reflexivity.
Defined.

(** C3.  On the healthy roster with team 1 moved from AFC East to NFC West,
    two divisions miss the count of four (AFC East has 3, NFC West has 5), and
    the validator writes a single line, for NFC West: it returns from inside
    the loop at the first division it reports. *)
Theorem validateDivisionIntegrity_moved_team :
  validateDivisionIntegrity healthyRoster = (true, [])
  /\ divisionSize "AFC East" movedRoster = 3
  /\ divisionSize "NFC West" movedRoster = 5
  /\ validateDivisionIntegrity movedRoster =
       (false, ["Division NFC West has 5 teams instead of 4"]).
Proof. vm_compute. repeat split. Qed.

(** ** [Array.prototype.sort] with a comparator consistent on the array *)

Section ArraySortFacts.
Context {A : Type}.
Variable compareFn : A -> A -> comparison.
Variable dom : A -> Prop.
Hypothesis compareFn_total :
  forall a b, dom a -> dom b -> compareFn a b = Gt -> compareFn b a <> Gt.
Hypothesis compareFn_trans :
  forall a b c, dom a -> dom b -> dom c ->
    compareFn a b <> Gt -> compareFn b c <> Gt -> compareFn a c <> Gt.

Lemma sortInsert_perm (x : A) (l : list A) :
  Permutation (x :: l) (sortInsert compareFn x l).
Proof.
  induction l as [|y l IH]; simpl; [ apply Permutation_refl | ].
  destruct (compareFn x y); try apply Permutation_refl.
  eapply perm_trans; [ apply perm_swap | ]. now apply perm_skip.
Qed.

Lemma arraySort_perm (l : list A) : Permutation l (arraySort compareFn l).
Proof.
  induction l as [|x l IH]; simpl; [ constructor | ].
  eapply perm_trans; [ apply perm_skip, IH | apply sortInsert_perm ].
Qed.

Lemma sortInsert_sorted (x : A) (l : list A) :
  dom x -> Forall dom l ->
  StronglySorted (notAfter compareFn) l ->
  StronglySorted (notAfter compareFn) (sortInsert compareFn x l).
Proof.
  intros Hx.
  induction l as [|y l IH]; intros Hdom Hs; simpl.
  - repeat constructor.
  - inversion Hs as [|? ? Hs' Hall]; subst.
    inversion Hdom as [|? ? Hy Hdom']; subst.
    assert (Hle : notAfter compareFn x y -> Forall (notAfter compareFn x) (y :: l)).
    { intros Hxy. constructor; [ assumption | ].
      rewrite Forall_forall in *. intros z Hz.
      exact (compareFn_trans x y z Hx Hy (Hdom' z Hz) Hxy (Hall z Hz)). }
    destruct (compareFn x y) eqn:E.
    + constructor; [ assumption | ].
      apply Hle. unfold notAfter. congruence.
    + constructor; [ assumption | ].
      apply Hle. unfold notAfter. congruence.
    + constructor; [ now apply IH | ].
      apply (Permutation_Forall (sortInsert_perm x l)).
      constructor; [ now apply compareFn_total | assumption ].
Qed.

Lemma arraySort_sorted (l : list A) :
  Forall dom l -> StronglySorted (notAfter compareFn) (arraySort compareFn l).
Proof.
  induction l as [|x l IH]; intros Hdom; simpl; [ constructor | ].
  inversion Hdom as [|? ? Hx Hdom']; subst.
  apply sortInsert_sorted; [ assumption | | now apply IH ].
  apply (Permutation_Forall (arraySort_perm l)). assumption.
Qed.
End ArraySortFacts.

Lemma StronglySorted_restrict {A : Type} (R R' : A -> A -> Prop) (l : list A) :
  (forall a b, In a l -> In b l -> R a b -> R' a b) ->
  StronglySorted R l -> StronglySorted R' l.
Proof.
  induction l as [|x l IH]; intros Himp Hs; [ constructor | ].
  inversion Hs as [|? ? Hs' Hall]; subst.
  constructor.
  - apply IH; [ | assumption ].
    intros a b Ha Hb. apply Himp; now right.
  - rewrite Forall_forall in *. intros y Hy.
    apply Himp; [ now left | now right | now apply Hall ].
Qed.

(** ** The division-display sort

    [localeCompare] is taken as a total preorder: the sign of [b] against [a]
    is the opposite of the sign of [a] against [b], and "not after" is
    transitive.  Different strings may compare as equal.  The comparator of
    the sort looks at display names only when the two division names are the
    same string, so it is consistent on an array whose different division
    names do not compare as equal ([divisionNamesApart]). *)

Section DisplaySort.
Variable localeCompare : string -> string -> comparison.
Hypothesis localeCompare_antisym :
  forall a b, localeCompare a b = CompOpp (localeCompare b a).
Hypothesis localeCompare_trans :
  forall a b c, localeCompare a b <> Gt -> localeCompare b c <> Gt ->
                localeCompare a c <> Gt.
Variable teams : list Team.
Hypothesis teams_apart : divisionNamesApart localeCompare teams.

Lemma localeCompare_total (a b : string) :
  localeCompare a b = Gt -> localeCompare b a <> Gt.
Proof. intros H. rewrite localeCompare_antisym, H. discriminate. Qed.

Lemma localeCompare_tie (a b : string) :
  localeCompare a b <> Gt -> localeCompare b a <> Gt -> localeCompare a b = Eq.
Proof.
  intros Hab Hba. rewrite localeCompare_antisym in Hba.
  destruct (localeCompare a b); simpl in *; congruence.
Qed.

Lemma divisionDisplayCompare_total (store : MappingStore) (a b : Team) :
  divisionDisplayCompare localeCompare store a b = Gt ->
  divisionDisplayCompare localeCompare store b a <> Gt.
Proof.
  unfold divisionDisplayCompare. rewrite (String.eqb_sym (divName b)).
  destruct (String.eqb (divName a) (divName b)); simpl;
    apply localeCompare_total.
Qed.

Lemma divisionDisplayCompare_trans (store : MappingStore) (a b c : Team) :
  In a teams -> In b teams -> In c teams ->
  divisionDisplayCompare localeCompare store a b <> Gt ->
  divisionDisplayCompare localeCompare store b c <> Gt ->
  divisionDisplayCompare localeCompare store a c <> Gt.
Proof.
  intros Ha Hb Hc. unfold divisionDisplayCompare.
  destruct (String.eqb (divName a) (divName b)) eqn:Eab;
    destruct (String.eqb (divName b) (divName c)) eqn:Ebc; simpl.
  - apply String.eqb_eq in Eab, Ebc.
    assert (Eac : String.eqb (divName a) (divName c) = true)
      by (apply String.eqb_eq; congruence).
    rewrite Eac. simpl. apply localeCompare_trans.
  - apply String.eqb_eq in Eab. rewrite Eab, Ebc. simpl. auto.
  - apply String.eqb_eq in Ebc. rewrite <- Ebc, Eab. simpl. auto.
  - intros Hab Hbc.
    destruct (String.eqb (divName a) (divName c)) eqn:Eac; simpl.
    + exfalso. apply String.eqb_eq in Eac. apply String.eqb_neq in Eab.
      apply Eab. apply (teams_apart a b Ha Hb).
      apply localeCompare_tie; [ assumption | ]. now rewrite Eac.
    + now apply (localeCompare_trans _ (divName b)).
Qed.

Lemma divisionDisplayCompare_order (store : MappingStore) (a b : Team) :
  In a teams -> In b teams ->
  divisionDisplayCompare localeCompare store a b <> Gt ->
  divisionNameOrder localeCompare store a b.
Proof.
  intros Ha Hb. unfold divisionDisplayCompare, divisionNameOrder.
  destruct (String.eqb (divName a) (divName b)) eqn:E; simpl.
  - apply String.eqb_eq in E. intros H. right. now split.
  - apply String.eqb_neq in E. intros H. left.
    destruct (localeCompare (divName a) (divName b)) eqn:C;
      [ apply (teams_apart a b Ha Hb) in C; contradiction | reflexivity | congruence ].
Qed.

Lemma sortTeamsForDivisionDisplay_notAfter (store : MappingStore) :
  StronglySorted (notAfter (divisionDisplayCompare localeCompare store))
    (sortTeamsForDivisionDisplay localeCompare store teams).
Proof.
  unfold sortTeamsForDivisionDisplay.
  apply (arraySort_sorted _ (fun t => In t teams)).
  - intros a b _ _. apply divisionDisplayCompare_total.
  - intros a b c. apply divisionDisplayCompare_trans.
  - apply Forall_forall. auto.
Qed.

(** Whatever the registry holds when the accessor runs, the array it
    returns is a rearrangement of [teams], ordered by division name and then
    by [getTeamDisplayName]. *)
Lemma sortTeamsForDivisionDisplay_sorted (store : MappingStore) :
  Permutation teams (sortTeamsForDivisionDisplay localeCompare store teams)
  /\ StronglySorted (divisionNameOrder localeCompare store)
       (sortTeamsForDivisionDisplay localeCompare store teams).
Proof.
  assert (Hperm : Permutation teams (sortTeamsForDivisionDisplay localeCompare store teams))
    by (unfold sortTeamsForDivisionDisplay; apply arraySort_perm).
  split; [ exact Hperm | ].
  eapply StronglySorted_restrict; [ | apply sortTeamsForDivisionDisplay_notAfter ].
  intros a b Ha Hb.
  apply divisionDisplayCompare_order;
    eapply Permutation_in; try (apply Permutation_sym; exact Hperm); assumption.
Qed.
End DisplaySort.

(** An enriched record shows the name the registry gives its team, as long as
    the registry still holds for the team what it held at enrichment. *)
Lemma enhanceOne_displayName (created store : MappingStore) (t : Team) :
  getExpansionTeamMapping store (teamId t) = getExpansionTeamMapping created (teamId t) ->
  getTeamDisplayName store (teamId (enhanceOne created t))
    (displayName (enhanceOne created t))
  = displayName (enhanceOne created t).
Proof.
  intros Hsame. unfold enhanceOne, getTeamDisplayName.
  destruct (getExpansionTeamMapping created (teamId t)) as [m|] eqn:E; simpl;
    unfold getTeamDisplayName; rewrite Hsame; now rewrite ?E.
Qed.

Lemma createEnhancedTeamList_spec (original : TeamList) (store0 : MappingStore) :
  createEnhancedTeamList original store0 =
  (mkEnhancedTeamList original
     (fst (enhanceTeamData (getLatestTeams original) store0))
     (fold_left teamMapStep
        (fst (enhanceTeamData (getLatestTeams original) store0)) JsMap.empty),
   snd (enhanceTeamData (getLatestTeams original) store0)).
Proof. reflexivity. Qed.

(** C4 (as amended).  [localeCompare] is a total preorder, and no two
    different division names of the roster compare as equal.  Then, whatever
    the registry holds when the display accessor of an enhanced team list is
    called, the accessor returns the enriched teams, all of them, ordered by
    division name ([divName], under [localeCompare]) and, within a division, by
    the display name the registry gives the team at the call; as long as the
    registry holds for the roster's teams what it held when the list was
    created, that name is the overlaid display name of the record.  The array
    returned is the list's own array. *)
Theorem getEnhancedLatestTeams_sorted
    (localeCompare : string -> string -> comparison)
    (localeCompare_antisym :
       forall a b, localeCompare a b = CompOpp (localeCompare b a))
    (localeCompare_trans :
       forall a b c, localeCompare a b <> Gt -> localeCompare b c <> Gt ->
                     localeCompare a c <> Gt)
    (original : TeamList) (store0 store : MappingStore) :
  let teamList := fst (createEnhancedTeamList original store0) in
  let created := snd (createEnhancedTeamList original store0) in
  let shown := fst (getEnhancedLatestTeams localeCompare store teamList) in
  divisionNamesApart localeCompare (enhancedTeams teamList) ->
  Permutation (fst (enhanceTeamData (getLatestTeams original) store0)) shown
  /\ StronglySorted (divisionNameOrder localeCompare store) shown
  /\ ((forall t, In t (getLatestTeams original) ->
         getExpansionTeamMapping store (teamId t)
         = getExpansionTeamMapping created (teamId t)) ->
      StronglySorted (divisionDisplayOrder localeCompare) shown)
  /\ enhancedTeams (snd (getEnhancedLatestTeams localeCompare store teamList)) = shown.
Proof.
  rewrite createEnhancedTeamList_spec. cbn zeta. simpl fst. simpl snd.
  set (created := autoDetectExpansionTeams (getLatestTeams original) store0).
  set (enhanced := map (enhanceOne created) (getLatestTeams original)).
  intros Hapart.
  destruct (sortTeamsForDivisionDisplay_sorted localeCompare localeCompare_antisym
              localeCompare_trans enhanced Hapart store) as [Hperm Hsorted].
  split; [ exact Hperm | ]. split; [ exact Hsorted | ].
  split; [ | reflexivity ].
  intros Hsame.
  eapply StronglySorted_restrict; [ | exact Hsorted ].
  intros a b Ha Hb.
  assert (Hname : forall t,
             In t (sortTeamsForDivisionDisplay localeCompare store enhanced) ->
             getTeamDisplayName store (teamId t) (displayName t) = displayName t).
  { intros t Ht. apply (Permutation_in _ (Permutation_sym Hperm)) in Ht.
    unfold enhanced in Ht. apply in_map_iff in Ht. destruct Ht as [r [<- Hr]].
    apply enhanceOne_displayName. now apply Hsame. }
  unfold divisionNameOrder, divisionDisplayOrder.
  now rewrite (Hname a Ha), (Hname b Hb).
Qed.

(** *** Code-unit comparison is a consistent comparator *)

Lemma codeUnitCompare_antisym (a b : string) :
  codeUnitCompare a b = CompOpp (codeUnitCompare b a).
Proof. apply String.compare_antisym. Defined.

Lemma codeUnitCompare_eq (a b : string) : codeUnitCompare a b = Eq -> a = b.
Proof. apply String.compare_eq_iff. Defined.

Lemma codeUnitCompare_apart (teams : list Team) :
  divisionNamesApart codeUnitCompare teams.
Proof. intros a b _ _. apply codeUnitCompare_eq. Defined.

Lemma ascii_compare_cases (x y z : ascii) :
  Ascii.compare x y <> Gt -> Ascii.compare y z <> Gt ->
  (Ascii.compare x z = Lt
   \/ (Ascii.compare x z = Eq /\ Ascii.compare x y = Eq /\ Ascii.compare y z = Eq)).
Proof.
  unfold Ascii.compare.
  set (a := N_of_ascii x). set (b := N_of_ascii y). set (c := N_of_ascii z).
  intros Hab Hbc.
  destruct (N.compare_spec a b) as [Eab|Lab|Gab]; [ | | congruence ];
    destruct (N.compare_spec b c) as [Ebc|Lbc|Gbc]; try congruence;
    destruct (N.compare_spec a c) as [Eac|Lac|Gac]; auto; lia.
Defined.

Lemma codeUnitCompare_trans (a b c : string) :
  codeUnitCompare a b <> Gt -> codeUnitCompare b c <> Gt ->
  codeUnitCompare a c <> Gt.
Proof.
  unfold codeUnitCompare. revert b c.
  induction a as [|x a IH]; intros [|y b] [|z c]; simpl; try congruence.
  intros Hab Hbc.
  assert (Hxy : Ascii.compare x y <> Gt)
    by (destruct (Ascii.compare x y); congruence).
  assert (Hyz : Ascii.compare y z <> Gt)
    by (destruct (Ascii.compare y z); congruence).
  destruct (ascii_compare_cases x y z Hxy Hyz) as [Hlt|[Heq [Exy Eyz]]].
  - rewrite Hlt. discriminate.
  - rewrite Heq. rewrite Exy in Hab. rewrite Eyz in Hbc. now apply (IH b c).
Defined.

Lemma getEnhancedLatestTeams_sorted_witness :
  let teamList := fst (createEnhancedTeamList (sampleTeamList detectTeams) stickyStore) in
  let store := snd (createEnhancedTeamList (sampleTeamList detectTeams) stickyStore) in
  let shown := fst (getEnhancedLatestTeams codeUnitCompare store teamList) in
  divisionNamesApart codeUnitCompare (enhancedTeams teamList)
  /\ map displayName shown = ["Dragons"; "Dragons"; "Tigers"]
  /\ StronglySorted (divisionNameOrder codeUnitCompare store) shown
  /\ StronglySorted (divisionDisplayOrder codeUnitCompare) shown.
Proof.
  pose proof (getEnhancedLatestTeams_sorted codeUnitCompare
                codeUnitCompare_antisym codeUnitCompare_trans
                (sampleTeamList detectTeams) stickyStore
                (snd (createEnhancedTeamList (sampleTeamList detectTeams) stickyStore))
                (codeUnitCompare_apart _)) as [_ [Hsorted [Hshown _]]].
  split; [ apply codeUnitCompare_apart | ].
  split; [ reflexivity | ].
  split; [ exact Hsorted | ].
  apply Hshown. reflexivity.
Defined.

(** Why the division names have to be apart: under a comparator for which a
    control character does not count, the comparator of the sort is not
    transitive on [tiedRoster].  The Zebras and the Apes each tie with the
    Mules, whose division name is another string, yet the Zebras come after
    the Apes. *)
Example divisionDisplayCompare_tied_divisions :
  match tiedRoster with
  | [zebras; mules; apes] =>
      divisionDisplayCompare ignorableCompare emptyStore zebras mules = Eq
      /\ divisionDisplayCompare ignorableCompare emptyStore mules apes = Eq
      /\ divisionDisplayCompare ignorableCompare emptyStore zebras apes = Gt
  | _ => False
  end.
Proof. vm_compute. repeat split. Qed.

(** C4 (as stated).  The accessor does not order by [divisionId]: on
    [crossRoster] it returns the AFC East team, whose [divisionId] is 2, before
    the NFC West team, whose [divisionId] is 1. *)
Lemma getEnhancedLatestTeams_not_by_divisionId :
  let teamList := fst (createEnhancedTeamList (sampleTeamList crossRoster) emptyStore) in
  let store := snd (createEnhancedTeamList (sampleTeamList crossRoster) emptyStore) in
  let shown := fst (getEnhancedLatestTeams codeUnitCompare store teamList) in
  map (fun t => (divName t, divisionId t)) shown
    = [("AFC East", Some 2%Z); ("NFC West", Some 1%Z)]
  /\ ~ StronglySorted (divisionIdOrder codeUnitCompare) shown.
Proof.
  split; [ reflexivity | ].
  intros Hs. cbv zeta in Hs.
  inversion Hs as [|? ? _ Hall]; subst.
  inversion Hall as [|? ? Hord _]; subst.
  destruct Hord as [Hlt|[Heq _]].
  - vm_compute in Hlt. discriminate.
  - vm_compute in Heq. discriminate.
Qed.

(** ** The resolver *)

Lemma JsObject_set_In {V : Type} (k k0 : N) (v v0 : V) (o : JsObject.t V) :
  In (k, v) (JsObject.set k0 v0 o) -> (k, v) = (k0, v0) \/ In (k, v) o.
Proof.
  induction o as [|[k' v'] o IH]; simpl.
  - intros [H|[]]. now left.
  - destruct (N.eqb k0 k').
    + intros [H|H]; [ now left | right; now right ].
    + destruct (JsObject.isArrayIndex k0
                && (negb (JsObject.isArrayIndex k') || (k0 <? k')%N)).
      * intros [H|H]; [ now left | now right ].
      * intros [H|H]; [ right; now left | ].
        destruct (IH H) as [E|Hin]; [ now left | right; now right ].
Qed.

(** Every record of the search index describes one of the teams indexed. *)
Lemma searchIndex_records (store : MappingStore) (teams : list Team) (r : SearchRecord) :
  In r (JsObject.values (createEnhancedTeamSearchIndex store teams)) ->
  exists t, In t teams /\ r = searchRecordOf store t.
Proof.
  unfold createEnhancedTeamSearchIndex, JsObject.values.
  assert (H : forall (o : JsObject.t SearchRecord) k,
             In (k, r)
               (fold_left (fun searchIndex team =>
                  JsObject.set (teamId team) (searchRecordOf store team) searchIndex)
                  teams o) ->
             (exists t, In t teams /\ r = searchRecordOf store t) \/ In (k, r) o).
  { induction teams as [|t teams IH]; intros o k Hin; simpl in *; [ now right | ].
    destruct (IH _ _ Hin) as [[t' [Ht' ->]]|Hset].
    - left. exists t'. split; [ now right | reflexivity ].
    - apply JsObject_set_In in Hset. destruct Hset as [[= _ ->]|Ho].
      + left. exists t. split; [ now left | reflexivity ].
      + now right. }
  intros Hin. apply in_map_iff in Hin. destruct Hin as [[k r'] [Hr Hin]].
  simpl in Hr. subst r'.
  destruct (H [] k Hin) as [Hex|[]]. exact Hex.
Qed.

Lemma teamMap_get_inv (teams : list Team) (m0 : @JsMap.t N Team) (id : N) (t' : Team) :
  JsMap.get N.eqb id (fold_left teamMapStep teams m0) = Some t' ->
  (In t' teams /\ teamId t' = id) \/ JsMap.get N.eqb id m0 = Some t'.
Proof.
  revert m0.
  induction teams as [|t teams IH]; intros m0 H; simpl in *; [ now right | ].
  destruct (IH _ H) as [[Hin Hid]|Hget].
  - left. split; [ now right | assumption ].
  - unfold teamMapStep in Hget.
    destruct (N.eq_dec (teamId t) id) as [E|E].
    + subst id. rewrite (get_set_same N.eqb N_eqb_spec') in Hget.
      injection Hget as <-. left. split; [ now left | reflexivity ].
    + rewrite (get_set_other N.eqb N_eqb_spec') in Hget by assumption. now right.
Qed.

Lemma teamMap_get_kept (teams : list Team) (m0 : @JsMap.t N Team) (id : N) :
  JsMap.has N.eqb id m0 = true ->
  JsMap.has N.eqb id (fold_left teamMapStep teams m0) = true.
Proof.
  revert m0.
  induction teams as [|t teams IH]; intros m0 H; simpl; [ assumption | ].
  apply IH. unfold teamMapStep.
  destruct (N.eq_dec (teamId t) id) as [E|E].
  - subst id. apply (has_set_same N.eqb N_eqb_spec').
  - unfold JsMap.has in *.
    now rewrite (get_set_other N.eqb N_eqb_spec') by assumption.
Qed.

Lemma teamMap_has (teams : list Team) (m0 : @JsMap.t N Team) (t : Team) :
  In t teams ->
  JsMap.has N.eqb (teamId t) (fold_left teamMapStep teams m0) = true.
Proof.
  revert m0.
  induction teams as [|t0 teams IH]; intros m0 Hin; simpl; [ contradiction | ].
  destruct Hin as [->|Hin]; [ | now apply IH ].
  apply teamMap_get_kept. unfold teamMapStep.
  apply (has_set_same N.eqb N_eqb_spec').
Qed.

(** [teamMap] answers for the id of every enriched team, with an enriched team
    of that id: the fall-back to the original list is not reached. *)
Lemma getEnhancedTeamForId_enhanced (original : TeamList) (store0 : MappingStore)
    (t : Team) :
  let teamList := fst (createEnhancedTeamList original store0) in
  In t (enhancedTeams teamList) ->
  exists t', getEnhancedTeamForId teamList (teamId t) = Return t'
             /\ In t' (enhancedTeams teamList) /\ teamId t' = teamId t.
Proof.
  rewrite createEnhancedTeamList_spec. cbn zeta. simpl fst.
  unfold getEnhancedTeamForId. simpl enhancedTeams. simpl teamMap.
  intros Hin.
  pose proof (teamMap_has _ JsMap.empty t Hin) as Hhas.
  unfold JsMap.has in Hhas.
  destruct (JsMap.get N.eqb (teamId t) _) as [t'|] eqn:E; [ | discriminate ].
  exists t'. split; [ reflexivity | ].
  destruct (teamMap_get_inv _ _ _ _ E) as [[H1 H2]|H]; [ now split | discriminate ].
Qed.

Lemma resolverIndex_records (localeCompare : string -> string -> comparison)
    (original : TeamList) (store0 store : MappingStore) (r : SearchRecord) :
  let teamList := fst (createEnhancedTeamList original store0) in
  In r (resolverIndex localeCompare store teamList) ->
  exists t, getEnhancedTeamForId teamList (srId r) = Return t
            /\ In t (enhancedTeams teamList) /\ teamId t = srId r.
Proof.
  intros teamList Hin. unfold resolverIndex in Hin.
  apply searchIndex_records in Hin. destruct Hin as [t0 [Hin ->]].
  simpl in Hin. unfold sortTeamsForDivisionDisplay in Hin.
  apply (Permutation_in _ (Permutation_sym (arraySort_perm _ _))) in Hin.
  destruct (getEnhancedTeamForId_enhanced original store0 t0 Hin) as [t' H].
  exists t'. exact H.
Qed.

Lemma filter_cons_find {A : Type} (f : A -> bool) (l : list A) (x : A) (rest : list A) :
  filter f l = x :: rest -> find f l = Some x.
Proof.
  induction l as [|y l IH]; simpl; [ discriminate | ].
  destruct (f y); [ now intros [= ->] | exact IH ].
Qed.

Lemma filter_cons_In {A : Type} (f : A -> bool) (l : list A) (x : A) (rest : list A) :
  filter f l = x :: rest -> In x l.
Proof.
  intros H. assert (Hin : In x (filter f l)) by (rewrite H; now left).
  now apply filter_In in Hin.
Qed.

(** C5.  When the exact pass finds nothing, the outcome follows the number
    of partial matches.  None: the result is not valid, holds no team, and its
    error is the not-found text with the query in double quotes.  One: the
    result is valid and holds the enriched team of that record's id, with no
    error.  Two or more: the result is not valid, holds no team, and its error
    is the ambiguity text with the query in double quotes and the display
    names of all the matches, in index order, separated by ", ". *)
Theorem validateEnhancedTeamReference_partial_pass
    (localeCompare : string -> string -> comparison)
    (original : TeamList) (store0 store : MappingStore) (teamReference : string) :
  let teamList := fst (createEnhancedTeamList original store0) in
  let records := resolverIndex localeCompare store teamList in
  let result := validateEnhancedTeamReference localeCompare store teamReference teamList in
  let quote := String (ascii_of_nat 34) EmptyString in
  find (exactMatches teamReference) records = None ->
  match filter (partialMatches teamReference) records with
  | [] =>
      result = Return {| valid := false; team := None;
                         error := Some ("No team found for " ++ quote ++ teamReference ++ quote
                                        ++ ". Please check the team name and try again.")%string |}
  | [m] =>
      exists t, In t (enhancedTeams teamList) /\ teamId t = srId m
                /\ result = Return {| valid := true; team := Some t; error := None |}
  | ms =>
      result = Return {| valid := false; team := None;
                         error := Some ("Multiple teams found for "
                                        ++ quote ++ teamReference ++ quote ++ ": "
                                        ++ String.concat ", " (map srDisplayName ms)
                                        ++ ". Please be more specific.")%string |}
  end.
Proof.
  intros teamList records result quote Hexact.
  unfold result, validateEnhancedTeamReference.
  fold records. rewrite Hexact.
  destruct (filter (partialMatches teamReference) records) as [|m [|m' ms]] eqn:E.
  - reflexivity.
  - simpl.
    assert (Hin : In m records) by (eapply filter_cons_In; exact E).
    destruct (resolverIndex_records localeCompare original store0 store m Hin)
      as [t [Hget [Ht Hid]]].
    exists t. fold teamList in Hget. rewrite Hget. simpl. auto.
  - reflexivity.
Qed.

(** C9.  The exact pass takes the first record of the index that matches,
    however many match after it: the result is valid, holds the enriched
    team of that record's id, and carries no error. *)
Theorem validateEnhancedTeamReference_exact_first
    (localeCompare : string -> string -> comparison)
    (original : TeamList) (store0 store : MappingStore) (teamReference : string)
    (first : SearchRecord) (others : list SearchRecord) :
  let teamList := fst (createEnhancedTeamList original store0) in
  let records := resolverIndex localeCompare store teamList in
  filter (exactMatches teamReference) records = first :: others ->
  exists t, In t (enhancedTeams teamList) /\ teamId t = srId first
            /\ validateEnhancedTeamReference localeCompare store teamReference teamList
               = Return {| valid := true; team := Some t; error := None |}.
Proof.
  intros teamList records Hfilter.
  unfold validateEnhancedTeamReference. fold records.
  rewrite (filter_cons_find _ _ _ _ Hfilter).
  assert (Hin : In first records) by (eapply filter_cons_In; exact Hfilter).
  destruct (resolverIndex_records localeCompare original store0 store first Hin)
    as [t [Hget [Ht Hid]]].
  exists t. fold teamList in Hget. rewrite Hget. simpl. auto.
Qed.

Lemma validateEnhancedTeamReference_partial_pass_witness :
  let teamList := fst (createEnhancedTeamList (sampleTeamList hawksRoster) emptyStore) in
  let store := snd (createEnhancedTeamList (sampleTeamList hawksRoster) emptyStore) in
  find (exactMatches "hawks") (resolverIndex codeUnitCompare store teamList) = None
  /\ validateEnhancedTeamReference codeUnitCompare store "hawks" teamList
     = Return {| valid := false; team := None;
                 error := Some ("Multiple teams found for "
                                ++ String (ascii_of_nat 34) "hawks"
                                ++ String (ascii_of_nat 34)
                                     ": Night Hawks, Snowhawks. Please be more specific.")%string |}.
Proof.
  split; [ reflexivity | ].
  exact (validateEnhancedTeamReference_partial_pass codeUnitCompare
           (sampleTeamList hawksRoster) emptyStore
           (snd (createEnhancedTeamList (sampleTeamList hawksRoster) emptyStore))
           "hawks" eq_refl).
Defined.

Lemma validateEnhancedTeamReference_exact_first_witness :
  let teamList := fst (createEnhancedTeamList (sampleTeamList twoDragonsRoster) emptyStore) in
  let store := snd (createEnhancedTeamList (sampleTeamList twoDragonsRoster) emptyStore) in
  map srId (filter (exactMatches "dragons") (resolverIndex codeUnitCompare store teamList))
    = [3%N; 7%N]
  /\ exists t, teamId t = 3%N
       /\ validateEnhancedTeamReference codeUnitCompare store "dragons" teamList
          = Return {| valid := true; team := Some t; error := None |}.
Proof.
  split; [ reflexivity | ].
  destruct (validateEnhancedTeamReference_exact_first codeUnitCompare
              (sampleTeamList twoDragonsRoster) emptyStore
              (snd (createEnhancedTeamList (sampleTeamList twoDragonsRoster) emptyStore))
              "dragons" _ _ eq_refl) as [t [_ [Hid Hres]]].
  exists t. split; [ exact Hid | exact Hres ].
Defined.

(** C2.  Team 1 is registered as the Dragons while its export says Bears.
    The enriched record keeps "Bears" as its original display name, and
    "Dragons" and "dragons" resolve to it; the search record built from the
    enriched record carries "Dragons" as original name too, the partial pass
    looks at display name, city and nickname only, and "Bears" is not found. *)
Theorem validateEnhancedTeamReference_original_name
    (localeCompare : string -> string -> comparison) :
  let teamList := fst (createEnhancedTeamList (sampleTeamList bearsRoster) dragonsStore) in
  let store := snd (createEnhancedTeamList (sampleTeamList bearsRoster) dragonsStore) in
  map (fun t => (displayName t, originalDisplayName t)) (enhancedTeams teamList)
    = [("Dragons", Some "Bears")]
  /\ map (fun r => (srDisplayName r, srCityName r, srNickName r, srOriginalDisplayName r))
       (resolverIndex localeCompare store teamList)
     = [("Dragons", "Chicago", "Dragons", "Dragons")]
  /\ (exists t, teamId t = 1%N
        /\ validateEnhancedTeamReference localeCompare store "Dragons" teamList
           = Return (foundTeam t)
        /\ validateEnhancedTeamReference localeCompare store "dragons" teamList
           = Return (foundTeam t))
  /\ validateEnhancedTeamReference localeCompare store "Bears" teamList
     = Return (failed (noTeamError "Bears")).
Proof.
  cbv zeta. split; [ reflexivity | ]. split; [ reflexivity | ].
  split; [ | reflexivity ].
  eexists. split; [ | split; reflexivity ]. reflexivity.
Qed.

(** The same without a call of [registerExpansionTeam]: the mapping is the one
    auto-detection left when the team's export said Dragons, and stays when a
    later export says Bears. *)
Lemma validateEnhancedTeamReference_sticky_name
    (localeCompare : string -> string -> comparison) :
  let detected := snd (enhanceTeamData dragonsExport emptyStore) in
  let teamList := fst (createEnhancedTeamList (sampleTeamList bearsRoster) detected) in
  let store := snd (createEnhancedTeamList (sampleTeamList bearsRoster) detected) in
  map (fun t => (displayName t, originalDisplayName t)) (enhancedTeams teamList)
    = [("Dragons", Some "Bears")]
  /\ validateEnhancedTeamReference localeCompare store "Bears" teamList
     = Return (failed (noTeamError "Bears")).
Proof. cbv zeta. split; reflexivity. Qed.

(** The partial pass reads three properties of a record; the two original
    names do not enter it. *)
Lemma partialMatches_ignores_originals (teamReference : string) (r : SearchRecord)
    (originalNick originalDisplay : string) :
  partialMatches teamReference
    (mkSearchRecord (srCityName r) (srAbbrName r) (srNickName r) (srDisplayName r)
       (srId r) originalNick originalDisplay (srIsExpansionTeam r))
  = partialMatches teamReference r.
Proof. reflexivity. Qed.

(** ** Enrichment leaves its input alone *)

Lemma read_ext (h ext : Heap.heap) (l : Heap.loc) (c : Heap.cell) :
  Heap.read h l = Some c -> Heap.read (h ++ ext) l = Some c.
Proof.
  unfold Heap.read. intros H.
  rewrite nth_error_app1; [ assumption | ].
  apply nth_error_Some. congruence.
Qed.

Lemma read_fresh (h : Heap.heap) (l : Heap.loc) :
  List.length h <= l -> Heap.read h l = None.
Proof. unfold Heap.read. apply nth_error_None. Qed.

Lemma read_alloc (h ext : Heap.heap) (c : Heap.cell) :
  Heap.read ((h ++ [c]) ++ ext) (List.length h) = Some c.
Proof.
  apply read_ext. unfold Heap.read.
  rewrite nth_error_app2 by lia. now rewrite Nat.sub_diag.
Qed.

Lemma readTeam_ext (h ext : Heap.heap) (l : Heap.loc) (t : Team) :
  Heap.readTeam h l = Some t -> Heap.readTeam (h ++ ext) l = Some t.
Proof.
  unfold Heap.readTeam.
  destruct (Heap.read h l) as [c|] eqn:E; [ | discriminate ].
  now rewrite (read_ext _ ext _ _ E).
Qed.

Lemma readArray_ext (h ext : Heap.heap) (l : Heap.loc) (elems : list Heap.loc) :
  Heap.readArray h l = Some elems -> Heap.readArray (h ++ ext) l = Some elems.
Proof.
  unfold Heap.readArray.
  destruct (Heap.read h l) as [c|] eqn:E; [ | discriminate ].
  now rewrite (read_ext _ ext _ _ E).
Qed.

Lemma readTeams_ext (h ext : Heap.heap) (elems : list Heap.loc) (ts : list Team) :
  Heap.readTeams h elems = Some ts -> Heap.readTeams (h ++ ext) elems = Some ts.
Proof.
  revert ts.
  induction elems as [|l elems IH]; intros ts; simpl; [ trivial | ].
  destruct (Heap.readTeam h l) as [t|] eqn:E; [ | discriminate ].
  destruct (Heap.readTeams h elems) as [ts'|]; [ | discriminate ].
  intros [= <-].
  now rewrite (readTeam_ext _ ext _ _ E), (IH ts' eq_refl).
Qed.

(** The [map] call succeeds on an array of teams; it only appends to the
    heap, and the references it returns are those of the appended cells. *)
Lemma mapEnhance_spec (store : MappingStore) (elems : list Heap.loc) :
  forall (h : Heap.heap) (ts : list Team),
    Heap.readTeams h elems = Some ts ->
    exists ext,
      Heap.mapEnhance store elems h
        = Some (seq (List.length h) (List.length elems), h ++ ext)
      /\ List.length ext = List.length elems
      /\ Heap.readTeams (h ++ ext) (seq (List.length h) (List.length elems))
         = Some (map (enhanceOne store) ts).
Proof.
  induction elems as [|l elems IH]; intros h ts Hread; simpl in *.
  - injection Hread as <-. exists []. rewrite app_nil_r. auto.
  - destruct (Heap.readTeam h l) as [t|] eqn:E; [ | discriminate ].
    destruct (Heap.readTeams h elems) as [ts'|] eqn:E'; [ | discriminate ].
    injection Hread as <-.
    destruct (IH (h ++ [Heap.TeamObj (enhanceOne store t)]) ts'
                (readTeams_ext _ _ _ _ E')) as [ext [Hmap [Hlen Hts]]].
    rewrite Hmap.
    replace (List.length (h ++ [Heap.TeamObj (enhanceOne store t)]))
      with (S (List.length h)) in * by (rewrite length_app; simpl; lia).
    exists (Heap.TeamObj (enhanceOne store t) :: ext).
    replace (h ++ Heap.TeamObj (enhanceOne store t) :: ext)
      with ((h ++ [Heap.TeamObj (enhanceOne store t)]) ++ ext)
      by (rewrite <- app_assoc; reflexivity).
    split; [ reflexivity | ]. split; [ simpl; lia | ].
    unfold Heap.readTeam at 1. rewrite read_alloc.
    now rewrite Hts.
Qed.

(** C8.  Run on an array of [Team] objects, [enhanceTeamData] returns; every
    object that existed before the call, the input array and its records
    among them, is as it was; the array returned and the records in it are
    objects that did not exist before, holding the enriched values. *)
Theorem enhanceTeamData_preserves_input (teams : Heap.loc) (store : MappingStore)
    (h : Heap.heap) (elems : list Heap.loc) (ts : list Team) :
  Heap.readArray h teams = Some elems ->
  Heap.readTeams h elems = Some ts ->
  exists (a : Heap.loc) (h' : Heap.heap) (newElems : list Heap.loc),
    Heap.enhanceTeamData teams store h
      = Some (a, snd (enhanceTeamData ts store), h')
    /\ (forall l c, Heap.read h l = Some c -> Heap.read h' l = Some c)
    /\ Heap.readArray h' teams = Some elems
    /\ Heap.readTeams h' elems = Some ts
    /\ Heap.read h a = None
    /\ Heap.readArray h' a = Some newElems
    /\ Forall (fun l => Heap.read h l = None) newElems
    /\ Heap.readTeams h' newElems = Some (fst (enhanceTeamData ts store)).
Proof.
  intros Harr Hts.
  set (store' := autoDetectExpansionTeams ts store).
  destruct (mapEnhance_spec store' elems h ts Hts) as [ext [Hmap [Hlen Hnew]]].
  set (newElems := seq (List.length h) (List.length elems)) in *.
  exists (List.length (h ++ ext)), ((h ++ ext) ++ [Heap.ArrayObj newElems]), newElems.
  assert (Hshape : (h ++ ext) ++ [Heap.ArrayObj newElems]
                   = h ++ (ext ++ [Heap.ArrayObj newElems]))
    by (rewrite <- app_assoc; reflexivity).
  split.
  { unfold Heap.enhanceTeamData. rewrite Harr, Hts. fold store'. rewrite Hmap.
    reflexivity. }
  split. { intros l c H. rewrite Hshape. now apply read_ext. }
  split. { rewrite Hshape. now apply readArray_ext. }
  split. { rewrite Hshape. now apply readTeams_ext. }
  split. { apply read_fresh. rewrite length_app. lia. }
  split.
  { unfold Heap.readArray, Heap.read.
    rewrite nth_error_app2 by lia. now rewrite Nat.sub_diag. }
  split.
  { apply Forall_forall. intros l Hl. apply in_seq in Hl.
    apply read_fresh. lia. }
  now apply readTeams_ext.
Qed.

Lemma enhanceTeamData_preserves_input_witness :
  Heap.readArray sampleHeap 2 = Some [0; 1]
  /\ exists (a : Heap.loc) (h' : Heap.heap),
       Heap.enhanceTeamData 2 stickyStore sampleHeap
         = Some (a, autoDetectExpansionTeams sampleHeapTeams stickyStore, h')
       /\ Heap.readArray h' 2 = Some [0; 1]
       /\ Heap.read h' 0 = Heap.read sampleHeap 0
       /\ Heap.read h' 1 = Heap.read sampleHeap 1
       /\ Heap.read sampleHeap a = None.
Proof.
  split; [ reflexivity | ].
  destruct (enhanceTeamData_preserves_input 2 stickyStore sampleHeap [0; 1]
              sampleHeapTeams eq_refl eq_refl)
    as [a [h' [newElems [Hrun [Hframe [Harr [_ [Hfresh _]]]]]]]].
  exists a, h'.
  split; [ exact Hrun | ].
  split; [ exact Harr | ].
  split; [ exact (Hframe 0 _ eq_refl) | ].
  split; [ exact (Hframe 1 _ eq_refl) | exact Hfresh ].
Defined.

(** ** The registry: insert, lookup, delete *)

Section JsMapUpdates.
Context {K V : Type}.
Variable keyEqb : K -> K -> bool.
Hypothesis keyEqb_spec : forall a b, keyEqb a b = true <-> a = b.

Lemma set_set (k : K) (v v' : V) (m : JsMap.t) :
  JsMap.set keyEqb k v (JsMap.set keyEqb k v' m) = JsMap.set keyEqb k v m.
Proof.
  induction m as [|[k0 v0] m IH]; simpl.
  - now rewrite (keyEqb_refl keyEqb keyEqb_spec).
  - destruct (keyEqb k k0) eqn:E; simpl.
    + now rewrite (keyEqb_refl keyEqb keyEqb_spec).
    + now rewrite E, IH.
Qed.

Lemma delete_absent (k : K) (m : @JsMap.t K V) :
  JsMap.has keyEqb k m = false -> JsMap.delete keyEqb k m = m.
Proof.
  unfold JsMap.has.
  induction m as [|[k0 v0] m IH]; simpl; [ reflexivity | ].
  destruct (keyEqb k k0); [ discriminate | ].
  intros H. now rewrite IH.
Qed.

Lemma delete_set_absent (k : K) (v : V) (m : JsMap.t) :
  JsMap.has keyEqb k m = false ->
  JsMap.delete keyEqb k (JsMap.set keyEqb k v m) = m.
Proof.
  unfold JsMap.has.
  induction m as [|[k0 v0] m IH]; simpl.
  - now rewrite (keyEqb_refl keyEqb keyEqb_spec).
  - destruct (keyEqb k k0) eqn:E; [ discriminate | ].
    intros H. simpl. now rewrite E, IH.
Qed.

Lemma get_delete_other (k k' : K) (m : @JsMap.t K V) :
  k <> k' ->
  JsMap.get keyEqb k' (JsMap.delete keyEqb k m) = JsMap.get keyEqb k' m.
Proof.
  intros Hne. induction m as [|[k0 v0] m IH]; simpl; [ reflexivity | ].
  destruct (keyEqb k k0) eqn:E; simpl.
  - apply keyEqb_spec in E. subst k0.
    destruct (keyEqb k' k) eqn:E'; [ apply keyEqb_spec in E'; congruence | reflexivity ].
  - now rewrite IH.
Qed.

Lemma keys_delete_incl (k k' : K) (m : @JsMap.t K V) :
  In k' (JsMap.keys (JsMap.delete keyEqb k m)) -> In k' (JsMap.keys m).
Proof.
  induction m as [|[k0 v0] m IH]; simpl; [ trivial | ].
  destruct (keyEqb k k0); simpl; [ now right | ].
  intros [H|H]; [ now left | right; now apply IH ].
Qed.

Lemma keys_delete_NoDup (k : K) (m : @JsMap.t K V) :
  NoDup (JsMap.keys m) -> NoDup (JsMap.keys (JsMap.delete keyEqb k m)).
Proof.
  induction m as [|[k0 v0] m IH]; simpl; [ trivial | ].
  intros Hnd. inversion Hnd as [|? ? Hnotin Hnd']; subst.
  destruct (keyEqb k k0); simpl; [ assumption | ].
  constructor; [ | now apply IH ].
  intros Hin. apply Hnotin. eapply keys_delete_incl. exact Hin.
Qed.

Lemma get_delete_same (k : K) (m : @JsMap.t K V) :
  NoDup (JsMap.keys m) -> JsMap.get keyEqb k (JsMap.delete keyEqb k m) = None.
Proof.
  induction m as [|[k0 v0] m IH]; simpl; [ reflexivity | ].
  intros Hnd. inversion Hnd as [|? ? Hnotin Hnd']; subst.
  destruct (keyEqb k k0) eqn:E; simpl.
  - apply keyEqb_spec in E. subst k0.
    destruct (JsMap.get keyEqb k m) eqn:G; [ | reflexivity ].
    exfalso. apply Hnotin.
    apply (get_In_keys keyEqb keyEqb_spec). unfold JsMap.has. now rewrite G.
  - rewrite E. now apply IH.
Qed.
End JsMapUpdates.

(** X4.  Registration is an insert with last write wins: the team reads back
    the mapping just written, every other team reads what it read before, and
    a second registration of the same team replaces the first. *)
Theorem registerExpansionTeam_lookup (id id' : N) (nm orig nm' orig' : string)
    (d c d' c' : Z) (store : MappingStore) :
  getExpansionTeamMapping (registerExpansionTeam id nm orig d c store) id'
    = (if N.eqb id' id then Some (mkMapping nm id orig d c)
       else getExpansionTeamMapping store id')
  /\ registerExpansionTeam id nm orig d c
       (registerExpansionTeam id nm' orig' d' c' store)
     = registerExpansionTeam id nm orig d c store.
Proof.
  unfold getExpansionTeamMapping, registerExpansionTeam. split.
  - destruct (N.eqb id' id) eqn:E.
    + apply N.eqb_eq in E. subst id'. apply (get_set_same N.eqb N_eqb_spec').
    + apply N.eqb_neq in E.
      apply (get_set_other N.eqb N_eqb_spec'). congruence.
  - apply (set_set N.eqb N_eqb_spec').
Qed.

(** X5.  Removal in a registry with one entry per team: the team is no
    longer registered, every other team reads what it read before, the
    entries stay unique, removing a team that is not registered changes
    nothing, and removing a team right after its first registration gives the
    registry back. *)
Theorem removeExpansionTeamMapping_lookup (id id' : N) (nm orig : string) (d c : Z)
    (store : MappingStore) :
  NoDup (JsMap.keys store) ->
  getExpansionTeamMapping (removeExpansionTeamMapping id store) id'
    = (if N.eqb id' id then None else getExpansionTeamMapping store id')
  /\ NoDup (JsMap.keys (removeExpansionTeamMapping id store))
  /\ (isExpansionTeam store id = false ->
      removeExpansionTeamMapping id store = store
      /\ removeExpansionTeamMapping id (registerExpansionTeam id nm orig d c store)
         = store).
Proof.
  intros Hnd. unfold getExpansionTeamMapping, removeExpansionTeamMapping.
  split; [ | split ].
  - destruct (N.eqb id' id) eqn:E.
    + apply N.eqb_eq in E. subst id'.
      now apply (get_delete_same N.eqb N_eqb_spec').
    + apply N.eqb_neq in E.
      apply (get_delete_other N.eqb N_eqb_spec'). congruence.
  - now apply keys_delete_NoDup.
  - intros Habs. split.
    + now apply delete_absent.
    + now apply (delete_set_absent N.eqb N_eqb_spec').
Qed.

Lemma stickyStore_NoDup : NoDup (JsMap.keys stickyStore).
Proof. cbn. constructor; [ intros [] | constructor ]. Defined.

Lemma removeExpansionTeamMapping_lookup_witness :
  removeExpansionTeamMapping 9 stickyStore = emptyStore
  /\ getExpansionTeamMapping (removeExpansionTeamMapping 9 stickyStore) 9 = None
  /\ removeExpansionTeamMapping 7 stickyStore = stickyStore.
Proof.
  destruct (removeExpansionTeamMapping_lookup 9 9 "Tigers" "Bengals" 2 1 stickyStore
              stickyStore_NoDup) as [Hget _].
  destruct (removeExpansionTeamMapping_lookup 7 7 "Dragons" "Dragons" 0 0 stickyStore
              stickyStore_NoDup) as [_ [_ Habs]].
  split; [ reflexivity | ].
  split; [ exact Hget | exact (proj1 (Habs eq_refl)) ].
Defined.

(** ** Logo resolution *)

Lemma distinctZ_NoDup (l : list Z) : distinctZ l = true -> NoDup l.
Proof.
  induction l as [|x l IH]; simpl; [ constructor | ].
  intros H. apply andb_prop in H. destruct H as [Hx Hl].
  constructor; [ | now apply IH ].
  intros Hin. apply negb_true_iff in Hx.
  assert (Hex : existsb (Z.eqb x) l = true);
    [ apply existsb_exists; exists x; split; [ assumption | apply Z.eqb_refl ]
    | congruence ].
Qed.

Lemma NoDup_map_injective {A B : Type} (f : A -> B) (l : list A) (a b : A) :
  NoDup (map f l) -> In a l -> In b l -> f a = f b -> a = b.
Proof.
  induction l as [|x l IH]; simpl; [ contradiction | ].
  intros Hnd Ha Hb Hf. inversion Hnd as [|? ? Hnotin Hnd']; subst.
  destruct Ha as [->|Ha], Hb as [->|Hb]; auto.
  - exfalso. apply Hnotin. rewrite Hf. now apply in_map.
  - exfalso. apply Hnotin. rewrite <- Hf. now apply in_map.
Qed.

Lemma getExpansionTeamByName_Some (nm : string) (e : ExpansionTeam) :
  getExpansionTeamByName nm = Some e -> In e EXPANSION_TEAMS /\ name e = nm.
Proof.
  unfold getExpansionTeamByName. intros H. apply find_some in H.
  destruct H as [Hin E]. apply String.eqb_eq in E. now split.
Qed.

Lemma getExpansionTeamByName_catalog (nm : string) :
  In nm catalogNames <-> exists e, getExpansionTeamByName nm = Some e.
Proof.
  unfold catalogNames, getExpansionTeamByName. split.
  - intros Hin. apply in_map_iff in Hin. destruct Hin as [e [<- He]].
    destruct (find (fun e0 => String.eqb (name e0) (name e)) EXPANSION_TEAMS)
      as [e'|] eqn:F; [ now exists e' | ].
    exfalso. pose proof (find_none _ _ F e He) as Hn. simpl in Hn.
    rewrite String.eqb_refl in Hn. discriminate.
  - intros [e H]. apply find_some in H. destruct H as [Hin E].
    apply String.eqb_eq in E. subst nm. now apply in_map.
Qed.

Lemma catalog_logo_range (e : ExpansionTeam) :
  In e EXPANSION_TEAMS -> (1001 <= expansionLogoId e <= 1031)%Z.
Proof.
  assert (H : forallb (fun e => (1001 <=? expansionLogoId e)%Z
                                && (expansionLogoId e <=? 1031)%Z)
                EXPANSION_TEAMS = true) by reflexivity.
  intros Hin. apply (proj1 (forallb_forall _ _) H) in Hin.
  apply andb_prop in Hin. destruct Hin as [H1 H2].
  apply Z.leb_le in H1, H2. lia.
Qed.

(** X6.  Logo resolution: a team that is not registered, or registered
    under a name the catalog does not hold, keeps its own logo id; a team
    registered under a catalog name gets that entry's logo id, which lies in
    1001..1031 whatever the team's own id was; and two catalog entries with
    the same logo id are the same entry. *)
Theorem getTeamLogoId_resolution (store : MappingStore) (id : N) (originalLogoId : Z) :
  (isExpansionTeam store id = false ->
     getTeamLogoId store id originalLogoId = originalLogoId)
  /\ (forall m, getExpansionTeamMapping store id = Some m ->
        ~ In (expansionName m) catalogNames ->
        getTeamLogoId store id originalLogoId = originalLogoId)
  /\ (forall m, getExpansionTeamMapping store id = Some m ->
        In (expansionName m) catalogNames ->
        (1001 <= getTeamLogoId store id originalLogoId <= 1031)%Z
        /\ exists e, In e EXPANSION_TEAMS /\ name e = expansionName m
                     /\ getTeamLogoId store id originalLogoId = expansionLogoId e)
  /\ (forall e1 e2, In e1 EXPANSION_TEAMS -> In e2 EXPANSION_TEAMS ->
        expansionLogoId e1 = expansionLogoId e2 -> e1 = e2).
Proof.
  unfold getTeamLogoId. repeat split.
  - unfold isExpansionTeam, JsMap.has, getExpansionTeamMapping.
    now destruct (JsMap.get N.eqb id store).
  - intros m Hm Hnot. rewrite Hm.
    destruct (getExpansionTeamByName (expansionName m)) as [e|] eqn:E;
      [ | reflexivity ].
    exfalso. apply Hnot. apply getExpansionTeamByName_catalog. now exists e.
  - rewrite H. apply getExpansionTeamByName_catalog in H0. destruct H0 as [e E].
    rewrite E. apply getExpansionTeamByName_Some in E. destruct E as [Hin _].
    pose proof (catalog_logo_range e Hin) as R. unfold numOr.
    destruct (Z.eqb_spec (expansionLogoId e) 0); lia.
  - rewrite H. apply getExpansionTeamByName_catalog in H0. destruct H0 as [e E].
    rewrite E. apply getExpansionTeamByName_Some in E. destruct E as [Hin _].
    pose proof (catalog_logo_range e Hin) as R. unfold numOr.
    destruct (Z.eqb_spec (expansionLogoId e) 0); lia.
  - rewrite H. apply getExpansionTeamByName_catalog in H0. destruct H0 as [e E].
    rewrite E. apply getExpansionTeamByName_Some in E. destruct E as [Hin Hname].
    exists e. split; [ assumption | split; [ assumption | ] ].
    pose proof (catalog_logo_range e Hin) as R. unfold numOr.
    destruct (Z.eqb_spec (expansionLogoId e) 0); [ lia | reflexivity ].
  - intros e1 e2 H1 H2.
    apply (NoDup_map_injective expansionLogoId EXPANSION_TEAMS); try assumption.
    apply distinctZ_NoDup. reflexivity.
Qed.

Lemma getTeamLogoId_resolution_witness :
  getTeamLogoId dragonsStore 1 1 = 1011%Z
  /\ (1001 <= getTeamLogoId dragonsStore 1 1 <= 1031)%Z
  /\ getTeamLogoId dragonsStore 2 17 = 17%Z.
Proof.
  destruct (getTeamLogoId_resolution dragonsStore 1 1) as [_ [_ [Hcat _]]].
  destruct (getTeamLogoId_resolution dragonsStore 2 17) as [Hun _].
  split; [ reflexivity | ].
  split.
  - apply (Hcat (mkMapping "Dragons" 1 "Bears" 0 0) eq_refl).
    apply getExpansionTeamByName_catalog. eexists. reflexivity.
  - exact (Hun eq_refl).
Defined.

(** X7.  The validity test [name in EXPANSION_TEAMS] also holds for the
    members every object inherits: a team that is not registered and whose
    candidate name is one of them is registered by auto-detection under that
    name, is marked as an expansion team by enrichment, and keeps its own
    logo id, the catalog having no entry of that name. *)
Theorem autoDetect_inherited_member (store : MappingStore) (t : Team) (nm : string) :
  In nm objectPrototypeMembers ->
  candidateName t = Some nm ->
  isExpansionTeam store (teamId t) = false ->
  let store' := autoDetectExpansionTeams [t] store in
  getExpansionTeamByName nm = None
  /\ getExpansionTeamMapping store' (teamId t)
     = Some (mkMapping nm (teamId t) (optStrOr (originalName t) nm)
               (optNumOr (divisionId t) 0) (optNumOr (conferenceId t) 0))
  /\ isExpansionTeam_ (enhanceOne store' t) = Some true
  /\ displayName (enhanceOne store' t) = nm
  /\ logoId (enhanceOne store' t) = logoId t.
Proof.
  intros Hin Hcand Hnot store'.
  assert (Hnone : getExpansionTeamByName nm = None).
  { unfold objectPrototypeMembers in Hin. simpl in Hin.
    repeat (destruct Hin as [<-|Hin]; [ reflexivity | ]). contradiction. }
  assert (Hvalid : JsString.truthy nm && isValidExpansionTeamName nm = true).
  { unfold objectPrototypeMembers in Hin. simpl in Hin.
    repeat (destruct Hin as [<-|Hin]; [ reflexivity | ]). contradiction. }
  assert (Hmap : getExpansionTeamMapping store' (teamId t)
                 = Some (mkMapping nm (teamId t) (optStrOr (originalName t) nm)
                           (optNumOr (divisionId t) 0) (optNumOr (conferenceId t) 0))).
  { unfold store', autoDetectExpansionTeams. simpl. unfold autoDetectOne.
    rewrite Hcand, Hvalid, Hnot. simpl.
    unfold getExpansionTeamMapping, registerExpansionTeam.
    apply (get_set_same N.eqb N_eqb_spec'). }
  split; [ exact Hnone | ]. split; [ exact Hmap | ].
  unfold enhanceOne. rewrite Hmap. simpl.
  unfold getTeamDisplayName, getTeamLogoId. rewrite Hmap. simpl.
  rewrite Hnone. auto.
Qed.

Lemma autoDetect_inherited_member_witness :
  isValidExpansionTeamName "constructor" = true
  /\ isExpansionTeam_ (enhanceOne (autoDetectExpansionTeams [constructorTeam] emptyStore)
                         constructorTeam) = Some true
  /\ logoId (enhanceOne (autoDetectExpansionTeams [constructorTeam] emptyStore)
               constructorTeam) = 11%Z.
Proof.
  assert (Hin : In "constructor" objectPrototypeMembers) by (now left).
  destruct (autoDetect_inherited_member emptyStore constructorTeam "constructor"
              Hin eq_refl eq_refl) as [_ [_ [Hflag [_ Hlogo]]]].
  split; [ reflexivity | ]. split; [ exact Hflag | exact Hlogo ].
Defined.

(** ** Enrichment keeps a team's identity *)

Lemma enhanceOne_anchor (store : MappingStore) (t : Team) :
  teamId (enhanceOne store t) = teamId t
  /\ divName (enhanceOne store t) = divName t
  /\ cityName (enhanceOne store t) = cityName t
  /\ abbrName (enhanceOne store t) = abbrName t
  /\ divisionId (enhanceOne store t) = divisionId t
  /\ conferenceId (enhanceOne store t) = conferenceId t
  /\ otherProps (enhanceOne store t) = otherProps t.
Proof.
  unfold enhanceOne.
  destruct (getExpansionTeamMapping store (teamId t)); simpl; repeat split.
Qed.

Lemma enhanceOne_flag (store : MappingStore) (t : Team) :
  isExpansionTeam_ (enhanceOne store t) = Some (isExpansionTeam store (teamId t)).
Proof.
  unfold enhanceOne, isExpansionTeam, JsMap.has, getExpansionTeamMapping.
  now destruct (JsMap.get N.eqb (teamId t) store).
Qed.

Lemma enhanceOne_unmapped (store : MappingStore) (t : Team) :
  isExpansionTeam store (teamId t) = false ->
  displayName (enhanceOne store t) = displayName t
  /\ nickName (enhanceOne store t) = nickName t
  /\ logoId (enhanceOne store t) = logoId t
  /\ teamName (enhanceOne store t) = teamName t.
Proof.
  unfold enhanceOne, isExpansionTeam, JsMap.has, getExpansionTeamMapping.
  destruct (JsMap.get N.eqb (teamId t) store); [ discriminate | ].
  intros _. simpl. repeat split.
Qed.

Lemma validateDivisionIntegrity_divNames (teams teams' : list Team) :
  map divName teams = map divName teams' ->
  validateDivisionIntegrity teams = validateDivisionIntegrity teams'.
Proof.
  intros Hmap.
  assert (Hlen : List.length teams = List.length teams').
  { rewrite <- (length_map divName teams), Hmap. apply length_map. }
  assert (Hcount : forall counts,
             fold_left countStep teams counts = fold_left countStep teams' counts).
  { clear Hlen. revert teams' Hmap.
    induction teams as [|t teams IH]; intros [|t' teams'] Hmap counts;
      simpl in *; try discriminate; [ reflexivity | ].
    injection Hmap as Hd Hrest.
    unfold countStep at 2 4. rewrite Hd. now apply IH. }
  unfold validateDivisionIntegrity, countDivisions. now rewrite Hcount, Hlen.
Qed.

(** X8.  Enrichment anchors every team: the output has the input's teams in
    the input's order with team id, division, city, abbreviation and the
    remaining properties unchanged; a record is flagged as expansion team
    exactly when its team is registered afterwards, and an unregistered
    team's names and logo are unchanged; so the division validator says of
    the enriched roster what it says of the raw one, line for line. *)
Theorem enhanceTeamData_anchored (teams : list Team) (store : MappingStore) :
  let out := fst (enhanceTeamData teams store) in
  let store' := snd (enhanceTeamData teams store) in
  map teamId out = map teamId teams
  /\ map divName out = map divName teams
  /\ map cityName out = map cityName teams
  /\ map abbrName out = map abbrName teams
  /\ map otherProps out = map otherProps teams
  /\ map isExpansionTeam_ out
     = map (fun t => Some (isExpansionTeam store' (teamId t))) teams
  /\ Forall (fun t => isExpansionTeam store' (teamId t) = false ->
                      displayName (enhanceOne store' t) = displayName t
                      /\ nickName (enhanceOne store' t) = nickName t
                      /\ logoId (enhanceOne store' t) = logoId t) teams
  /\ validateDivisionIntegrity out = validateDivisionIntegrity teams.
Proof.
  cbn zeta. unfold enhanceTeamData. simpl fst. simpl snd.
  set (store' := autoDetectExpansionTeams teams store).
  assert (Hdiv : map divName (map (enhanceOne store') teams) = map divName teams).
  { rewrite map_map. apply map_ext. intros t. apply enhanceOne_anchor. }
  repeat split; try (rewrite map_map; apply map_ext; intros t;
                     first [ apply enhanceOne_anchor | apply enhanceOne_flag ]).
  - apply Forall_forall. intros t _ Hun.
    destruct (enhanceOne_unmapped store' t Hun) as [H1 [H2 [H3 _]]]. auto.
  - now apply validateDivisionIntegrity_divNames.
Qed.

(** ** Enriching an enriched roster *)

Lemma getTeamLogoId_again (store : MappingStore) (id : N) (orig : Z) :
  getTeamLogoId store id (getTeamLogoId store id orig) = getTeamLogoId store id orig.
Proof.
  unfold getTeamLogoId.
  destruct (getExpansionTeamMapping store id) as [m|]; [ | reflexivity ].
  destruct (getExpansionTeamByName (expansionName m)) as [e|]; [ | reflexivity ].
  unfold numOr. now destruct (Z.eqb (expansionLogoId e) 0).
Qed.

Lemma enhanceOne_again (store : MappingStore) (t : Team) :
  let e := enhanceOne store t in
  let e2 := enhanceOne store e in
  teamId e2 = teamId e /\ displayName e2 = displayName e
  /\ nickName e2 = nickName e /\ logoId e2 = logoId e
  /\ isExpansionTeam_ e2 = isExpansionTeam_ e
  /\ (isExpansionTeam store (teamId t) = true ->
      originalDisplayName e2 = Some (displayName e)
      /\ originalNickName e2 = Some (nickName e)
      /\ originalDisplayName e = Some (displayName t)).
Proof.
  cbn zeta. unfold enhanceOne, isExpansionTeam, JsMap.has.
  fold (getExpansionTeamMapping store (teamId t)).
  destruct (getExpansionTeamMapping store (teamId t)) as [m|] eqn:E; simpl; rewrite E; simpl.
  - unfold getTeamDisplayName. rewrite E. rewrite getTeamLogoId_again.
    repeat split.
  - repeat split; congruence.
Qed.

Lemma detectable_enhanceOne (store : MappingStore) (t : Team) :
  isExpansionTeam store (teamId t) = false ->
  detectable (enhanceOne store t) = detectable t.
Proof.
  intros Hun. destruct (enhanceOne_unmapped store t Hun) as [H1 [H2 [_ H4]]].
  unfold detectable, candidateName. now rewrite H1, H2, H4.
Qed.

(** X9.  Enriching an enriched roster again, with the registry the first
    run left: the registry does not change and every record keeps its team
    id, display name, nickname, logo id and flag; but a registered team's
    record then carries the overlaid names as its original names, where the
    first run had stored the names of the export. *)
Theorem enhanceTeamData_again (teams : list Team) (store : MappingStore) :
  let out := fst (enhanceTeamData teams store) in
  let store' := snd (enhanceTeamData teams store) in
  let out2 := fst (enhanceTeamData out store') in
  snd (enhanceTeamData out store') = store'
  /\ map teamId out2 = map teamId out
  /\ map displayName out2 = map displayName out
  /\ map nickName out2 = map nickName out
  /\ map logoId out2 = map logoId out
  /\ map isExpansionTeam_ out2 = map isExpansionTeam_ out
  /\ Forall (fun t => isExpansionTeam store' (teamId t) = true ->
               originalDisplayName (enhanceOne store' t) = Some (displayName t)
               /\ originalDisplayName (enhanceOne store' (enhanceOne store' t))
                  = Some (displayName (enhanceOne store' t))) teams.
Proof.
  cbn zeta. unfold enhanceTeamData. simpl fst. simpl snd.
  set (store' := autoDetectExpansionTeams teams store).
  assert (Hsame : autoDetectExpansionTeams (map (enhanceOne store') teams) store'
                  = store').
  { apply autoDetect_skip_all. intros e Hin Hd.
    apply in_map_iff in Hin. destruct Hin as [t [<- Ht]].
    destruct (enhanceOne_anchor store' t) as [Hid _]. rewrite Hid.
    destruct (isExpansionTeam store' (teamId t)) eqn:R; [ reflexivity | ].
    rewrite (detectable_enhanceOne store' t R) in Hd.
    rewrite <- R. unfold store'. now apply autoDetect_registered. }
  rewrite Hsame.
  repeat split;
    try (rewrite !map_map; apply map_ext; intros t;
         apply (enhanceOne_again store' t)).
  apply Forall_forall. intros t _ Hreg.
  destruct (enhanceOne_again store' t) as [_ [_ [_ [_ [_ H]]]]].
  destruct (H Hreg) as [H1 [_ H3]]. auto.
Qed.

(** ** Characters and white space *)

Lemma allChars_app (p : ascii -> bool) (a b : string) :
  allChars p (a ++ b) = allChars p a && allChars p b.
Proof.
  induction a as [|c a IH]; simpl; [ reflexivity | ].
  now rewrite IH, andb_assoc.
Qed.

Lemma allChars_impl (p q : ascii -> bool) (s : string) :
  (forall c, p c = true -> q c = true) ->
  allChars p s = true -> allChars q s = true.
Proof.
  intros Himp. induction s as [|c s IH]; simpl; [ trivial | ].
  intros H. apply andb_prop in H. destruct H as [Hc Hs].
  now rewrite (Himp c Hc), IH.
Qed.

Lemma lowerChar_facts (c : ascii) :
  JsString.isUpper (JsString.lowerChar c) = false
  /\ isSpace (JsString.lowerChar c) = isSpace c.
Proof.
  destruct c as [[] [] [] [] [] [] [] []]; split; reflexivity.
Qed.

Lemma upperChar_facts (c : ascii) :
  JsString.isLower (JsString.upperChar c) = false.
Proof.
  destruct c as [[] [] [] [] [] [] [] []]; reflexivity.
Qed.

Lemma isSpace_dotChar (c : ascii) : isSpace c = false -> dotChar c = true.
Proof.
  destruct c as [[] [] [] [] [] [] [] []]; intros H; try reflexivity; discriminate H.
Qed.

Lemma toLowerCase_no_upper (s : string) :
  allChars (fun c => negb (JsString.isUpper c)) (JsString.toLowerCase s) = true.
Proof.
  unfold JsString.toLowerCase.
  induction s as [|c s IH]; simpl; [ reflexivity | ].
  destruct (lowerChar_facts c) as [H _]. now rewrite H, IH.
Qed.

Lemma toUpperCase_no_lower (s : string) :
  allChars (fun c => negb (JsString.isLower c)) (JsString.toUpperCase s) = true.
Proof.
  unfold JsString.toUpperCase.
  induction s as [|c s IH]; simpl; [ reflexivity | ].
  now rewrite upperChar_facts, IH.
Qed.

(** What replaces the white space decides what the result may hold: no white
    space is left, and whatever held of every character still does. *)
Lemma replaceSpaceRuns_chars (p : ascii -> bool) (sep : string) (inRun : bool)
    (s : string) :
  allChars (fun c => negb (isSpace c) && p c) sep = true ->
  allChars p s = true ->
  allChars (fun c => negb (isSpace c) && p c) (replaceSpaceRuns sep inRun s) = true.
Proof.
  intros Hsep. revert inRun.
  induction s as [|c s IH]; intros inRun H; simpl in *; [ reflexivity | ].
  apply andb_prop in H. destruct H as [Hc Hs].
  destruct (isSpace c) eqn:E.
  - destruct inRun; [ now apply IH | ].
    rewrite allChars_app, Hsep. now apply IH.
  - simpl. rewrite E, Hc. simpl. now apply IH.
Qed.

Lemma replaceSpaceRuns_none (sep : string) (s : string) :
  allChars (fun c => negb (isSpace c)) s = true ->
  replaceSpaceRuns sep false s = s.
Proof.
  induction s as [|c s IH]; simpl; [ reflexivity | ].
  intros H. apply andb_prop in H. destruct H as [Hc Hs].
  apply negb_true_iff in Hc. rewrite Hc. now rewrite IH.
Qed.

Lemma replaceWhitespace_channel (s : string) :
  allChars channelChar (replaceWhitespace "-" (JsString.toLowerCase s)) = true.
Proof.
  unfold replaceWhitespace, channelChar.
  apply (replaceSpaceRuns_chars (fun c => negb (JsString.isUpper c)));
    [ reflexivity | apply toLowerCase_no_upper ].
Qed.

(** X10.  A channel name holds no white space and no upper-case letter,
    for one team and for a game; a registered team goes by its expansion name
    and any other by its display name, and a name without white space is only
    lower-cased. *)
Theorem generateEnhancedChannelName_chars (store : MappingStore)
    (awayTeam homeTeam : Team) :
  allChars channelChar (getTeamNameForChannel store homeTeam) = true
  /\ allChars channelChar (generateEnhancedChannelName store awayTeam homeTeam) = true
  /\ getTeamNameForChannel store homeTeam
     = replaceWhitespace "-"
         (JsString.toLowerCase
            (getTeamDisplayName store (teamId homeTeam) (displayName homeTeam)))
  /\ (allChars (fun c => negb (isSpace c))
        (getTeamDisplayName store (teamId homeTeam) (displayName homeTeam)) = true ->
      getTeamNameForChannel store homeTeam
      = JsString.toLowerCase
          (getTeamDisplayName store (teamId homeTeam) (displayName homeTeam))).
Proof.
  assert (Hname : forall t, getTeamNameForChannel store t
            = replaceWhitespace "-"
                (JsString.toLowerCase (getTeamDisplayName store (teamId t) (displayName t)))).
  { intros t. unfold getTeamNameForChannel, getTeamDisplayName.
    now destruct (getExpansionTeamMapping store (teamId t)). }
  split; [ rewrite Hname; apply replaceWhitespace_channel | ].
  split.
  { unfold generateEnhancedChannelName. rewrite !allChars_app, !Hname.
    now rewrite !replaceWhitespace_channel. }
  split; [ apply Hname | ].
  intros Hns. rewrite Hname. unfold replaceWhitespace.
  apply replaceSpaceRuns_none.
  set (s := getTeamDisplayName store (teamId homeTeam) (displayName homeTeam)) in *.
  clearbody s. unfold JsString.toLowerCase.
  induction s as [|c s IH]; simpl in *; [ reflexivity | ].
  apply andb_prop in Hns. destruct Hns as [Hc Hs].
  destruct (lowerChar_facts c) as [_ Hsp]. now rewrite Hsp, Hc, IH.
Qed.

Lemma generateEnhancedChannelName_chars_witness :
  generateEnhancedChannelName dragonsStore
    (rawTeam 4 "Night Hawks" "Night Hawks" "Portland" "POR" "AFC West" 4)
    (rawTeam 1 "Bears" "Bears" "Chicago" "CHI" "NFC North" 1)
  = "night-hawks-at-dragons"
  /\ getTeamNameForChannel dragonsStore
       (rawTeam 1 "Bears" "Bears" "Chicago" "CHI" "NFC North" 1) = "dragons".
Proof.
  split; [ reflexivity | ].
  exact (proj2 (proj2 (proj2 (generateEnhancedChannelName_chars dragonsStore
           (rawTeam 4 "Night Hawks" "Night Hawks" "Portland" "POR" "AFC West" 4)
           (rawTeam 1 "Bears" "Bears" "Chicago" "CHI" "NFC North" 1)))) eq_refl).
Defined.

(** ** Abbreviations *)

Lemma substring0_length (n : nat) (s : string) :
  String.length (JsString.substring0 n s) <= n.
Proof.
  unfold JsString.substring0. revert s.
  induction n as [|n IH]; intros [|c s]; simpl; try lia.
  specialize (IH s). lia.
Qed.

Lemma substring0_chars (p : ascii -> bool) (n : nat) (s : string) :
  allChars p s = true -> allChars p (JsString.substring0 n s) = true.
Proof.
  unfold JsString.substring0. revert s.
  induction n as [|n IH]; intros [|c s]; simpl; try reflexivity.
  intros H. apply andb_prop in H. destruct H as [Hc Hs].
  now rewrite Hc, IH.
Qed.

Lemma mapChars_length (f : ascii -> ascii) (s : string) :
  String.length (JsString.mapChars f s) = String.length s.
Proof. induction s as [|c s IH]; simpl; [ reflexivity | now rewrite IH ]. Qed.

(** X11.  For a team registered under a name of ASCII characters, the
    abbreviation has at most three characters and no lower-case letter,
    whether the name is one word, several or empty; a team that is not
    registered keeps the abbreviation of its record.  (The one-word branch
    cuts before it upper-cases, so beyond ASCII the bound would depend on the
    host's case map.) *)
Theorem getTeamAbbreviation_shape (store : MappingStore) (t : Team) :
  (forall m, getExpansionTeamMapping store (teamId t) = Some m ->
     JsString.isAscii (expansionName m) = true ->
     String.length (getTeamAbbreviation store t) <= 3
     /\ allChars (fun c => negb (JsString.isLower c)) (getTeamAbbreviation store t) = true)
  /\ (isExpansionTeam store (teamId t) = false ->
      getTeamAbbreviation store t = abbrName t).
Proof.
  unfold getTeamAbbreviation, isExpansionTeam, JsMap.has.
  fold (getExpansionTeamMapping store (teamId t)).
  destruct (getExpansionTeamMapping store (teamId t)) as [m|];
    split; try discriminate; try reflexivity.
  intros m' [= <-] _.
  destruct (JsString.splitSpace (expansionName m)) as [|w [|w' ws]].
  - split; [ apply substring0_length | ].
    apply substring0_chars, toUpperCase_no_lower.
  - split.
    + unfold JsString.toUpperCase. rewrite mapChars_length. apply substring0_length.
    + apply toUpperCase_no_lower.
  - split; [ apply substring0_length | ].
    apply substring0_chars, toUpperCase_no_lower.
Qed.

Lemma getTeamAbbreviation_shape_witness :
  getExpansionTeamMapping dragonsStore 1 = Some (mkMapping "Dragons" 1 "Bears" 0 0)
  /\ JsString.isAscii "Dragons" = true
  /\ getTeamAbbreviation dragonsStore (rawTeam 1 "Bears" "Bears" "Chicago" "CHI" "NFC North" 1)
     = "DRA"
  /\ String.length (getTeamAbbreviation dragonsStore
                      (rawTeam 1 "Bears" "Bears" "Chicago" "CHI" "NFC North" 1)) <= 3
  /\ getTeamAbbreviation dragonsStore
       (rawTeam 2 "Bills" "Bills" "Buffalo" "BUF" "AFC East" 2) = "BUF".
Proof.
  split; [ reflexivity | ]. split; [ reflexivity | ]. split; [ reflexivity | ].
  split.
  - exact (proj1 (proj1 (getTeamAbbreviation_shape dragonsStore
             (rawTeam 1 "Bears" "Bears" "Chicago" "CHI" "NFC North" 1))
             (mkMapping "Dragons" 1 "Bears" 0 0) eq_refl eq_refl)).
  - exact (proj2 (getTeamAbbreviation_shape dragonsStore
             (rawTeam 2 "Bills" "Bills" "Buffalo" "BUF" "AFC East" 2)) eq_refl).
Defined.

(** ** Logo URLs and the logo-serving middleware *)

Lemma string_length_app (a b : string) :
  String.length (a ++ b) = String.length a + String.length b.
Proof. induction a as [|c a IH]; simpl; [ reflexivity | now rewrite IH ]. Qed.

Lemma string_app_assoc (a b c : string) : ((a ++ b) ++ c = a ++ (b ++ c))%string.
Proof. induction a as [|x a IH]; simpl; [ reflexivity | now rewrite IH ]. Qed.

Lemma stripPrefix_app (p s : string) : stripPrefix p (p ++ s) = Some s.
Proof.
  induction p as [|c p IH]; simpl; [ now destruct s | ].
  now rewrite Ascii.eqb_refl.
Qed.

Lemma stripPrefix_Some (p s r : string) :
  stripPrefix p s = Some r -> s = (p ++ r)%string.
Proof.
  revert s. induction p as [|c p IH]; intros s; simpl.
  - destruct s; now intros [= ->].
  - destruct s as [|b s]; [ discriminate | ].
    destruct (Ascii.eqb c b) eqn:E; [ | discriminate ].
    apply Ascii.eqb_eq in E. subst b. intros H. now rewrite (IH s H).
Qed.

Lemma stripSuffix_self (suf : string) : stripSuffix suf suf = Some EmptyString.
Proof. destruct suf; simpl; now rewrite ?Ascii.eqb_refl, ?String.eqb_refl. Qed.

Lemma stripSuffix_app (suf m : string) : stripSuffix suf (m ++ suf) = Some m.
Proof.
  induction m as [|c m IH]; [ apply stripSuffix_self | ].
  change ((String c m ++ suf)%string) with (String c (m ++ suf)).
  cbn [stripSuffix]. rewrite IH.
  destruct (String.eqb (String c (m ++ suf)) suf) eqn:E; [ | reflexivity ].
  apply String.eqb_eq in E. apply (f_equal String.length) in E.
  simpl in E. rewrite string_length_app in E. lia.
Qed.

Lemma stripSuffix_Some (suf s m : string) :
  stripSuffix suf s = Some m -> s = (m ++ suf)%string.
Proof.
  revert m. induction s as [|c s IH]; intros m.
  - cbn [stripSuffix]. destruct (String.eqb EmptyString suf) eqn:E; [ | discriminate ].
    apply String.eqb_eq in E. intros [= <-]. now subst suf.
  - cbn [stripSuffix]. destruct (String.eqb (String c s) suf) eqn:E.
    + apply String.eqb_eq in E. intros [= <-]. now subst suf.
    + destruct (stripSuffix suf s) as [m'|]; [ | discriminate ].
      intros [= <-]. simpl. now rewrite (IH m' eq_refl).
Qed.

Lemma truthy_nonempty (s : string) : JsString.truthy s = true <-> s <> EmptyString.
Proof. destruct s; simpl; split; congruence. Qed.

Lemma matchLogoUrl_accepts (fileName : string) :
  fileName <> EmptyString -> allChars dotChar fileName = true ->
  matchLogoUrl ("/assets/expansion_logos/" ++ fileName ++ ".png") = Some fileName.
Proof.
  intros Hne Hdot. unfold matchLogoUrl.
  rewrite stripPrefix_app, stripSuffix_app, Hdot.
  apply truthy_nonempty in Hne. now rewrite Hne.
Qed.

(** X13.  The middleware takes a request for a logo exactly when the URL
    is the logo directory's prefix, a non-empty name without line breaks, and
    [.png]; the name it takes is all that stands between the two, whatever
    it holds otherwise, a separator or a parent-directory segment included. *)
Theorem matchLogoUrl_iff (url fileName : string) :
  matchLogoUrl url = Some fileName <->
  url = ("/assets/expansion_logos/" ++ fileName ++ ".png")%string
  /\ fileName <> EmptyString
  /\ allChars dotChar fileName = true.
Proof.
  unfold matchLogoUrl. split.
  - destruct (stripPrefix "/assets/expansion_logos/" url) as [rest|] eqn:P;
      [ | discriminate ].
    destruct (stripSuffix ".png" rest) as [f|] eqn:S; [ | discriminate ].
    destruct (JsString.truthy f && allChars dotChar f) eqn:C; [ | discriminate ].
    intros [= <-]. apply andb_prop in C. destruct C as [C1 C2].
    apply stripPrefix_Some in P. apply stripSuffix_Some in S. subst.
    split; [ reflexivity | ]. split; [ now apply truthy_nonempty | assumption ].
  - intros [-> [Hne Hdot]]. fold (matchLogoUrl ("/assets/expansion_logos/" ++ fileName ++ ".png")).
    now apply matchLogoUrl_accepts.
Qed.

Lemma matchLogoUrl_iff_witness :
  matchLogoUrl "/assets/expansion_logos/../../config.png" = Some "../../config"
  /\ matchLogoUrl "/assets/expansion_logos/.png" = None.
Proof.
  split; [ | reflexivity ].
  apply (proj2 (matchLogoUrl_iff "/assets/expansion_logos/../../config.png"
                  "../../config")).
  repeat split. discriminate.
Defined.

Lemma logoBaseName_chars (teamName : string) (type : LogoType) :
  allChars channelChar (logoBaseName teamName type) = true.
Proof.
  unfold logoBaseName, replaceWhitespace, channelChar.
  rewrite !allChars_app.
  rewrite (replaceSpaceRuns_chars (fun c => negb (JsString.isUpper c)));
    [ now destruct type | reflexivity | apply toLowerCase_no_upper ].
Qed.

(** X12.  Every URL [getExpansionTeamLogoUrl] gives under the default base
    (no base, or an empty one) is a request the middleware takes, and the file
    the middleware reads for it is the file [getExpansionTeamLogoPath] names
    for the same team and type; the file name holds no white space and no
    upper-case letter. *)
Theorem getExpansionTeamLogoUrl_served (pathJoin : list string -> string)
    (dirname teamName : string) (type : LogoType) :
  getExpansionTeamLogoUrl teamName type (Some EmptyString)
    = getExpansionTeamLogoUrl teamName type None
  /\ matchLogoUrl (getExpansionTeamLogoUrl teamName type None)
     = Some (logoBaseName teamName type)
  /\ middlewareLogoPath pathJoin dirname (getExpansionTeamLogoUrl teamName type None)
     = Some (getExpansionTeamLogoPath pathJoin dirname teamName type)
  /\ allChars channelChar (logoBaseName teamName type) = true.
Proof.
  assert (Hm : matchLogoUrl (getExpansionTeamLogoUrl teamName type None)
               = Some (logoBaseName teamName type)).
  { change (getExpansionTeamLogoUrl teamName type None)
      with ("/assets/expansion_logos/" ++ logoBaseName teamName type ++ ".png")%string.
    apply matchLogoUrl_accepts.
    - unfold logoBaseName. destruct (replaceWhitespace "_" _); destruct type; discriminate.
    - apply (allChars_impl channelChar); [ | apply logoBaseName_chars ].
      intros c H. unfold channelChar in H. apply andb_prop in H.
      destruct H as [H _]. apply negb_true_iff in H. now apply isSpace_dotChar. }
  split; [ reflexivity | ]. split; [ exact Hm | ].
  split; [ | apply logoBaseName_chars ].
  unfold middlewareLogoPath, getExpansionTeamLogoPath, logoFileName. now rewrite Hm.
Qed.

(** ** Export validation *)

Lemma nodup_length_le (ids : list N) :
  List.length (nodup N.eq_dec ids) <= List.length ids.
Proof.
  induction ids as [|a ids IH]; simpl; [ lia | ].
  destruct (in_dec N.eq_dec a ids); simpl; lia.
Qed.

Lemma distinctCount_NoDup (ids : list N) :
  Nat.eqb (List.length ids) (distinctCount ids) = true <-> NoDup ids.
Proof.
  unfold distinctCount. rewrite Nat.eqb_eq. split.
  - induction ids as [|a ids IH]; simpl; [ constructor | ].
    destruct (in_dec N.eq_dec a ids) as [Hin|Hnin]; simpl; intros H.
    + pose proof (nodup_length_le ids). lia.
    + constructor; [ assumption | apply IH; lia ].
  - intros H. now rewrite (nodup_fixed_point N.eq_dec H).
Qed.

Lemma divisionIssues_nil (entries : list (string * nat)) :
  divisionIssues entries = [] <-> (forall d c, In (d, c) entries -> c = 4).
Proof.
  induction entries as [|[d c] entries IH]; simpl.
  - split; [ intros _ ? ? [] | reflexivity ].
  - destruct (Nat.eqb c 4) eqn:E; simpl.
    + apply Nat.eqb_eq in E. subst c. rewrite IH. split.
      * intros H d' c' [[= <- <-]|Hin]; [ reflexivity | now apply (H d') ].
      * intros H d' c' Hin. apply (H d'). now right.
    + apply Nat.eqb_neq in E. split; [ discriminate | ].
      intros H. exfalso. apply E. apply (H d). now left.
Qed.

Lemma divisionIssues_In (entries : list (string * nat)) (d : string) (c : nat) :
  In (d, c) entries -> c <> 4 -> In (divisionWarning d c) (divisionIssues entries).
Proof.
  induction entries as [|[d' c'] entries IH]; simpl; [ contradiction | ].
  intros [[= -> ->]|Hin] Hc.
  - apply Nat.eqb_neq in Hc. rewrite Hc. now left.
  - destruct (Nat.eqb c' 4); simpl; [ | right ]; now apply IH.
Qed.

Lemma validateEnhancedTeamExport_teams (teams : list Team) (store : MappingStore) :
  teams <> [] ->
  validateEnhancedTeamExport (mkTeamExport true (Some teams)) store
  = (mkExportValidation
       (Nat.eqb (List.length
          ((if negb (Nat.eqb (List.length teams) 32)
            then [teamCountIssue (List.length teams)] else [])
           ++ (if negb (Nat.eqb (List.length (map teamId teams))
                          (distinctCount (map teamId teams)))
               then ["Duplicate team IDs found in export"] else [])
           ++ divisionIssues (countDivisions teams))) 0)
       ((if negb (Nat.eqb (List.length teams) 32)
         then [teamCountIssue (List.length teams)] else [])
        ++ (if negb (Nat.eqb (List.length (map teamId teams))
                       (distinctCount (map teamId teams)))
            then ["Duplicate team IDs found in export"] else [])
        ++ divisionIssues (countDivisions teams))
       (if (0 <? List.length
                   (filter (fun t => flagSet (isExpansionTeam_ t))
                      (fst (enhanceTeamData teams store))))%nat
        then [expansionWarning
                (filter (fun t => flagSet (isExpansionTeam_ t))
                   (fst (enhanceTeamData teams store)))]
        else []),
     autoDetectExpansionTeams teams store).
Proof. destruct teams as [|t teams]; [ congruence | reflexivity ]. Qed.

(** X14.  The export validator accepts an export exactly when it is marked
    successful and lists 32 teams with pairwise different team ids, four in
    every division; what it accepts, [validateDivisionIntegrity] accepts
    too. *)
Theorem validateEnhancedTeamExport_valid_iff (teamExport : TeamExport)
    (store : MappingStore) :
  (exportValid (fst (validateEnhancedTeamExport teamExport store)) = true <->
     success teamExport = true
     /\ exists teams, leagueTeamInfoList teamExport = Some teams
          /\ List.length teams = 32
          /\ NoDup (map teamId teams)
          /\ (forall d, In d (map divName teams) -> divisionSize d teams = 4))
  /\ (exportValid (fst (validateEnhancedTeamExport teamExport store)) = true ->
      exists teams, leagueTeamInfoList teamExport = Some teams
        /\ validateDivisionIntegrity teams = (true, [])).
Proof.
  assert (Hiff : exportValid (fst (validateEnhancedTeamExport teamExport store)) = true <->
     success teamExport = true
     /\ exists teams, leagueTeamInfoList teamExport = Some teams
          /\ List.length teams = 32
          /\ NoDup (map teamId teams)
          /\ (forall d, In d (map divName teams) -> divisionSize d teams = 4)).
  { destruct teamExport as [ok [teams|]]; simpl success; simpl leagueTeamInfoList.
    2: { destruct ok; simpl; split; try discriminate;
         intros [_ [ts [H _]]]; discriminate. }
    destruct ok.
    2: { simpl. split; [ discriminate | intros [H _]; discriminate ]. }
    destruct teams as [|t0 teams0].
    { simpl. split; [ discriminate | ].
      intros [_ [ts [[= <-] [Hlen _]]]]. discriminate. }
    remember (t0 :: teams0) as teams eqn:Hteams.
    rewrite validateEnhancedTeamExport_teams by (subst teams; discriminate).
    clear Hteams t0 teams0.
    cbn [fst exportValid].
    rewrite Nat.eqb_eq, length_zero_iff_nil.
    split.
    - intros H. apply app_eq_nil in H. destruct H as [H1 H2].
      apply app_eq_nil in H2. destruct H2 as [H2 H3].
      split; [ reflexivity | ]. exists teams. split; [ reflexivity | ].
      destruct (Nat.eqb (List.length teams) 32) eqn:L; [ | discriminate H1 ].
      apply Nat.eqb_eq in L. split; [ assumption | ].
      destruct (Nat.eqb (List.length (map teamId teams))
                  (distinctCount (map teamId teams))) eqn:D; [ | discriminate H2 ].
      apply distinctCount_NoDup in D. split; [ assumption | ].
      intros d Hin.
      apply ((proj1 (divisionIssues_nil _)) H3 d).
      apply countDivisions_entries. now split.
    - intros [_ [ts [[= <-] [Hlen [Hnd Hdiv]]]]].
      apply Nat.eqb_eq in Hlen. rewrite Hlen.
      apply distinctCount_NoDup in Hnd. rewrite Hnd. simpl.
      apply divisionIssues_nil. intros d c Hin.
      apply countDivisions_entries in Hin. destruct Hin as [Hin ->]. now apply Hdiv. }
  split; [ exact Hiff | ].
  intros Hv. apply Hiff in Hv. destruct Hv as [_ [teams [Hl [Hlen [_ Hdiv]]]]].
  exists teams. split; [ assumption | ].
  assert (Hb : fst (validateDivisionIntegrity teams) = true)
    by (apply validateDivisionIntegrity_iff; now split).
  pose proof (divisionLoop_falls_through (countDivisions teams)) as Hfall.
  unfold validateDivisionIntegrity in *.
  destruct (divisionLoop (countDivisions teams)) as [out [b|]] eqn:E.
  - simpl in Hb. subst b.
    pose proof (divisionLoop_returns_false (countDivisions teams) true) as Hf.
    rewrite E in Hf. simpl in Hf. now specialize (Hf eq_refl).
  - simpl in Hb. rewrite Hb. f_equal.
    clear - E. revert out E.
    induction (countDivisions teams) as [|[d c] entries IH]; simpl; intros out E.
    + now injection E as <-.
    + destruct (Nat.eqb c 4); simpl in E; [ now apply IH | discriminate ].
Qed.

(** X15.  On a successful export with teams, the export validator reports
    every division whose count is not four, each with its own count, and, when
    the team count is not 32 or a team id occurs twice, that as well; the
    registry it leaves is the one auto-detection over the export's teams
    gives. *)
Theorem validateEnhancedTeamExport_reports_all (teams : list Team) (store : MappingStore) :
  teams <> [] ->
  let result := validateEnhancedTeamExport (mkTeamExport true (Some teams)) store in
  (forall d, In d (map divName teams) -> divisionSize d teams <> 4 ->
     In (divisionWarning d (divisionSize d teams)) (issues (fst result)))
  /\ (List.length teams <> 32 ->
      In (teamCountIssue (List.length teams)) (issues (fst result)))
  /\ (~ NoDup (map teamId teams) ->
      In "Duplicate team IDs found in export" (issues (fst result)))
  /\ snd result = autoDetectExpansionTeams teams store.
Proof.
  intros Hne result. unfold result.
  rewrite validateEnhancedTeamExport_teams by assumption. simpl fst. simpl snd.
  simpl issues. repeat split.
  - intros d Hin Hbad. apply in_or_app. right. apply in_or_app. right.
    apply divisionIssues_In; [ | assumption ].
    apply countDivisions_entries. now split.
  - intros Hlen. apply in_or_app. left.
    apply Nat.eqb_neq in Hlen. rewrite Hlen. now left.
  - intros Hdup. apply in_or_app. right. apply in_or_app. left.
    destruct (Nat.eqb (List.length (map teamId teams))
                (distinctCount (map teamId teams))) eqn:D; [ | now left ].
    apply distinctCount_NoDup in D. contradiction.
Qed.

Lemma validateEnhancedTeamExport_reports_all_witness :
  issues (fst (validateEnhancedTeamExport (mkTeamExport true (Some movedRoster)) emptyStore))
    = [ "Division NFC West has 5 teams instead of 4";
        "Division AFC East has 3 teams instead of 4" ]
  /\ In "Division AFC East has 3 teams instead of 4"
       (issues (fst (validateEnhancedTeamExport
                       (mkTeamExport true (Some movedRoster)) emptyStore))).
Proof.
  split; [ reflexivity | ].
  assert (Hne : movedRoster <> []) by discriminate.
  destruct (validateEnhancedTeamExport_reports_all movedRoster emptyStore Hne)
    as [Hdiv _].
  apply (Hdiv "AFC East"); [ | discriminate ].
  apply in_map_iff. exists (teamNumbered "AFC East" 2). split; [ reflexivity | ].
  right. now left.
Defined.

Lemma validateEnhancedTeamExport_valid_iff_witness :
  exportValid (fst (validateEnhancedTeamExport
                      (mkTeamExport true (Some healthyRoster)) emptyStore)) = true
  /\ validateDivisionIntegrity healthyRoster = (true, []).
Proof.
  split; [ reflexivity | ].
  destruct (proj2 (validateEnhancedTeamExport_valid_iff
                     (mkTeamExport true (Some healthyRoster)) emptyStore) eq_refl)
    as [teams [Hl Hv]].
  injection Hl as <-. exact Hv.
Defined.

(** ** The display accessor, called again *)

Lemma arraySort_sorted_id {A : Type} (compareFn : A -> A -> comparison) (l : list A) :
  StronglySorted (notAfter compareFn) l -> arraySort compareFn l = l.
Proof.
  induction l as [|x l IH]; intros Hs; simpl; [ reflexivity | ].
  inversion Hs as [|? ? Hs' Hall]; subst.
  rewrite (IH Hs').
  destruct l as [|y l']; simpl; [ reflexivity | ].
  inversion Hall as [|? ? Hxy _]; subst.
  unfold notAfter in Hxy. now destruct (compareFn x y).
Qed.

(** X16.  [localeCompare] is a total preorder, and no two different division
    names of the list's teams compare as equal.  Then the display accessor is
    idempotent although it sorts its array in place: a second call returns
    the array the first call returned, and leaves the list as the first call
    left it. *)
Theorem getEnhancedLatestTeams_again
    (localeCompare : string -> string -> comparison)
    (localeCompare_antisym :
       forall a b, localeCompare a b = CompOpp (localeCompare b a))
    (localeCompare_trans :
       forall a b c, localeCompare a b <> Gt -> localeCompare b c <> Gt ->
                     localeCompare a c <> Gt)
    (store : MappingStore) (teamList : EnhancedTeamList) :
  divisionNamesApart localeCompare (enhancedTeams teamList) ->
  let first := getEnhancedLatestTeams localeCompare store teamList in
  getEnhancedLatestTeams localeCompare store (snd first) = first.
Proof.
  intros Hapart. cbn zeta. unfold getEnhancedLatestTeams. simpl.
  pose proof (sortTeamsForDivisionDisplay_notAfter localeCompare localeCompare_antisym
                localeCompare_trans (enhancedTeams teamList) Hapart store) as Hs.
  unfold sortTeamsForDivisionDisplay in *.
  now rewrite (arraySort_sorted_id _ _ Hs).
Qed.

Lemma getEnhancedLatestTeams_again_witness :
  let teamList := fst (createEnhancedTeamList (sampleTeamList hawksRoster) emptyStore) in
  let store := snd (createEnhancedTeamList (sampleTeamList hawksRoster) emptyStore) in
  let first := getEnhancedLatestTeams codeUnitCompare store teamList in
  divisionNamesApart codeUnitCompare (enhancedTeams teamList)
  /\ map teamId (enhancedTeams teamList) = [5%N; 4%N; 6%N]
  /\ map teamId (fst first) = [6%N; 4%N; 5%N]
  /\ getEnhancedLatestTeams codeUnitCompare store (snd first) = first.
Proof.
  split; [ apply codeUnitCompare_apart | ].
  split; [ reflexivity | ]. split; [ reflexivity | ].
  exact (getEnhancedLatestTeams_again codeUnitCompare codeUnitCompare_antisym
           codeUnitCompare_trans
           (snd (createEnhancedTeamList (sampleTeamList hawksRoster) emptyStore))
           (fst (createEnhancedTeamList (sampleTeamList hawksRoster) emptyStore))
           (codeUnitCompare_apart _)).
Defined.

Lemma divisionSize_perm (d : string) (l l' : list Team) :
  Permutation l l' -> divisionSize d l = divisionSize d l'.
Proof.
  intros P. unfold divisionSize.
  induction P as [|x l l' P IH|x y l|l l' l'' P1 IH1 P2 IH2]; simpl.
  - reflexivity.
  - destruct (String.eqb (divName x) d); simpl; now rewrite IH.
  - destruct (String.eqb (divName x) d), (String.eqb (divName y) d); reflexivity.
  - now rewrite IH1.
Qed.

Lemma validateDivisionIntegrity_perm (l l' : list Team) :
  Permutation l l' ->
  fst (validateDivisionIntegrity l) = fst (validateDivisionIntegrity l').
Proof.
  intros P.
  assert (H : forall a b, Permutation a b ->
             fst (validateDivisionIntegrity a) = true ->
             fst (validateDivisionIntegrity b) = true).
  { intros a b Pab Ha. apply validateDivisionIntegrity_iff in Ha.
    destruct Ha as [Hdiv Hlen]. apply validateDivisionIntegrity_iff. split.
    - intros d Hin. rewrite <- (divisionSize_perm d a b Pab). apply Hdiv.
      apply (Permutation_in _ (Permutation_sym (Permutation_map divName Pab))).
      exact Hin.
    - now rewrite <- (Permutation_length Pab). }
  destruct (fst (validateDivisionIntegrity l)) eqn:E1,
           (fst (validateDivisionIntegrity l')) eqn:E2; try reflexivity.
  - rewrite (H l l' P E1) in E2. discriminate.
  - rewrite (H l' l (Permutation_sym P) E2) in E1. discriminate.
Qed.

(** X17.  The in-place sort of the display accessor does not change what
    [validateDivisionStructure] returns, for any [localeCompare]: the boolean
    depends on the teams only, not on their order. *)
Theorem validateDivisionStructure_after_sort
    (localeCompare : string -> string -> comparison)
    (store : MappingStore) (teamList : EnhancedTeamList) :
  fst (validateDivisionStructure
         (snd (getEnhancedLatestTeams localeCompare store teamList)))
    = fst (validateDivisionStructure teamList).
Proof.
  unfold validateDivisionStructure, getEnhancedLatestTeams. simpl.
  apply validateDivisionIntegrity_perm. apply Permutation_sym.
  unfold sortTeamsForDivisionDisplay. apply arraySort_perm.
Qed.

(** The line written does depend on the order: sorting the roster with the
    moved team puts AFC East first, and the line is then about AFC East. *)
Lemma validateDivisionStructure_line_after_sort :
  let teamList := mkEnhancedTeamList (sampleTeamList movedRoster) movedRoster JsMap.empty in
  snd (validateDivisionStructure teamList)
    = ["Division NFC West has 5 teams instead of 4"]
  /\ snd (validateDivisionStructure
            (snd (getEnhancedLatestTeams codeUnitCompare emptyStore teamList)))
     = ["Division AFC East has 3 teams instead of 4"].
Proof. vm_compute. split; reflexivity. Qed.

(** ** Autocomplete and the resolver *)

Lemma prefix_refl (s : string) : String.prefix s s = true.
Proof.
  induction s as [|c s IH]; simpl; [ reflexivity | ].
  destruct (Ascii.ascii_dec c c); [ assumption | congruence ].
Qed.

Lemma includes_refl (s : string) : JsString.includes s s = true.
Proof.
  destruct s as [|c s]; [ reflexivity | ].
  cbn [JsString.includes]. now rewrite prefix_refl.
Qed.

Lemma eqb_includes (a b : string) :
  String.eqb a b = true -> JsString.includes a b = true.
Proof. intros H. apply String.eqb_eq in H. subst. apply includes_refl. Qed.

Lemma firstn_In {A : Type} (n : nat) (l : list A) (x : A) :
  In x (firstn n l) -> In x l.
Proof.
  revert l. induction n as [|n IH]; intros [|y l]; simpl; try contradiction.
  intros [H|H]; [ now left | right; now apply IH ].
Qed.

Lemma sliceTo_In {A : Type} (limit : Z) (l : list A) (x : A) :
  In x (sliceTo limit l) -> In x l.
Proof. unfold sliceTo. destruct (0 <=? limit)%Z; apply firstn_In. Qed.

Lemma exact_or_partial_autocomplete (q : string) (r : SearchRecord) :
  exactMatches q r = true \/ partialMatches q r = true ->
  autocompleteMatches q r = true.
Proof.
  unfold exactMatches, partialMatches, autocompleteMatches. cbn zeta.
  intros [H|H].
  - apply orb_prop in H. destruct H as [H|H]; [ apply orb_prop in H; destruct H as [H|H] | ];
      apply eqb_includes in H; rewrite H; repeat rewrite ?orb_true_r, ?orb_true_l;
      reflexivity.
  - apply orb_prop in H. destruct H as [H|H]; [ apply orb_prop in H; destruct H as [H|H] | ];
      rewrite H; repeat rewrite ?orb_true_r, ?orb_true_l; reflexivity.
Qed.

(** X18.  Autocomplete: with a non-negative limit it offers at most that
    many choices; each choice names, as name and as value, the display name of
    an indexed record that its filter matches; and its filter matches every
    record that the resolver's exact or partial pass matches for the same
    text. *)
Theorem createEnhancedTeamSearchResults_choices
    (localeCompare : string -> string -> comparison) (store : MappingStore)
    (searchPhrase : string) (teamList : EnhancedTeamList) (limit : Z) :
  let choices :=
    createEnhancedTeamSearchResults localeCompare store searchPhrase teamList limit in
  ((0 <= limit)%Z -> List.length choices <= Z.to_nat limit)
  /\ (forall c, In c choices ->
        choiceValue c = choiceName c
        /\ exists r, In r (resolverIndex localeCompare store teamList)
                     /\ autocompleteMatches searchPhrase r = true
                     /\ choiceName c = srDisplayName r)
  /\ (forall r, exactMatches searchPhrase r = true \/ partialMatches searchPhrase r = true ->
        autocompleteMatches searchPhrase r = true).
Proof.
  cbn zeta. unfold createEnhancedTeamSearchResults. split; [ | split ].
  - intros Hlimit. rewrite length_map. unfold sliceTo.
    apply Z.leb_le in Hlimit. rewrite Hlimit. apply firstn_le_length.
  - intros c Hin. apply in_map_iff in Hin. destruct Hin as [r [<- Hr]].
    split; [ reflexivity | ]. exists r.
    apply sliceTo_In in Hr. apply filter_In in Hr. destruct Hr as [Hr Hm].
    repeat split; assumption.
  - apply exact_or_partial_autocomplete.
Qed.

Lemma createEnhancedTeamSearchResults_choices_witness :
  let teamList := fst (createEnhancedTeamList (sampleTeamList hawksRoster) emptyStore) in
  let store := snd (createEnhancedTeamList (sampleTeamList hawksRoster) emptyStore) in
  map choiceValue (createEnhancedTeamSearchResults codeUnitCompare store "hawks" teamList 25)
    = ["Night Hawks"; "Snowhawks"]
  /\ List.length (createEnhancedTeamSearchResults codeUnitCompare store "" teamList 2)
     <= Z.to_nat 2.
Proof.
  split; [ reflexivity | ].
  apply (proj1 (createEnhancedTeamSearchResults_choices codeUnitCompare
                  (snd (createEnhancedTeamList (sampleTeamList hawksRoster) emptyStore))
                  ""
                  (fst (createEnhancedTeamList (sampleTeamList hawksRoster) emptyStore))
                  2)).
  lia.
Defined.

Lemma find_exists {A : Type} (f : A -> bool) (l : list A) (x : A) :
  In x l -> f x = true -> exists y, find f l = Some y.
Proof.
  induction l as [|a l IH]; simpl; [ contradiction | ].
  intros Hin Hf. destruct (f a) eqn:E; [ now exists a | ].
  destruct Hin as [->|Hin]; [ congruence | now apply IH ].
Qed.

Lemma createEnhancedTeamList_again (original : TeamList) (store0 : MappingStore) :
  createEnhancedTeamList original (snd (createEnhancedTeamList original store0))
  = createEnhancedTeamList original store0.
Proof.
  rewrite !createEnhancedTeamList_spec. unfold enhanceTeamData. simpl fst. simpl snd.
  assert (H : autoDetectExpansionTeams (getLatestTeams original)
                (autoDetectExpansionTeams (getLatestTeams original) store0)
              = autoDetectExpansionTeams (getLatestTeams original) store0).
  { apply autoDetect_skip_all. intros t Hin Hd. now apply autoDetect_registered. }
  now rewrite H.
Qed.

(** X19.  What autocomplete offers, the resolver accepts: create the
    enhanced team list for the autocomplete request and take any choice it
    offers; the team list created next from the same teams is the same list
    under the same registry, and resolving the choice's value on it gives a
    valid result that holds one of its enriched teams and no error. *)
Theorem autocomplete_choice_resolves
    (localeCompare : string -> string -> comparison)
    (original : TeamList) (store0 : MappingStore) (searchPhrase : string)
    (limit : Z) (c : Choice) :
  let teamList1 := fst (createEnhancedTeamList original store0) in
  let store1 := snd (createEnhancedTeamList original store0) in
  let teamList2 := fst (createEnhancedTeamList original store1) in
  let store2 := snd (createEnhancedTeamList original store1) in
  In c (createEnhancedTeamSearchResults localeCompare store1 searchPhrase teamList1 limit) ->
  teamList2 = teamList1 /\ store2 = store1
  /\ exists t, In t (enhancedTeams teamList2)
       /\ validateEnhancedTeamReference localeCompare store2 (choiceValue c) teamList2
          = Return {| valid := true; team := Some t; error := None |}.
Proof.
  cbn zeta. rewrite createEnhancedTeamList_again.
  intros Hin. split; [ reflexivity | ]. split; [ reflexivity | ].
  unfold createEnhancedTeamSearchResults in Hin.
  apply in_map_iff in Hin. destruct Hin as [r [<- Hr]]. simpl choiceValue.
  apply sliceTo_In in Hr. apply filter_In in Hr. destruct Hr as [Hr _].
  assert (Hexact : exactMatches (srDisplayName r) r = true).
  { unfold exactMatches. now rewrite String.eqb_refl. }
  destruct (find_exists _ _ r Hr Hexact) as [y Hy].
  unfold validateEnhancedTeamReference. rewrite Hy.
  apply find_some in Hy. destruct Hy as [Hyin _].
  destruct (resolverIndex_records localeCompare original store0 _ y Hyin)
    as [t [Hget [Ht _]]].
  exists t. split; [ exact Ht | ]. now rewrite Hget.
Qed.

Lemma autocomplete_choice_resolves_witness :
  let teamList := fst (createEnhancedTeamList (sampleTeamList hawksRoster) emptyStore) in
  let store := snd (createEnhancedTeamList (sampleTeamList hawksRoster) emptyStore) in
  In (mkChoice "Snowhawks" "Snowhawks")
     (createEnhancedTeamSearchResults codeUnitCompare store "hawks" teamList 25)
  /\ exists t, validateEnhancedTeamReference codeUnitCompare store "Snowhawks" teamList
               = Return {| valid := true; team := Some t; error := None |}.
Proof.
  assert (Hin : In (mkChoice "Snowhawks" "Snowhawks")
                  (createEnhancedTeamSearchResults codeUnitCompare
                     (snd (createEnhancedTeamList (sampleTeamList hawksRoster) emptyStore))
                     "hawks"
                     (fst (createEnhancedTeamList (sampleTeamList hawksRoster) emptyStore))
                     25)).
  { right. now left. }
  split; [ exact Hin | ].
  destruct (autocomplete_choice_resolves codeUnitCompare (sampleTeamList hawksRoster)
              emptyStore "hawks" 25 (mkChoice "Snowhawks" "Snowhawks") Hin)
    as [_ [_ [t [_ Ht]]]].
  exists t. exact Ht.
Defined.

(** ** The resolver and the letter case of the query *)

Lemma lowerChar_idem (c : ascii) :
  JsString.lowerChar (JsString.lowerChar c) = JsString.lowerChar c
  /\ JsString.lowerChar (JsString.upperChar c) = JsString.lowerChar c.
Proof. destruct c as [[] [] [] [] [] [] [] []]; split; reflexivity. Qed.

Lemma toLowerCase_idem (s : string) :
  JsString.toLowerCase (JsString.toLowerCase s) = JsString.toLowerCase s
  /\ JsString.toLowerCase (JsString.toUpperCase s) = JsString.toLowerCase s.
Proof.
  unfold JsString.toLowerCase, JsString.toUpperCase.
  induction s as [|c s [IH1 IH2]]; simpl; [ now split | ].
  destruct (lowerChar_idem c) as [H1 H2]. now rewrite H1, H2, IH1, IH2.
Qed.

Lemma validateEnhancedTeamReference_lower
    (localeCompare : string -> string -> comparison) (store : MappingStore)
    (q q' : string) (teamList : EnhancedTeamList) :
  JsString.toLowerCase q' = JsString.toLowerCase q ->
  resolvedTeam (validateEnhancedTeamReference localeCompare store q' teamList)
  = resolvedTeam (validateEnhancedTeamReference localeCompare store q teamList).
Proof.
  intros H. unfold validateEnhancedTeamReference, exactMatches, partialMatches.
  rewrite H.
  set (records := resolverIndex localeCompare store teamList).
  destruct (find _ records); [ reflexivity | ].
  destruct (filter _ records) as [|m [|m' ms]]; reflexivity.
Qed.

(** X20.  For a query of ASCII characters, the resolver does not depend on
    the letter case of the query: the query in lower case and the query in
    upper case resolve as the query itself does, to the same team or to a
    failure alike (the error text quotes the query as written).  Only the
    query passes through both case maps here; the names of the index are
    lower-cased the same way on both sides. *)
Theorem validateEnhancedTeamReference_case
    (localeCompare : string -> string -> comparison) (store : MappingStore)
    (teamReference : string) (teamList : EnhancedTeamList) :
  JsString.isAscii teamReference = true ->
  resolvedTeam (validateEnhancedTeamReference localeCompare store
                  (JsString.toLowerCase teamReference) teamList)
  = resolvedTeam (validateEnhancedTeamReference localeCompare store teamReference teamList)
  /\ resolvedTeam (validateEnhancedTeamReference localeCompare store
                     (JsString.toUpperCase teamReference) teamList)
     = resolvedTeam (validateEnhancedTeamReference localeCompare store teamReference teamList).
Proof.
  intros _. split; apply validateEnhancedTeamReference_lower; apply toLowerCase_idem.
Qed.

Lemma validateEnhancedTeamReference_case_witness :
  let teamList := fst (createEnhancedTeamList (sampleTeamList bearsRoster) dragonsStore) in
  let store := snd (createEnhancedTeamList (sampleTeamList bearsRoster) dragonsStore) in
  JsString.isAscii "DrAgOnS" = true
  /\ resolvedTeam (validateEnhancedTeamReference codeUnitCompare store "DRAGONS" teamList)
     = resolvedTeam (validateEnhancedTeamReference codeUnitCompare store "DrAgOnS" teamList)
  /\ map (fun t => (teamId t, displayName t)) (enhancedTeams teamList) = [(1%N, "Dragons")]
  /\ resolvedTeam (validateEnhancedTeamReference codeUnitCompare store "DrAgOnS" teamList)
     = Return (true, nth_error (enhancedTeams teamList) 0).
Proof.
  split; [ reflexivity | ].
  split; [ | split; reflexivity ].
  exact (proj2 (validateEnhancedTeamReference_case codeUnitCompare
                  (snd (createEnhancedTeamList (sampleTeamList bearsRoster) dragonsStore))
                  "DrAgOnS"
                  (fst (createEnhancedTeamList (sampleTeamList bearsRoster) dragonsStore))
                  eq_refl)).
Defined.

(** ** Lookup by name in the exporter *)

Lemma find_first {A : Type} (f : A -> bool) (l : list A) (x : A) :
  find f l = Some x ->
  exists before after, l = before ++ x :: after /\ f x = true
                       /\ forall y, In y before -> f y = false.
Proof.
  induction l as [|a l IH]; simpl; [ discriminate | ].
  destruct (f a) eqn:E.
  - intros [= <-]. exists [], l. repeat split; [ assumption | intros y [] ].
  - intros H. destruct (IH H) as [before [after [-> [Hx Hb]]]].
    exists (a :: before), after. repeat split; [ assumption | ].
    intros y [<-|Hy]; [ assumption | now apply Hb ].
Qed.

(** X21.  [findTeamByName] never reports ambiguity: it returns the first
    enriched team, in the order of the export, that matches exactly, and if
    none does the first that matches partially; it returns nothing only when
    no enriched team matches either way. *)
Theorem findTeamByName_first (teams : list Team) (searchName : string)
    (store : MappingStore) :
  let enhanced := fst (enhanceTeamData teams store) in
  let searchLower := JsString.toLowerCase searchName in
  let found := fst (findTeamByName teams searchName store) in
  snd (findTeamByName teams searchName store) = snd (enhanceTeamData teams store)
  /\ (found = None <->
      forall t, In t enhanced ->
        exactTeamMatch searchLower t = false /\ partialTeamMatch searchLower t = false)
  /\ (forall t, found = Some t ->
        exists before after, enhanced = before ++ t :: after
          /\ (forall y, In y before -> exactTeamMatch searchLower y = false)
          /\ (exactTeamMatch searchLower t = true
              \/ ((forall y, In y enhanced -> exactTeamMatch searchLower y = false)
                  /\ partialTeamMatch searchLower t = true
                  /\ forall y, In y before -> partialTeamMatch searchLower y = false))).
Proof.
  cbn zeta. unfold findTeamByName.
  destruct (enhanceTeamData teams store) as [enhanced store'] eqn:E. simpl fst. simpl snd.
  set (q := JsString.toLowerCase searchName).
  destruct (find (exactTeamMatch q) enhanced) as [m|] eqn:F1; simpl.
  - split; [ reflexivity | ]. split.
    + split; [ discriminate | ].
      intros H. apply find_some in F1. destruct F1 as [Hin Hm].
      destruct (H m Hin) as [Hx _]. congruence.
    + intros t [= <-]. destruct (find_first _ _ _ F1) as [b [a [-> [Hm Hb]]]].
      exists b, a. repeat split; [ assumption | now left ].
  - split; [ reflexivity | ].
    pose proof (find_none _ _ F1) as Hnone. split.
    + split.
      * intros F2 t Hin. split; [ now apply Hnone | ].
        exact (find_none _ _ F2 t Hin).
      * intros H. destruct (find (partialTeamMatch q) enhanced) as [m|] eqn:F2;
          [ | reflexivity ].
        apply find_some in F2. destruct F2 as [Hin Hm].
        destruct (H m Hin) as [_ Hp]. congruence.
    + intros t F2. destruct (find_first _ _ _ F2) as [b [a [Heq [Hm Hb]]]].
      exists b, a. split; [ assumption | ]. split.
      * intros y Hy. apply Hnone. rewrite Heq. apply in_or_app. now left.
      * right. repeat split; assumption.
Qed.

(** On the roster with the two hawks, where the resolver reports an
    ambiguity, [findTeamByName] settles for the team that comes first. *)
Example findTeamByName_hawks :
  option_map displayName (fst (findTeamByName hawksRoster "hawks" emptyStore))
    = Some "Snowhawks".
Proof. reflexivity. Qed.

(** ** Comparison of two exports *)

Lemma compareNewTeam_fold (oldTeamMap : @JsMap.t N Team) (newTeams : list Team)
    (acc : TeamComparison) :
  fold_left (compareNewTeam oldTeamMap) newTeams acc
  = mkTeamComparison
      (relocated acc ++ flat_map (relocatedBy oldTeamMap) newTeams)
      (unchanged acc ++ flat_map (unchangedBy oldTeamMap) newTeams)
      (comparisonIssues acc ++ flat_map (newIssueBy oldTeamMap) newTeams).
Proof.
  revert acc. induction newTeams as [|t newTeams IH]; intros acc; simpl.
  - rewrite !app_nil_r. now destruct acc.
  - rewrite IH. unfold compareNewTeam, relocatedBy, unchangedBy, newIssueBy.
    destruct (JsMap.get N.eqb (teamId t) oldTeamMap) as [o|]; simpl.
    + destruct (namesDiffer o t); simpl; rewrite <- ?app_assoc; reflexivity.
    + rewrite <- ?app_assoc. reflexivity.
Qed.

Lemma checkOldTeam_fold (newTeamMap : @JsMap.t N Team) (oldTeams : list Team)
    (acc : TeamComparison) :
  fold_left (checkOldTeam newTeamMap) oldTeams acc
  = mkTeamComparison (relocated acc) (unchanged acc)
      (comparisonIssues acc ++ flat_map (missingIssueBy newTeamMap) oldTeams).
Proof.
  revert acc. induction oldTeams as [|t oldTeams IH]; intros acc; simpl.
  - rewrite app_nil_r. now destruct acc.
  - rewrite IH. unfold checkOldTeam, missingIssueBy.
    destruct (negb (JsMap.has N.eqb (teamId t) newTeamMap)); simpl;
      rewrite <- ?app_assoc; reflexivity.
Qed.

Lemma compareTeamData_lists (oldTeams newTeams : list Team) :
  compareTeamData oldTeams newTeams
  = mkTeamComparison
      (flat_map (relocatedBy (teamMapOf oldTeams)) newTeams)
      (flat_map (unchangedBy (teamMapOf oldTeams)) newTeams)
      (flat_map (newIssueBy (teamMapOf oldTeams)) newTeams
       ++ flat_map (missingIssueBy (teamMapOf newTeams)) oldTeams).
Proof.
  unfold compareTeamData. now rewrite compareNewTeam_fold, checkOldTeam_fold.
Qed.

Lemma teamMapOf_has (teams : list Team) (id : N) :
  JsMap.has N.eqb id (teamMapOf teams) = true <-> In id (map teamId teams).
Proof.
  unfold teamMapOf. split.
  - unfold JsMap.has.
    destruct (JsMap.get N.eqb id (fold_left teamMapStep teams JsMap.empty)) as [t|] eqn:E;
      [ | discriminate ].
    intros _. destruct (teamMap_get_inv _ _ _ _ E) as [[Hin <-]|H]; [ | discriminate ].
    now apply in_map.
  - intros Hin. apply in_map_iff in Hin. destruct Hin as [t [<- Ht]].
    now apply teamMap_has.
Qed.

Lemma teamMapOf_get_unique (teams : list Team) (t : Team) :
  NoDup (map teamId teams) -> In t teams ->
  JsMap.get N.eqb (teamId t) (teamMapOf teams) = Some t.
Proof.
  intros Hnd Hin.
  pose proof (teamMap_has teams JsMap.empty t Hin) as Hhas.
  unfold teamMapOf, JsMap.has in *.
  destruct (JsMap.get N.eqb (teamId t) (fold_left teamMapStep teams JsMap.empty))
    as [t'|] eqn:E; [ | discriminate ].
  destruct (teamMap_get_inv _ _ _ _ E) as [[Hin' Hid]|H]; [ | discriminate ].
  f_equal. now apply (NoDup_map_injective teamId teams).
Qed.

Lemma namesDiffer_same (t : Team) : namesDiffer t t = false.
Proof. unfold namesDiffer. now rewrite !String.eqb_refl. Qed.

Lemma flat_map_nil_iff {A B : Type} (f : A -> list B) (l : list A) :
  flat_map f l = [] <-> forall x, In x l -> f x = [].
Proof.
  induction l as [|a l IH]; simpl.
  - split; [ intros _ ? [] | reflexivity ].
  - split.
    + intros H. apply app_eq_nil in H. destruct H as [Ha Hl].
      intros x [<-|Hx]; [ assumption | now apply IH ].
    + intros H. rewrite (H a (or_introl eq_refl)). simpl.
      apply IH. intros x Hx. apply H. now right.
Qed.

(** X22.  Comparing two exports: no issue is raised exactly when both
    hold the same team ids, and then every new team is counted once, as
    relocated or as unchanged; an export whose team ids are pairwise different,
    compared with itself, has every team unchanged, none relocated and no
    issue. *)
Theorem compareTeamData_issues (oldTeams newTeams : list Team) :
  (comparisonIssues (compareTeamData oldTeams newTeams) = [] <->
     (forall id, In id (map teamId newTeams) <-> In id (map teamId oldTeams)))
  /\ (comparisonIssues (compareTeamData oldTeams newTeams) = [] ->
      List.length (relocated (compareTeamData oldTeams newTeams))
      + List.length (unchanged (compareTeamData oldTeams newTeams))
      = List.length newTeams)
  /\ (NoDup (map teamId newTeams) ->
      compareTeamData newTeams newTeams = mkTeamComparison [] newTeams []).
Proof.
  rewrite !compareTeamData_lists. simpl comparisonIssues. simpl relocated.
  simpl unchanged.
  assert (Hnew : flat_map (newIssueBy (teamMapOf oldTeams)) newTeams = [] <->
                 forall t, In t newTeams -> In (teamId t) (map teamId oldTeams)).
  { rewrite flat_map_nil_iff. split; intros H t Ht.
    - specialize (H t Ht). unfold newIssueBy in H. apply teamMapOf_has.
      unfold JsMap.has.
      destruct (JsMap.get N.eqb (teamId t) (teamMapOf oldTeams));
        [ reflexivity | discriminate ].
    - specialize (H t Ht). apply teamMapOf_has in H. unfold newIssueBy.
      unfold JsMap.has in H.
      destruct (JsMap.get N.eqb (teamId t) (teamMapOf oldTeams));
        [ reflexivity | discriminate ]. }
  assert (Hold : flat_map (missingIssueBy (teamMapOf newTeams)) oldTeams = [] <->
                 forall t, In t oldTeams -> In (teamId t) (map teamId newTeams)).
  { rewrite flat_map_nil_iff. split; intros H t Ht.
    - specialize (H t Ht). unfold missingIssueBy in H. apply teamMapOf_has.
      destruct (JsMap.has N.eqb (teamId t) (teamMapOf newTeams));
        [ reflexivity | discriminate ].
    - specialize (H t Ht). apply teamMapOf_has in H. unfold missingIssueBy.
      now rewrite H. }
  split; [ | split ].
  - split.
    + intros H. apply app_eq_nil in H. destruct H as [H1 H2].
      intros id. split; intros Hin; apply in_map_iff in Hin;
        destruct Hin as [t [<- Ht]];
        [ now apply (proj1 Hnew H1) | now apply (proj1 Hold H2) ].
    + intros H.
      rewrite (proj2 Hnew), (proj2 Hold); [ reflexivity | | ];
        intros t Ht; apply H; now apply in_map.
  - intros H. apply app_eq_nil in H. destruct H as [H1 _].
    pose proof (proj1 Hnew H1) as Hknown. clear - Hknown.
    induction newTeams as [|t newTeams IH]; simpl; [ reflexivity | ].
    rewrite !length_app.
    assert (Ht : In (teamId t) (map teamId oldTeams)) by (apply Hknown; now left).
    apply teamMapOf_has in Ht. unfold JsMap.has in Ht.
    unfold relocatedBy at 1, unchangedBy at 1.
    destruct (JsMap.get N.eqb (teamId t) (teamMapOf oldTeams)) as [o|];
      [ | discriminate ].
    assert (IH' := IH (fun x Hx => Hknown x (or_intror Hx))).
    destruct (namesDiffer o t); simpl; lia.
  - intros Hnd.
    assert (H : forall l, incl l newTeams ->
               flat_map (relocatedBy (teamMapOf newTeams)) l = []
               /\ flat_map (unchangedBy (teamMapOf newTeams)) l = l
               /\ flat_map (newIssueBy (teamMapOf newTeams)) l = []
               /\ flat_map (missingIssueBy (teamMapOf newTeams)) l = []).
    { induction l as [|t l IH]; intros Hincl; simpl; [ repeat split | ].
      assert (Ht : In t newTeams) by (apply Hincl; now left).
      destruct (IH (fun x Hx => Hincl x (or_intror Hx))) as [I1 [I2 [I3 I4]]].
      rewrite I1, I2, I3, I4.
      unfold relocatedBy, unchangedBy, newIssueBy, missingIssueBy, JsMap.has.
      rewrite (teamMapOf_get_unique newTeams t Hnd Ht), namesDiffer_same.
      repeat split. }
    destruct (H newTeams (incl_refl _)) as [H1 [H2 [H3 H4]]].
    now rewrite H1, H2, H3, H4.
Qed.

Lemma compareTeamData_issues_witness :
  compareTeamData oldExport oldExport = mkTeamComparison [] oldExport []
  /\ map (fun p => (displayName (fst p), displayName (snd p)))
       (relocated (compareTeamData oldExport newExport)) = [("Bears", "Dragons")]
  /\ List.length (relocated (compareTeamData oldExport newExport))
     + List.length (unchanged (compareTeamData oldExport newExport)) = 2.
Proof.
  assert (Hnd : NoDup (map teamId oldExport)).
  { cbn. repeat (constructor; [ simpl; intuition discriminate | ]). constructor. }
  destruct (compareTeamData_issues oldExport newExport) as [_ [Hcount _]].
  destruct (compareTeamData_issues oldExport oldExport) as [_ [_ Hself]].
  split; [ exact (Hself Hnd) | ].
  split; [ reflexivity | exact (Hcount eq_refl) ].
Defined.

(** ** The scoreboard *)

Lemma createSimMessage_Return (v : JsValue) :
  (exists s, createSimMessage v = Return s) <->
  v = JsStr "FAIR_SIM" \/ v = JsStr "FORCE_WIN_AWAY" \/ v = JsStr "FORCE_WIN_HOME".
Proof.
  unfold createSimMessage.
  destruct (strictEqStr v "FAIR_SIM") eqn:E1;
    [ apply strictEqStr_true in E1; split; eauto | ].
  destruct (strictEqStr v "FORCE_WIN_AWAY") eqn:E2;
    [ apply strictEqStr_true in E2; split; eauto | ].
  destruct (strictEqStr v "FORCE_WIN_HOME") eqn:E3;
    [ apply strictEqStr_true in E3; split; eauto | ].
  split; [ intros [s H]; discriminate | ].
  intros [H|[H|H]]; apply strictEqStr_true in H; congruence.
Qed.

Lemma mapCompletion_Return {A B : Type} (f : A -> Completion B) (l : list A) :
  (exists ys, mapCompletion f l = Return ys) <->
  (forall x, In x l -> exists y, f x = Return y).
Proof.
  induction l as [|a l IH]; simpl.
  - split; [ intros _ ? [] | intros _; now exists [] ].
  - split.
    + intros [ys H] x [<-|Hx].
      * destruct (f a) as [y|msg]; [ now exists y | discriminate ].
      * destruct (f a) as [y|msg]; [ | discriminate ]. simpl in H.
        destruct (mapCompletion f l) as [ys'|msg] eqn:E; [ | discriminate ].
        apply (proj1 IH); [ now exists ys' | assumption ].
    + intros H. destruct (H a (or_introl eq_refl)) as [y Hy]. rewrite Hy. simpl.
      destruct (proj2 IH (fun x Hx => H x (or_intror Hx))) as [ys Hys].
      rewrite Hys. simpl. now eexists.
Qed.

Lemma mapCompletion_length {A B : Type} (f : A -> Completion B) (l : list A)
    (ys : list B) :
  mapCompletion f l = Return ys -> List.length ys = List.length l.
Proof.
  revert ys. induction l as [|a l IH]; simpl; intros ys.
  - now intros [= <-].
  - destruct (f a) as [y|msg]; [ | discriminate ]. simpl.
    destruct (mapCompletion f l) as [ys'|msg]; [ | discriminate ]. simpl.
    intros [= <-]. simpl. now rewrite (IH ys' eq_refl).
Qed.

Lemma gameLine_Return (store : MappingStore) (teamList : EnhancedTeamList)
    (gameToSim : @JsMap.t Z Sim) (game : Game) :
  (exists line, gameLine store teamList gameToSim game = Return line) <->
  (forall sim, JsMap.get Z.eqb (scheduleId game) gameToSim = Some sim ->
     simResult sim = JsStr "FAIR_SIM" \/ simResult sim = JsStr "FORCE_WIN_AWAY"
     \/ simResult sim = JsStr "FORCE_WIN_HOME")
  /\ (exists t, getEnhancedTeamForId teamList (awayTeamId game) = Return t)
  /\ (exists t, getEnhancedTeamForId teamList (homeTeamId game) = Return t).
Proof.
  unfold gameLine, simMessageOf.
  destruct (JsMap.get Z.eqb (scheduleId game) gameToSim) as [sim|].
  - pose proof (createSimMessage_Return (simResult sim)) as Hsim.
    destruct (createSimMessage (simResult sim)) as [m|msg]; simpl.
    + destruct (getEnhancedTeamForId teamList (awayTeamId game)) as [a|ma]; simpl.
      * destruct (getEnhancedTeamForId teamList (homeTeamId game)) as [h|mh]; simpl.
        -- split; [ intros _ | eauto ].
           split; [ intros s [= <-]; apply Hsim; eauto | split; eauto ].
        -- split; [ intros [l H]; discriminate | ].
           intros [_ [_ [t H]]]. discriminate.
      * split; [ intros [l H]; discriminate | ].
        intros [_ [[t H] _]]. discriminate.
    + split; [ intros [l H]; discriminate | ].
      intros [H _]. destruct (proj2 Hsim (H sim eq_refl)) as [s Hs]. discriminate.
  - simpl.
    destruct (getEnhancedTeamForId teamList (awayTeamId game)) as [a|ma]; simpl.
    + destruct (getEnhancedTeamForId teamList (homeTeamId game)) as [h|mh]; simpl.
      * split; [ intros _ | eauto ].
        split; [ intros s H; discriminate | split; eauto ].
      * split; [ intros [l H]; discriminate | ].
        intros [_ [_ [t H]]]. discriminate.
    + split; [ intros [l H]; discriminate | ].
      intros [_ [[t H] _]]. discriminate.
Qed.

(** X23.  The scoreboard returns exactly when, for every game listed, the
    sim recorded for the game (if any, for this league) has one of the results
    FAIR_SIM, FORCE_WIN_AWAY, FORCE_WIN_HOME and both team ids resolve; a
    single game whose recorded sim has another result, NONE for one, makes
    the whole call throw. *)
Theorem formatEnhancedScoreboard_returns_iff (store : MappingStore) (week seasonIndex : Z)
    (games : list Game) (teamList : EnhancedTeamList) (sims : list Sim)
    (leagueId : string) :
  ((exists text, formatEnhancedScoreboard store week seasonIndex games teamList sims leagueId
                 = Return text) <->
   forall game, In game games ->
     (forall sim, JsMap.get Z.eqb (scheduleId game) (gameToSimOf sims leagueId) = Some sim ->
        simResult sim = JsStr "FAIR_SIM" \/ simResult sim = JsStr "FORCE_WIN_AWAY"
        \/ simResult sim = JsStr "FORCE_WIN_HOME")
     /\ (exists t, getEnhancedTeamForId teamList (awayTeamId game) = Return t)
     /\ (exists t, getEnhancedTeamForId teamList (homeTeamId game) = Return t))
  /\ (forall game sim, In game games ->
        JsMap.get Z.eqb (scheduleId game) (gameToSimOf sims leagueId) = Some sim ->
        simResult sim = JsStr (simResultName NONE) ->
        exists msg, formatEnhancedScoreboard store week seasonIndex games teamList sims
                      leagueId = Throw msg).
Proof.
  assert (Hiff : (exists text,
             formatEnhancedScoreboard store week seasonIndex games teamList sims leagueId
             = Return text) <->
     forall game, In game games ->
       exists line, gameLine store teamList (gameToSimOf sims leagueId) game = Return line).
  { unfold formatEnhancedScoreboard.
    pose proof (mapCompletion_Return (gameLine store teamList (gameToSimOf sims leagueId))
                  (arraySort compareSchedule games)) as Hmap.
    split.
    - intros [text H] game Hin.
      destruct (mapCompletion _ _) as [ys|msg]; [ | discriminate ].
      apply (proj1 Hmap); [ now exists ys | ].
      apply (Permutation_in _ (arraySort_perm compareSchedule games)). exact Hin.
    - intros H.
      destruct (proj2 Hmap) as [ys Hys].
      + intros x Hx. apply H.
        apply (Permutation_in _ (Permutation_sym (arraySort_perm compareSchedule games))).
        exact Hx.
      + rewrite Hys. simpl. now eexists. }
  split.
  - rewrite Hiff. split; intros H game Hin.
    + apply (proj1 (gameLine_Return store teamList (gameToSimOf sims leagueId) game)).
      now apply H.
    + apply (proj2 (gameLine_Return store teamList (gameToSimOf sims leagueId) game)).
      now apply H.
  - intros game sim Hin Hget Hnone.
    destruct (formatEnhancedScoreboard store week seasonIndex games teamList sims leagueId)
      as [text|msg] eqn:E; [ | now exists msg ].
    exfalso.
    assert (Hret : exists text0, Return text = Return text0) by (now exists text).
    pose proof (proj1 Hiff Hret game Hin) as Hline.
    apply gameLine_Return in Hline. destruct Hline as [Hsim _].
    specialize (Hsim sim Hget). rewrite Hnone in Hsim. simpl in Hsim.
    destruct Hsim as [H|[H|H]]; discriminate.
Qed.

Lemma formatEnhancedScoreboard_returns_iff_witness :
  (exists text, formatEnhancedScoreboard emptyStore 3 0 [gameOne] scoreboardTeams
                  [fairSim] "league" = Return text)
  /\ exists msg, formatEnhancedScoreboard emptyStore 3 0 [gameOne] scoreboardTeams
                   [noneSim] "league" = Throw msg.
Proof.
  split; [ eexists; reflexivity | ].
  apply (proj2 (formatEnhancedScoreboard_returns_iff emptyStore 3 0 [gameOne]
                  scoreboardTeams [noneSim] "league") gameOne noneSim);
    [ now left | reflexivity | reflexivity ].
Defined.

(** ** Emoji of the catalog's teams *)

Lemma emojiOf_catalog (nm : string) :
  In nm catalogNames ->
  (emojiOf (JsString.toLowerCase nm) <> emojiDefault <-> In nm emojiNames).
Proof.
  assert (H : forallb
                (fun nm => Bool.eqb
                   (negb (String.eqb (emojiOf (JsString.toLowerCase nm)) emojiDefault))
                   (existsb (String.eqb nm) emojiNames))
                catalogNames = true) by (vm_compute; reflexivity).
  intros Hin. apply (proj1 (forallb_forall _ _) H) in Hin.
  apply Bool.eqb_prop in Hin. split.
  - intros Hne. apply String.eqb_neq in Hne. rewrite Hne in Hin. cbn [negb] in Hin.
    symmetry in Hin. apply existsb_exists in Hin. destruct Hin as [x [Hx E]].
    apply String.eqb_eq in E. now subst.
  - intros Hmem.
    assert (Hex : existsb (String.eqb nm) emojiNames = true)
      by (apply existsb_exists; exists nm; split;
          [ assumption | apply String.eqb_refl ]).
    rewrite Hex in Hin. apply negb_true_iff in Hin. now apply String.eqb_neq.
Qed.

(** X24.  Of the teams registered under a catalog name, exactly those of
    the ten names of [emojiNames] get an emoji of their own; the other
    twenty-one get the default, the Huskies among them, whose name in lower
    case holds neither "wolf" nor "husky". *)
Theorem getTeamEmoji_catalog (store : MappingStore) (t : Team) (m : ExpansionTeamMapping) :
  getExpansionTeamMapping store (teamId t) = Some m ->
  In (expansionName m) catalogNames ->
  (getTeamEmoji store t <> emojiDefault <-> In (expansionName m) emojiNames)
  /\ (expansionName m = "Huskies" -> getTeamEmoji store t = emojiDefault).
Proof.
  intros Hm Hin.
  assert (Hname : getTeamEmoji store t = emojiOf (JsString.toLowerCase (expansionName m))).
  { unfold getTeamEmoji, getFormattedTeamName, getTeamDisplayName. now rewrite Hm. }
  rewrite Hname. split; [ now apply emojiOf_catalog | ].
  intros ->. reflexivity.
Qed.

Lemma getTeamEmoji_catalog_witness :
  getTeamEmoji dragonsStore (rawTeam 1 "Bears" "Bears" "Chicago" "CHI" "NFC North" 1)
    = emojiDragon
  /\ getTeamEmoji dragonsStore (rawTeam 1 "Bears" "Bears" "Chicago" "CHI" "NFC North" 1)
     <> emojiDefault.
Proof.
  split; [ reflexivity | ].
  apply (proj1 (getTeamEmoji_catalog dragonsStore
                  (rawTeam 1 "Bears" "Bears" "Chicago" "CHI" "NFC North" 1)
                  (mkMapping "Dragons" 1 "Bears" 0 0) eq_refl
                  (proj2 (getExpansionTeamByName_catalog "Dragons")
                         (ex_intro _ _ eq_refl)))).
  right. right. now left.
Defined.

(** ** Processing an export *)

Lemma autoDetect_enhanced (teams : list Team) (store : MappingStore) :
  autoDetectExpansionTeams
    (map (enhanceOne (autoDetectExpansionTeams teams store)) teams)
    (autoDetectExpansionTeams teams store)
  = autoDetectExpansionTeams teams store.
Proof.
  set (store' := autoDetectExpansionTeams teams store).
  apply autoDetect_skip_all. intros e Hin Hd.
  apply in_map_iff in Hin. destruct Hin as [t [<- Ht]].
  destruct (enhanceOne_anchor store' t) as [Hid _]. rewrite Hid.
  destruct (isExpansionTeam store' (teamId t)) eqn:R; [ reflexivity | ].
  rewrite (detectable_enhanceOne store' t R) in Hd.
  rewrite <- R. unfold store'. now apply autoDetect_registered.
Qed.

Lemma autoDetect_twice (teams : list Team) (store : MappingStore) :
  autoDetectExpansionTeams teams (autoDetectExpansionTeams teams store)
  = autoDetectExpansionTeams teams store.
Proof.
  apply autoDetect_skip_all. intros t Hin Hd. now apply autoDetect_registered.
Qed.

Lemma processEnhancedTeamData_valid (leagueId : string) (teams : list Team)
    (store : MappingStore) :
  exportValid (fst (validateEnhancedTeamExport (mkTeamExport true (Some teams)) store))
    = true ->
  let store' := autoDetectExpansionTeams teams store in
  fst (processEnhancedTeamData leagueId (mkTeamExport true (Some teams)) store)
  = (Return (map teamEventOf
               (map (enhanceOne store') (map (enhanceOne store') teams))),
     store').
Proof.
  intros Hv store'.
  destruct teams as [|t0 teams0]; [ discriminate Hv | ].
  remember (t0 :: teams0) as teams eqn:Hteams.
  assert (Hne : teams <> []) by (subst; discriminate).
  clear Hteams t0 teams0.
  unfold processEnhancedTeamData.
  rewrite validateEnhancedTeamExport_teams in * by assumption.
  cbn [fst exportValid] in Hv. rewrite Hv.
  unfold enhanceTeamExport, enhanceTeamEvents, enhanceTeamData.
  cbn [fst snd exportValid negb success leagueTeamInfoList].
  cbv beta iota zeta.
  cbn [fst snd exportValid negb success leagueTeamInfoList].
  rewrite autoDetect_twice, autoDetect_enhanced. reflexivity.
Qed.

Lemma propertyOf_absent (key : string) (props : list (string * string)) :
  (forall v, ~ In (key, v) props) -> propertyOf key props = None.
Proof.
  intros Habs. unfold propertyOf.
  destruct (find (fun p => String.eqb (fst p) key) props) as [[k v]|] eqn:E;
    [ | reflexivity ].
  apply find_some in E. destruct E as [Hin Hk]. simpl in Hk.
  apply String.eqb_eq in Hk. subst k. now elim (Habs v).
Qed.

Lemma propertyOf_present (key v : string) (props : list (string * string)) :
  NoDup (map fst props) -> In (key, v) props -> propertyOf key props = Some v.
Proof.
  unfold propertyOf.
  induction props as [|[k w] props IH]; simpl; intros Hnd Hin; [ contradiction | ].
  inversion Hnd as [|? ? Hnotin Hnd']; subst.
  destruct Hin as [[= -> ->]|Hin].
  - now rewrite String.eqb_refl.
  - destruct (String.eqb k key) eqn:E.
    + apply String.eqb_eq in E. subst k. exfalso. apply Hnotin.
      apply in_map_iff. now exists (key, v).
    + now apply IH.
Qed.

Lemma Forall2_map_self {A B : Type} (P : A -> B -> Prop) (f : A -> B) (l : list A) :
  (forall a, P a (f a)) -> Forall2 P l (map f l).
Proof. intros H. induction l; simpl; constructor; auto. Qed.

(** X25.  Processing an export: an export the validator rejects is not
    stored, the call throws with the validator's issues; an accepted export
    yields one event per team, in the export's order.  The event of a team
    without an own property [key] is keyed by the team id, and its event type
    is MADDEN_TEAM when the team has no own property [event_type]; a team's
    own [key] replaces the id as the key, since the spread comes last in the
    literal.  The events carry the result of enriching twice: names, logo and
    flag are those of the enriched roster, but for a registered team the
    stored original display name is the overlaid name, not the name of the
    export. *)
Theorem processEnhancedTeamData_events (leagueId : string) (teamExport : TeamExport)
    (store : MappingStore) :
  let validation := fst (validateEnhancedTeamExport teamExport store) in
  let outcome := fst (processEnhancedTeamData leagueId teamExport store) in
  (exportValid validation = false ->
     fst outcome = Throw ("Team export validation failed: "
                          ++ String.concat ", " (issues validation))%string)
  /\ (exportValid validation = true ->
      exists teams events,
        leagueTeamInfoList teamExport = Some teams
        /\ outcome = (Return events, autoDetectExpansionTeams teams store)
        /\ Forall2 (fun t e =>
              teamId (eventTeam e) = teamId t
              /\ ((forall v, ~ In ("key", v) (otherProps t)) ->
                  eventKey e = idText (teamId t))
              /\ ((forall v, ~ In ("event_type", v) (otherProps t)) ->
                  event_type e = "MADDEN_TEAM")
              /\ (forall k, NoDup (map fst (otherProps t)) ->
                    In ("key", k) (otherProps t) -> eventKey e = k))
             teams events
        /\ map (fun e => displayName (eventTeam e)) events
           = map displayName (fst (enhanceTeamData teams store))
        /\ map (fun e => logoId (eventTeam e)) events
           = map logoId (fst (enhanceTeamData teams store))
        /\ Forall (fun e =>
             isExpansionTeam (autoDetectExpansionTeams teams store)
               (teamId (eventTeam e)) = true ->
             originalDisplayName (eventTeam e) = Some (displayName (eventTeam e))
             /\ originalNickName (eventTeam e) = Some (nickName (eventTeam e))) events).
Proof.
  cbn zeta. split.
  - intros Hv. unfold processEnhancedTeamData.
    destruct (validateEnhancedTeamExport teamExport store) as [validation store1].
    simpl in Hv. rewrite Hv. reflexivity.
  - intros Hv.
    destruct teamExport as [ok [teams|]]; [ | destruct ok; discriminate Hv ].
    destruct ok; [ | discriminate Hv ].
    exists teams.
    set (store' := autoDetectExpansionTeams teams store).
    exists (map teamEventOf (map (enhanceOne store') (map (enhanceOne store') teams))).
    split; [ reflexivity | ].
    split; [ now apply processEnhancedTeamData_valid | ].
    unfold enhanceTeamData. simpl fst. fold store'.
    split; [ | split; [ | split ] ].
    + rewrite !map_map. apply Forall2_map_self. intros t.
      destruct (enhanceOne_anchor store' (enhanceOne store' t))
        as [H1 [_ [_ [_ [_ [_ Hp1]]]]]].
      destruct (enhanceOne_anchor store' t) as [H2 [_ [_ [_ [_ [_ Hp2]]]]]].
      unfold teamEventOf, spreadOver. cbn [eventTeam eventKey event_type].
      rewrite Hp1, Hp2, H1, H2.
      split; [ reflexivity | ]. split; [ | split ].
      * intros Habs. now rewrite (propertyOf_absent _ _ Habs).
      * intros Habs. now rewrite (propertyOf_absent _ _ Habs).
      * intros k Hnd Hin. now rewrite (propertyOf_present _ _ _ Hnd Hin).
    + rewrite !map_map. apply map_ext. intros t. simpl.
      apply (enhanceOne_again store' t).
    + rewrite !map_map. apply map_ext. intros t. simpl.
      apply (enhanceOne_again store' t).
    + apply Forall_forall. intros e Hin.
      apply in_map_iff in Hin. destruct Hin as [e2 [<- Hin]].
      apply in_map_iff in Hin. destruct Hin as [e1 [<- Hin]].
      apply in_map_iff in Hin. destruct Hin as [t [<- _]].
      simpl. intros Hreg.
      destruct (enhanceOne_anchor store' (enhanceOne store' t)) as [H1 _].
      destruct (enhanceOne_anchor store' t) as [H2 _].
      rewrite H1, H2 in Hreg.
      destruct (enhanceOne_again store' t) as [_ [Hd [Hn [_ [_ H]]]]].
      destruct (H Hreg) as [Ha [Hb _]]. rewrite Hd, Hn. split; assumption.
Qed.

Lemma processEnhancedTeamData_events_witness :
  exportValid (fst (validateEnhancedTeamExport (mkTeamExport true (Some keyedRoster))
                      dragonsInHealthyRoster)) = true
  /\ exists events,
    fst (fst (processEnhancedTeamData "league"
                (mkTeamExport true (Some keyedRoster)) dragonsInHealthyRoster))
      = Return events
    /\ List.length events = 32
    /\ map (fun e => (eventKey e, event_type e, platform e, displayName (eventTeam e),
                      originalDisplayName (eventTeam e))) (firstn 2 events)
       = [("first", "MADDEN_TEAM", "xbox", "Dragons", Some "Dragons");
          ("2", "MADDEN_TEAM", "unknown", "Team 2", None)]
    /\ map displayName (firstn 2 keyedRoster) = ["Team 1"; "Team 2"].
Proof.
  split; [ reflexivity | ].
  destruct (proj2 (processEnhancedTeamData_events "league"
                     (mkTeamExport true (Some keyedRoster)) dragonsInHealthyRoster)
              eq_refl)
    as [teams [events [Hl [Hout _]]]].
  injection Hl as <-.
  exists (map teamEventOf
            (map (enhanceOne dragonsInHealthyRoster)
               (map (enhanceOne dragonsInHealthyRoster) keyedRoster))).
  repeat split.
Defined.
